(** * p2pchat: canonical payloads, signature checking, relay signaling and
    peer connection bookkeeping.

    A shallow embedding of [services/cryptoService], [services/signalingService]
    and [services/webrtcService].  Platform services the program calls but does
    not define (WebCrypto, [WebSocket], [URL], [JSON.parse], the WebRTC
    negotiation engine) are section variables or explicit environment events. *)

From Stdlib Require Import ZArith Ascii String DecimalString.
From stdpp Require Import base tactics option list strings.

Set Warnings "-register-all".
Local Open Scope string_scope.
Local Open Scope Z_scope.

(** ** Platform layer: completions and [JSON.stringify] *)

Module JS.

(** A JavaScript completion: a value, or a thrown exception (for an [async]
    function: a fulfilled or a rejected promise). *)
Inductive exn := TypeError | DataError | OperationError | OtherError (tag : string).

Inductive completion (A : Type) :=
| Normal (a : A)
| Throw (e : exn).
Arguments Normal {A} a.
Arguments Throw {A} e.

Definition bind {A B} (c : completion A) (k : A -> completion B) : completion B :=
  match c with
  | Normal a => k a
  | Throw e => Throw e
  end.

(** [try { body } catch (e) { handler e }] *)
Definition try_catch {A} (body : completion A) (handler : exn -> completion A)
  : completion A :=
  match body with
  | Normal a => Normal a
  | Throw e => handler e
  end.

Notation "'await' x ':=' c 'in' k" := (bind c (fun x => k))
  (at level 10, x name, c at level 100, k at level 200).

(** A number as the program meets them: an integer, or one of the three
    values that are not finite ([JSON.parse] reads [1e999] as [Infinity]).
    Numbers with a fractional part, which the program neither computes nor
    stores, are left out.  An [Int z] whose [z] is not a double stands for the
    double nearest to it. *)
Inductive number := Int (z : Z) | NaN | PosInfinity | NegInfinity.

Coercion Int : Z >-> number.

Global Instance number_eq_dec : EqDecision number.
Proof. solve_decision. Defined.

Definition is_finite (n : number) : bool :=
  match n with Int _ => true | _ => false end.

(** Strings are sequences of code units below 256. *)
Inductive json :=
| JUndefined
| JNull
| JBool (b : bool)
| JNum (n : number)
| JStr (s : string)
| JArr (items : list json)
| JObj (props : list (string * json)).

Definition hex_digit (n : N) : ascii :=
  ascii_of_N (if (n <? 10)%N then 48 + n else 87 + n)%N.

Definition dquote : string := String (ascii_of_N 34) EmptyString.

(** QuoteJSONString, one code unit. *)
Definition quote_char (c : ascii) : string :=
  let n := N_of_ascii c in
  if (n =? 34)%N then String "\" dquote
  else if (n =? 92)%N then "\\"
  else if (n =? 8)%N then "\b"
  else if (n =? 12)%N then "\f"
  else if (n =? 10)%N then "\n"
  else if (n =? 13)%N then "\r"
  else if (n =? 9)%N then "\t"
  else if (n <? 32)%N then
         "\u00" ++ String (hex_digit (n / 16)) (String (hex_digit (n mod 16)) EmptyString)
  else String c EmptyString.

Fixpoint quote_body (s : string) : string :=
  match s with
  | EmptyString => EmptyString
  | String c rest => quote_char c ++ quote_body rest
  end.

Definition quote (s : string) : string := dquote ++ quote_body s ++ dquote.

(** The decimal digits of an integer. *)
Definition number_to_string (n : Z) : string := NilZero.string_of_int (Z.to_int n).

(** The double nearest to a positive integer, ties to even. *)
Definition to_double (z : Z) : Z :=
  let bits := Z.log2 z + 1 in
  if bits <=? 53 then z
  else
    let shift := bits - 53 in
    let q := Z.shiftr z shift in
    let r := Z.land z (Z.ones shift) in
    let half := Z.shiftl 1 (shift - 1) in
    Z.shiftl (if (half <? r) || ((r =? half) && Z.odd q) then q + 1 else q) shift.

Definition digits_of (z : Z) : Z := Z.of_nat (String.length (number_to_string z)).

(** Number::toString looks for the fewest digits [k] and the integer [s] of
    [k] digits such that [s * 10 ^ (n - k)] reads back as the number; of two
    such [s] it takes the nearer one, and the even one when they are equally
    near.  The result here is the integer [s * 10 ^ (n - k)]. *)
Definition with_digits (x n k : Z) : option Z :=
  let scale := 10 ^ (n - k) in
  let lo := x / scale * scale in
  let hi := lo + scale in
  match to_double lo =? x, to_double hi =? x with
  | true, true =>
      Some (if x - lo <? hi - x then lo
            else if hi - x <? x - lo then hi
            else if Z.even (lo / scale) then lo else hi)
  | true, false => Some lo
  | false, true => Some hi
  | false, false => None
  end.

Definition shortest (x : Z) : Z :=
  let n := digits_of x in
  default x (list_find is_Some ((fun k => with_digits x n (Z.of_nat k)) <$> seq 1 17)
             ≫= fun found => found.2).

Fixpoint strip_zeros (s : string) : string :=
  match s with
  | EmptyString => EmptyString
  | String c rest =>
      match strip_zeros rest with
      | EmptyString => if Ascii.eqb c "0" then EmptyString else String c EmptyString
      | kept => String c kept
      end
  end.

(** Number::toString of a positive double that is an integer: its digits
    when there are at most 21 of them, and otherwise the significant digits
    with an exponent. *)
Definition double_to_string (x : Z) : string :=
  let v := shortest x in
  let text := number_to_string v in
  if digits_of v <=? 21 then text
  else
    match strip_zeros text with
    | String d EmptyString => String d ("e+" ++ number_to_string (digits_of v - 1))
    | String d rest => String d ("." ++ rest ++ "e+" ++ number_to_string (digits_of v - 1))
    | EmptyString => text
    end.

(** Up to [2 ^ 53] every integer is a double, and is printed digit by
    digit.  From [2 ^ 1024 - 2 ^ 970] on an integer reads as [Infinity]. *)
Definition Number_toString (z : Z) : option string :=
  if Z.abs z <=? 2 ^ 53 then Some (number_to_string z)
  else if 2 ^ 1024 <=? to_double (Z.abs z) then None
  else Some ((if z <? 0 then "-" else EmptyString) ++ double_to_string (to_double (Z.abs z))).

(** [JSON.stringify] of a number: a number that is not finite is written
    as [null]. *)
Definition stringify_number (n : number) : string :=
  match n with
  | Int z => default "null" (Number_toString z)
  | NaN | PosInfinity | NegInfinity => "null"
  end.

Fixpoint join (sep : string) (parts : list string) : string :=
  match parts with
  | [] => EmptyString
  | [p] => p
  | p :: rest => p ++ sep ++ join sep rest
  end.

(** A property is serialised as [key:value]; a property whose value
    serialises to [undefined] is left out. *)
Definition property (kv : string * option string) : option string :=
  match kv.2 with
  | Some text => Some (quote kv.1 ++ ":" ++ text)
  | None => None
  end.

Definition braces (members : list string) : string := "{" ++ join "," members ++ "}".

(** [JSON.stringify v]; [None] stands for the result [undefined]. *)
Fixpoint stringify (v : json) : option string :=
  match v with
  | JUndefined => None
  | JNull => Some "null"
  | JBool true => Some "true"
  | JBool false => Some "false"
  | JNum n => Some (stringify_number n)
  | JStr s => Some (quote s)
  | JArr items =>
      Some ("[" ++ join "," (map (fun x => default "null" (stringify x)) items) ++ "]")
  | JObj props =>
      Some (braces (omap (fun kv => property (kv.1, stringify kv.2)) props))
  end.

(** [o.k] on a parsed value: own property lookup; reading a property of
    [null] or [undefined] throws. *)
Fixpoint assoc (k : string) (props : list (string * json)) : json :=
  match props with
  | [] => JUndefined
  | (k', v) :: rest => if String.eqb k k' then v else assoc k rest
  end.

End JS.

(** ** cryptoService: canonical payloads, [sign], [verify] *)

Module Crypto.
Import JS.

(** *** types.ts *)

Record MessageFile := {
  mf_name : string;
  mf_type : string;
  mf_size : number;
  mf_data : string }.

Inductive Sender := you | them.

Inductive DeliveryState := sent | sending | failed | received.

Record Message := {
  id : number;
  contactId : number;
  sender : Sender;
  content : string;
  file : option MessageFile;
  signature : string;
  timestamp : number;
  state : DeliveryState }.

Record GroupPoll := { question : string; options : list string }.

Record GroupEvent := {
  title : string;
  description : string;
  location : option string;
  eventTime : string }.

Record GroupPollVote := { pollId : number; optionIndex : number }.

Record GroupUpdate := { displayPicture : string }.

Inductive GroupMessageType :=
  text | file_message | event_message | poll_message | pollVote_message | group_update.

Record GroupMessage := {
  gm_id : number;
  groupId : string;
  senderKey : string;
  gm_timestamp : number;
  gm_signature : string;
  gm_type : GroupMessageType;
  gm_content : string;
  gm_file : option MessageFile;
  poll : option GroupPoll;
  event : option GroupEvent;
  pollVote : option GroupPollVote;
  groupUpdate : option GroupUpdate }.

Definition sender_text (s : Sender) : string :=
  match s with you => "you" | them => "them" end.

Definition type_text (t : GroupMessageType) : string :=
  match t with
  | text => "text"
  | file_message => "file"
  | event_message => "event"
  | poll_message => "poll"
  | pollVote_message => "pollVote"
  | group_update => "group_update"
  end.

(** *** hex helpers *)

Definition byte_to_hex (b : Z) : string :=
  let n := Z.to_N b in
  String (hex_digit (n / 16)) (String (hex_digit (n mod 16)) EmptyString).

(** [Array.from(new Uint8Array(buffer)).map(b => b.toString(16).padStart(2, '0')).join('')] *)
Definition bufferToHex (buffer : list Z) : string :=
  join EmptyString (map byte_to_hex buffer).

(** StrWhiteSpaceChar below 256. *)
Definition is_space (c : ascii) : bool :=
  let n := N_of_ascii c in
  ((9 <=? n) && (n <=? 13) || (n =? 32) || (n =? 160))%N.

Fixpoint trim_start (s : string) : string :=
  match s with
  | String c rest => if is_space c then trim_start rest else s
  | EmptyString => s
  end.

Definition hex_value (c : ascii) : option Z :=
  let n := Z.of_N (N_of_ascii c) in
  if (48 <=? n) && (n <=? 57) then Some (n - 48)
  else if (97 <=? n) && (n <=? 102) then Some (n - 87)
  else if (65 <=? n) && (n <=? 70) then Some (n - 55)
  else None.

(** The longest prefix of hexadecimal digits, read left to right;
    [None] when there is no digit at all. *)
Fixpoint hex_prefix (acc : option Z) (s : string) : option Z :=
  match s with
  | String c rest =>
      match hex_value c with
      | Some d => hex_prefix (Some (16 * default 0 acc + d)) rest
      | None => acc
      end
  | EmptyString => acc
  end.

Definition strip_0x (s : string) : string :=
  match s with
  | String "0" (String "x" rest) => rest
  | String "0" (String "X" rest) => rest
  | _ => s
  end.

(** [parseInt(s, 16)]; [None] is [NaN]. *)
Definition parseInt16 (s : string) : option Z :=
  let s := trim_start s in
  let '(sign, s) :=
    match s with
    | String "-" rest => (-1, rest)
    | String "+" rest => (1, rest)
    | _ => (1, s)
    end in
  match hex_prefix None (strip_0x s) with
  | Some n => Some (sign * n)
  | None => None
  end.

(** Storing a number in a [Uint8Array] slot: [NaN] becomes 0, anything
    else is reduced modulo 256. *)
Definition to_uint8 (v : option Z) : Z :=
  match v with
  | Some n => n mod 256
  | None => 0
  end.

(** The array has [floor(hex.length / 2)] slots; the loop runs over the even
    indices below [hex.length], and a store past the end is ignored. *)
Definition hexToBuffer (hex : string) : list Z :=
  let n := String.length hex in
  foldl (fun bytes k =>
           <[k := to_uint8 (parseInt16 (substring (2 * k) 2 hex))]> bytes)
        (replicate (n / 2)%nat 0) (seq 0 ((n + 1) / 2)%nat).

(** [TextEncoder.encode] on code units below 256. *)
Definition utf8_unit (c : ascii) : list Z :=
  let n := Z.of_N (N_of_ascii c) in
  if n <? 128 then [n]
  else [Z.lor 192 (Z.shiftr n 6); Z.lor 128 (Z.land n 63)].

Fixpoint textEncoder_encode (s : string) : list Z :=
  match s with
  | EmptyString => []
  | String c rest => utf8_unit c ++ textEncoder_encode rest
  end.

(** *** canonical payloads *)

Definition file_projection (f : MessageFile) : json :=
  JObj [("name", JStr (mf_name f)); ("type", JStr (mf_type f)); ("size", JNum (mf_size f))].

(** [x ? {...} : undefined] *)
Definition when_defined {A} (x : option A) (project : A -> json) : json :=
  match x with
  | Some a => project a
  | None => JUndefined
  end.

Definition message_payload (message : Message) : json :=
  JObj [("contactId", JNum (contactId message));
        ("sender", JStr (sender_text (sender message)));
        ("content", JStr (content message));
        ("timestamp", JNum (timestamp message));
        ("file", when_defined (file message) file_projection)].

Definition stringify_text (v : json) : string := default "undefined" (stringify v).

Definition getCanonicalMessagePayload (message : Message) : string :=
  stringify_text (message_payload message).

Definition event_projection (e : GroupEvent) : json :=
  JObj [("title", JStr (title e));
        ("description", JStr (description e));
        ("location", when_defined (location e) JStr);
        ("eventTime", JStr (eventTime e))].

Definition poll_projection (p : GroupPoll) : json :=
  JObj [("question", JStr (question p)); ("options", JArr (map JStr (options p)))].

Definition pollVote_projection (v : GroupPollVote) : json :=
  JObj [("pollId", JNum (pollId v)); ("optionIndex", JNum (optionIndex v))].

Definition groupUpdate_projection (u : GroupUpdate) : json :=
  JObj [("displayPicture", JStr (displayPicture u))].

Definition group_message_payload (message : GroupMessage) : json :=
  JObj [("groupId", JStr (groupId message));
        ("senderKey", JStr (senderKey message));
        ("timestamp", JNum (gm_timestamp message));
        ("type", JStr (type_text (gm_type message)));
        ("content", JStr (gm_content message));
        ("file", when_defined (gm_file message) file_projection);
        ("event", when_defined (event message) event_projection);
        ("poll", when_defined (poll message) poll_projection);
        ("pollVote", when_defined (pollVote message) pollVote_projection);
        ("groupUpdate", when_defined (groupUpdate message) groupUpdate_projection)].

Definition getCanonicalGroupMessagePayload (message : GroupMessage) : string :=
  stringify_text (group_message_payload message).

(** *** signing and verification over WebCrypto *)

Section WebCrypto.

Variable CryptoKey : Type.
(** [crypto.subtle.importKey('spki' | 'pkcs8', buffer, ECDSA P-256, ...)] *)
Variable importKey_spki : list Z -> completion CryptoKey.
Variable importKey_pkcs8 : list Z -> completion CryptoKey.
(** [crypto.subtle.sign / verify({ECDSA, SHA-256}, key, ...)] *)
Variable subtle_sign : CryptoKey -> list Z -> completion (list Z).
Variable subtle_verify : CryptoKey -> list Z -> list Z -> completion bool.

Definition importPublicKey (hex : string) : completion CryptoKey :=
  importKey_spki (hexToBuffer hex).

Definition importPrivateKey (hex : string) : completion CryptoKey :=
  importKey_pkcs8 (hexToBuffer hex).

Definition sign (messagePayload : Message) (privateKeyHex : string) : completion string :=
  try_catch
    (await privateKey := importPrivateKey privateKeyHex in
     let canonicalPayload := getCanonicalMessagePayload messagePayload in
     await signatureBuffer :=
       subtle_sign privateKey (textEncoder_encode canonicalPayload) in
     Normal (bufferToHex signatureBuffer))
    (fun err => Throw err).

Definition verify (message : Message) (publicKeyHex : string) : completion bool :=
  try_catch
    (await publicKey := importPublicKey publicKeyHex in
     let signature := hexToBuffer (signature message) in
     let canonicalPayload := getCanonicalMessagePayload message in
     await isValid :=
       subtle_verify publicKey signature (textEncoder_encode canonicalPayload) in
     Normal isValid)
    (fun _ => Normal false).

Definition signGroupMessage (messagePayload : GroupMessage) (privateKeyHex : string)
  : completion string :=
  await privateKey := importPrivateKey privateKeyHex in
  let canonicalPayload := getCanonicalGroupMessagePayload messagePayload in
  await signatureBuffer :=
    subtle_sign privateKey (textEncoder_encode canonicalPayload) in
  Normal (bufferToHex signatureBuffer).

Definition verifyGroupMessage (message : GroupMessage) : completion bool :=
  try_catch
    (await publicKey := importPublicKey (senderKey message) in
     let signature := hexToBuffer (gm_signature message) in
     let canonicalPayload := getCanonicalGroupMessagePayload message in
     await isValid :=
       subtle_verify publicKey signature (textEncoder_encode canonicalPayload) in
     Normal isValid)
    (fun _ => Normal false).

End WebCrypto.

End Crypto.

(** ** signalingService: the relay connection *)

Module Signaling.
Import JS.

Inductive SignalType := offer | answer | candidate.

Record SignalMessage := {
  sm_type : SignalType;
  sm_from : string;
  sm_to : string;
  sm_data : json;
  sm_room : string }.

(** [WebSocket.readyState]: 0, 1, 2, 3. *)
Inductive ReadyState := CONNECTING | OPEN | CLOSING | CLOSED.

(** A [WebSocket] object; [ws_handlers] tells whether the service's
    [onopen], [onmessage], [onclose] and [onerror] are still installed. *)
Record WebSocket := {
  ws_url : string;
  readyState : ReadyState;
  ws_handlers : bool }.

(** The fields of [SignalingService], followed by the part of the browser
    it acts on: every socket constructed so far (a socket is named by its
    index), the pending timeouts with their due time, the clock in
    milliseconds, the frames handed to [socket.send], the calls of the signal
    handler, the [signalingStateChange] events and the stored relay address. *)
Record state := mkState {
  socket : option nat;
  onSignalCallback : option nat;
  myPublicKey : option string;
  reconnectTimeout : option nat;
  isExplicitDisconnect : bool;
  signalQueue : list SignalMessage;
  relayUrl : string;
  currentRoom : string;
  sockets : list WebSocket;
  timers : list (nat * nat);
  next_timer : nat;
  now : nat;
  wire : list (nat * SignalMessage);
  delivered : list (nat * json);
  dispatched : list bool;
  stored_relayUrl : option string }.

Definition set_socket (v : option nat) (s : state) : state :=
  mkState v (onSignalCallback s) (myPublicKey s) (reconnectTimeout s)
    (isExplicitDisconnect s) (signalQueue s) (relayUrl s) (currentRoom s) (sockets s)
    (timers s) (next_timer s) (now s) (wire s) (delivered s) (dispatched s)
    (stored_relayUrl s).

Definition set_onSignalCallback (v : option nat) (s : state) : state :=
  mkState (socket s) v (myPublicKey s) (reconnectTimeout s) (isExplicitDisconnect s)
    (signalQueue s) (relayUrl s) (currentRoom s) (sockets s) (timers s) (next_timer s)
    (now s) (wire s) (delivered s) (dispatched s) (stored_relayUrl s).

Definition set_myPublicKey (v : option string) (s : state) : state :=
  mkState (socket s) (onSignalCallback s) v (reconnectTimeout s)
    (isExplicitDisconnect s) (signalQueue s) (relayUrl s) (currentRoom s) (sockets s)
    (timers s) (next_timer s) (now s) (wire s) (delivered s) (dispatched s)
    (stored_relayUrl s).

Definition set_reconnectTimeout (v : option nat) (s : state) : state :=
  mkState (socket s) (onSignalCallback s) (myPublicKey s) v (isExplicitDisconnect s)
    (signalQueue s) (relayUrl s) (currentRoom s) (sockets s) (timers s) (next_timer s)
    (now s) (wire s) (delivered s) (dispatched s) (stored_relayUrl s).

Definition set_isExplicitDisconnect (v : bool) (s : state) : state :=
  mkState (socket s) (onSignalCallback s) (myPublicKey s) (reconnectTimeout s) v
    (signalQueue s) (relayUrl s) (currentRoom s) (sockets s) (timers s) (next_timer s)
    (now s) (wire s) (delivered s) (dispatched s) (stored_relayUrl s).

Definition set_signalQueue (v : list SignalMessage) (s : state) : state :=
  mkState (socket s) (onSignalCallback s) (myPublicKey s) (reconnectTimeout s)
    (isExplicitDisconnect s) v (relayUrl s) (currentRoom s) (sockets s) (timers s)
    (next_timer s) (now s) (wire s) (delivered s) (dispatched s) (stored_relayUrl s).

Definition set_relayUrl (v : string) (s : state) : state :=
  mkState (socket s) (onSignalCallback s) (myPublicKey s) (reconnectTimeout s)
    (isExplicitDisconnect s) (signalQueue s) v (currentRoom s) (sockets s) (timers s)
    (next_timer s) (now s) (wire s) (delivered s) (dispatched s) (stored_relayUrl s).

Definition set_currentRoom (v : string) (s : state) : state :=
  mkState (socket s) (onSignalCallback s) (myPublicKey s) (reconnectTimeout s)
    (isExplicitDisconnect s) (signalQueue s) (relayUrl s) v (sockets s) (timers s)
    (next_timer s) (now s) (wire s) (delivered s) (dispatched s) (stored_relayUrl s).

Definition set_sockets (v : list WebSocket) (s : state) : state :=
  mkState (socket s) (onSignalCallback s) (myPublicKey s) (reconnectTimeout s)
    (isExplicitDisconnect s) (signalQueue s) (relayUrl s) (currentRoom s) v (timers s)
    (next_timer s) (now s) (wire s) (delivered s) (dispatched s) (stored_relayUrl s).

Definition set_timers (v : list (nat * nat)) (s : state) : state :=
  mkState (socket s) (onSignalCallback s) (myPublicKey s) (reconnectTimeout s)
    (isExplicitDisconnect s) (signalQueue s) (relayUrl s) (currentRoom s) (sockets s) v
    (next_timer s) (now s) (wire s) (delivered s) (dispatched s) (stored_relayUrl s).

Definition set_next_timer (v : nat) (s : state) : state :=
  mkState (socket s) (onSignalCallback s) (myPublicKey s) (reconnectTimeout s)
    (isExplicitDisconnect s) (signalQueue s) (relayUrl s) (currentRoom s) (sockets s)
    (timers s) v (now s) (wire s) (delivered s) (dispatched s) (stored_relayUrl s).

Definition set_now (v : nat) (s : state) : state :=
  mkState (socket s) (onSignalCallback s) (myPublicKey s) (reconnectTimeout s)
    (isExplicitDisconnect s) (signalQueue s) (relayUrl s) (currentRoom s) (sockets s)
    (timers s) (next_timer s) v (wire s) (delivered s) (dispatched s)
    (stored_relayUrl s).

Definition set_wire (v : list (nat * SignalMessage)) (s : state) : state :=
  mkState (socket s) (onSignalCallback s) (myPublicKey s) (reconnectTimeout s)
    (isExplicitDisconnect s) (signalQueue s) (relayUrl s) (currentRoom s) (sockets s)
    (timers s) (next_timer s) (now s) v (delivered s) (dispatched s) (stored_relayUrl s).

Definition set_delivered (v : list (nat * json)) (s : state) : state :=
  mkState (socket s) (onSignalCallback s) (myPublicKey s) (reconnectTimeout s)
    (isExplicitDisconnect s) (signalQueue s) (relayUrl s) (currentRoom s) (sockets s)
    (timers s) (next_timer s) (now s) (wire s) v (dispatched s) (stored_relayUrl s).

Definition set_dispatched (v : list bool) (s : state) : state :=
  mkState (socket s) (onSignalCallback s) (myPublicKey s) (reconnectTimeout s)
    (isExplicitDisconnect s) (signalQueue s) (relayUrl s) (currentRoom s) (sockets s)
    (timers s) (next_timer s) (now s) (wire s) (delivered s) v (stored_relayUrl s).

Definition set_stored_relayUrl (v : option string) (s : state) : state :=
  mkState (socket s) (onSignalCallback s) (myPublicKey s) (reconnectTimeout s)
    (isExplicitDisconnect s) (signalQueue s) (relayUrl s) (currentRoom s) (sockets s)
    (timers s) (next_timer s) (now s) (wire s) (delivered s) (dispatched s) v.

(** [x || fallback] on a string that may be [null]. *)
Definition or_else (x : option string) (fallback : string) : string :=
  match x with
  | Some (String c rest) => String c rest
  | _ => fallback
  end.

(** Truthiness of [this.myPublicKey]: neither [null] nor the empty string. *)
Definition truthy (x : option string) : bool :=
  match x with
  | Some (String _ _) => true
  | _ => false
  end.

Definition init (stored : option string) : state :=
  mkState None None None None false [] (or_else stored "ws://localhost:8080") "main"
          [] [] 0 0 [] [] [] stored.

Definition ready_of (s : state) (sid : nat) : ReadyState :=
  match sockets s !! sid with
  | Some ws => readyState ws
  | None => CLOSED
  end.

(** [socket.close()] *)
Definition ws_close (ws : WebSocket) : WebSocket :=
  match readyState ws with
  | CONNECTING | OPEN => Build_WebSocket (ws_url ws) CLOSING (ws_handlers ws)
  | _ => ws
  end.

(** [socket.onopen = socket.onmessage = socket.onclose = socket.onerror = null] *)
Definition ws_detach (ws : WebSocket) : WebSocket :=
  Build_WebSocket (ws_url ws) (readyState ws) false.

Definition ws_set_ready (r : ReadyState) (ws : WebSocket) : WebSocket :=
  Build_WebSocket (ws_url ws) r (ws_handlers ws).

Definition dispatch (connected : bool) (s : state) : state :=
  set_dispatched (dispatched s ++ [connected]) s.

Definition clearTimeout (t : option nat) (s : state) : state :=
  match t with
  | Some tid => set_timers (filter (fun p => p.1 ≠ tid) (timers s)) s
  | None => s
  end.

(** [this.reconnectTimeout = setTimeout(reconnect, delay)] *)
Definition setTimeout (delay : nat) (s : state) : state :=
  let tid := next_timer s in
  set_reconnectTimeout (Some tid)
    (set_next_timer (S tid) (set_timers (timers s ++ [(tid, (now s + delay)%nat)]) s)).

(** The cleanup both [connect] and [disconnect] apply to an existing socket. *)
Definition release_socket (s : state) : state :=
  match socket s with
  | Some sid => set_sockets (alter (fun ws => ws_close (ws_detach ws)) sid (sockets s)) s
  | None => s
  end.

Section Browser.

(** [new WebSocket(url)] and [new URL(url)] throw on an address they cannot
    parse; [room_param] is [new URL(url).searchParams.get('room')]. *)
Variable valid_url : string -> bool.
Variable room_param : string -> completion (option string).
Variable JSON_parse : string -> completion json.

Definition connect (publicKey : string) (onSignal : nat) (s : state) : state :=
  let s := set_myPublicKey (Some publicKey) s in
  let s := set_onSignalCallback (Some onSignal) s in
  let s := set_isExplicitDisconnect false s in
  let s := release_socket s in
  if valid_url (relayUrl s) then
    let sid := length (sockets s) in
    set_socket (Some sid)
      (set_sockets (sockets s ++ [Build_WebSocket (relayUrl s) CONNECTING true]) s)
  else s.

(** [socket.send(frame)]: throws while the socket is connecting, transmits
    when it is open, and silently discards otherwise. *)
Definition ws_send (sid : nat) (frame : SignalMessage) (s : state) : completion state :=
  match ready_of s sid with
  | CONNECTING => Throw (OtherError "InvalidStateError")
  | OPEN => Normal (set_wire (wire s ++ [(sid, frame)]) s)
  | _ => Normal s
  end.

Definition enqueue (msg : SignalMessage) (s : state) : state :=
  set_signalQueue (signalQueue s ++ [msg]) s.

(** [if (this.myPublicKey && this.onSignalCallback) this.connect(...)] *)
Definition reconnect (s : state) : state :=
  match myPublicKey s, onSignalCallback s with
  | Some (String c k), Some cb => connect (String c k) cb s
  | _, _ => s
  end.

Definition sendSignal (to : string) (type : SignalType) (data : json) (s : state)
  : state :=
  match myPublicKey s with
  | Some (String c k) =>
      let key := String c k in
      let msg := Build_SignalMessage type key to data (currentRoom s) in
      match socket s with
      | None =>
          let s := enqueue msg s in
          match onSignalCallback s with
          | Some cb => connect key cb s
          | None => s
          end
      | Some sid =>
          match ready_of s sid with
          | CONNECTING => enqueue msg s
          | OPEN =>
              match ws_send sid msg s with
              | Normal s' => s'
              | Throw _ => enqueue msg s
              end
          | CLOSING | CLOSED =>
              let s := enqueue msg s in
              match onSignalCallback s with
              | Some cb => connect key cb s
              | None => s
              end
          end
      end
  | _ => s
  end.

Definition flushQueue (s : state) : state :=
  match signalQueue s with
  | [] => s
  | messages =>
      foldl (fun s msg => sendSignal (sm_to msg) (sm_type msg) (sm_data msg) s)
            (set_signalQueue [] s) messages
  end.

Definition disconnect (s : state) : state :=
  let s := set_isExplicitDisconnect true s in
  let s := clearTimeout (reconnectTimeout s) s in
  let s := release_socket s in
  let s := set_socket None s in
  let s := set_signalQueue [] s in
  dispatch false s.

Definition setRelayUrl (url : string) (s : state) : state :=
  let s := set_relayUrl url s in
  let s := set_stored_relayUrl (Some url) s in
  let s := set_currentRoom
             (match room_param url with
              | Normal room => or_else room "main"
              | Throw _ => "main"
              end) s in
  match socket s with
  | Some _ => reconnect (disconnect s)
  | None => s
  end.

(** *** the handlers installed on a socket by [connect] *)

Definition onopen (s : state) : state := flushQueue (dispatch true s).

(** [v.k] *)
Definition get (v : json) (k : string) : completion json :=
  match v with
  | JNull | JUndefined => Throw TypeError
  | JObj props => Normal (assoc k props)
  | _ => Normal JUndefined
  end.

(** [v === this.myPublicKey] for a parsed value [v]. *)
Definition is_key (v : json) (key : option string) : bool :=
  match v, key with
  | JStr s, Some k => String.eqb s k
  | JNull, None => true
  | _, _ => false
  end.

(** [v.substring(0, 8)]: only a string has a callable [substring]. *)
Definition substring8 (v : json) : completion string :=
  match v with
  | JStr s => Normal (substring 0 8 s)
  | _ => Throw TypeError
  end.

(** The body of the [try] in [onmessage]: the parsed message when the
    handler is to be called with it. *)
Definition accept (data : string) (key : option string) : completion (option json) :=
  await msg := JSON_parse data in
  await to := get msg "to" in
  if is_key to key then
    await from := get msg "from" in
    if negb (is_key from key) then
      await _ := substring8 from in
      Normal (Some msg)
    else Normal None
  else Normal None.

Definition onmessage (data : string) (s : state) : state :=
  match try_catch (accept data (myPublicKey s)) (fun _ => Normal None) with
  | Normal (Some msg) =>
      match onSignalCallback s with
      | Some cb => set_delivered (delivered s ++ [(cb, msg)]) s
      | None => s
      end
  | _ => s
  end.

Definition reconnect_delay : nat := 3000.

Definition onclose (s : state) : state :=
  let s := dispatch false s in
  if isExplicitDisconnect s then s
  else setTimeout reconnect_delay (clearTimeout (reconnectTimeout s) s).

(** *** events: calls of the service, and what the browser does to it *)

Inductive event :=
| Connect (publicKey : string) (onSignal : nat)
| SendSignal (to : string) (type : SignalType) (data : json)
| Disconnect
| SetRelayUrl (url : string)
| SocketOpen (sid : nat)
| SocketMessage (sid : nat) (data : string)
| SocketClose (sid : nat)
| Tick (dt : nat)
| TimerFire (tid : nat).

Definition set_ready (sid : nat) (r : ReadyState) (s : state) : state :=
  set_sockets (alter (ws_set_ready r) sid (sockets s)) s.

Definition due (tid : nat) (s : state) : bool :=
  existsb (fun p => Nat.eqb p.1 tid && Nat.leb p.2 (now s)) (timers s).

Definition step (e : event) (s : state) : state :=
  match e with
  | Connect publicKey onSignal => connect publicKey onSignal s
  | SendSignal to type data => sendSignal to type data s
  | Disconnect => disconnect s
  | SetRelayUrl url => setRelayUrl url s
  | SocketOpen sid =>
      match sockets s !! sid with
      | Some (Build_WebSocket _ CONNECTING handlers) =>
          let s := set_ready sid OPEN s in
          if handlers then onopen s else s
      | _ => s
      end
  | SocketMessage sid data =>
      match sockets s !! sid with
      | Some (Build_WebSocket _ OPEN true) | Some (Build_WebSocket _ CLOSING true) =>
          onmessage data s
      | _ => s
      end
  | SocketClose sid =>
      match sockets s !! sid with
      | Some (Build_WebSocket _ CLOSED _) | None => s
      | Some (Build_WebSocket _ _ handlers) =>
          let s := set_ready sid CLOSED s in
          if handlers then onclose s else s
      end
  | Tick dt => set_now (now s + dt)%nat s
  | TimerFire tid =>
      if due tid s then reconnect (clearTimeout (Some tid) s) else s
  end.

Definition run (events : list event) (s : state) : state := foldl (flip step) s events.

End Browser.

End Signaling.

(** ** webrtcService: one negotiation object and one data channel per peer *)

Module WebRTC.
Import JS.

(** *** [Map<string, V>]: entries in insertion order *)

Section JsMap.
Context {V : Type}.

Fixpoint map_get (k : string) (m : list (string * V)) : option V :=
  match m with
  | [] => None
  | (k', v) :: rest => if decide (k = k') then Some v else map_get k rest
  end.

(** [set] overwrites the value of an existing key where it stands and
    appends a new key at the end. *)
Fixpoint map_set (k : string) (v : V) (m : list (string * V)) : list (string * V) :=
  match m with
  | [] => [(k, v)]
  | (k', v') :: rest =>
      if decide (k = k') then (k, v) :: rest else (k', v') :: map_set k v rest
  end.

Fixpoint map_delete (k : string) (m : list (string * V)) : list (string * V) :=
  match m with
  | [] => []
  | (k', v') :: rest =>
      if decide (k = k') then rest else (k', v') :: map_delete k rest
  end.

(** How many entries a map holds for a key. *)
Definition entries (k : string) (m : list (string * V)) : nat :=
  length (filter (fun e => e.1 = k) m).

End JsMap.

Inductive P2PStatus := offline | connecting | connected.

(** [RTCDataChannel.readyState] *)
Inductive ChannelState := ch_connecting | ch_open | ch_closing | ch_closed.

(** [RTCPeerConnection.iceConnectionState] *)
Inductive IceState :=
  ice_new | ice_checking | ice_connected | ice_completed
| ice_failed | ice_disconnected | ice_closed.

(** A negotiation object: the peer key its handlers were created for,
    whether those handlers are still installed, and whether it was closed. *)
Record PeerConnection := {
  pc_peer : string;
  pc_handlers : bool;
  pc_closed : bool }.

Record DataChannel := {
  dc_owner : nat;
  dc_label : string;
  dc_state : ChannelState;
  dc_peer : option string }.

(** An [async] function suspended at its [await]s: [connectToPeer] waiting
    for the offer, [handleSignal] waiting for the answer. *)
Inductive task :=
| AwaitOffer (peerKey : string) (pc : nat)
| AwaitAnswer (from : string) (pc : nat).

(** Calls made on [signalingService]. *)
Inductive SigCall :=
| CallConnect (publicKey : string)
| CallSendSignal (to : string) (type : Signaling.SignalType) (data : json)
| CallDisconnect.

(** The fields of [WebRTCService], the objects it has created (named by
    index), its suspended calls, and what it has emitted: signaling calls,
    messages handed to [channel.send], status and message callbacks. *)
Record state := mkState {
  connections : list (string * nat);
  dataChannels : list (string * nat);
  statusCallbacks : list (string * nat);
  onMessageCallback : option nat;
  myPublicKey : string;
  pcs : list PeerConnection;
  channels : list DataChannel;
  pending : list task;
  signaling : list SigCall;
  sent : list (nat * string);
  statuses : list (nat * P2PStatus);
  received : list (nat * string * string) }.

Definition set_connections (v : list (string * nat)) (s : state) : state :=
  mkState v (dataChannels s) (statusCallbacks s) (onMessageCallback s) (myPublicKey s)
    (pcs s) (channels s) (pending s) (signaling s) (sent s) (statuses s) (received s).

Definition set_dataChannels (v : list (string * nat)) (s : state) : state :=
  mkState (connections s) v (statusCallbacks s) (onMessageCallback s) (myPublicKey s)
    (pcs s) (channels s) (pending s) (signaling s) (sent s) (statuses s) (received s).

Definition set_statusCallbacks (v : list (string * nat)) (s : state) : state :=
  mkState (connections s) (dataChannels s) v (onMessageCallback s) (myPublicKey s)
    (pcs s) (channels s) (pending s) (signaling s) (sent s) (statuses s) (received s).

Definition set_onMessageCallback (v : option nat) (s : state) : state :=
  mkState (connections s) (dataChannels s) (statusCallbacks s) v (myPublicKey s) (pcs s)
    (channels s) (pending s) (signaling s) (sent s) (statuses s) (received s).

Definition set_myPublicKey (v : string) (s : state) : state :=
  mkState (connections s) (dataChannels s) (statusCallbacks s) (onMessageCallback s) v
    (pcs s) (channels s) (pending s) (signaling s) (sent s) (statuses s) (received s).

Definition set_pcs (v : list PeerConnection) (s : state) : state :=
  mkState (connections s) (dataChannels s) (statusCallbacks s) (onMessageCallback s)
    (myPublicKey s) v (channels s) (pending s) (signaling s) (sent s) (statuses s)
    (received s).

Definition set_channels (v : list DataChannel) (s : state) : state :=
  mkState (connections s) (dataChannels s) (statusCallbacks s) (onMessageCallback s)
    (myPublicKey s) (pcs s) v (pending s) (signaling s) (sent s) (statuses s)
    (received s).

Definition set_pending (v : list task) (s : state) : state :=
  mkState (connections s) (dataChannels s) (statusCallbacks s) (onMessageCallback s)
    (myPublicKey s) (pcs s) (channels s) v (signaling s) (sent s) (statuses s)
    (received s).

Definition set_signaling (v : list SigCall) (s : state) : state :=
  mkState (connections s) (dataChannels s) (statusCallbacks s) (onMessageCallback s)
    (myPublicKey s) (pcs s) (channels s) (pending s) v (sent s) (statuses s)
    (received s).

Definition set_sent (v : list (nat * string)) (s : state) : state :=
  mkState (connections s) (dataChannels s) (statusCallbacks s) (onMessageCallback s)
    (myPublicKey s) (pcs s) (channels s) (pending s) (signaling s) v (statuses s)
    (received s).

Definition set_statuses (v : list (nat * P2PStatus)) (s : state) : state :=
  mkState (connections s) (dataChannels s) (statusCallbacks s) (onMessageCallback s)
    (myPublicKey s) (pcs s) (channels s) (pending s) (signaling s) (sent s) v
    (received s).

Definition set_received (v : list (nat * string * string)) (s : state) : state :=
  mkState (connections s) (dataChannels s) (statusCallbacks s) (onMessageCallback s)
    (myPublicKey s) (pcs s) (channels s) (pending s) (signaling s) (sent s) (statuses s)
    v.

Definition init_state : state := mkState [] [] [] None EmptyString [] [] [] [] [] [] [].

Definition channel_state (s : state) (ch : nat) : ChannelState :=
  match channels s !! ch with
  | Some c => dc_state c
  | None => ch_closed
  end.

Definition call (c : SigCall) (s : state) : state :=
  set_signaling (signaling s ++ [c]) s.

(** [this.statusCallbacks.get(peerKey)?.(status)] *)
Definition notify (peerKey : string) (status : P2PStatus) (s : state) : state :=
  match map_get peerKey (statusCallbacks s) with
  | Some cb => set_statuses (statuses s ++ [(cb, status)]) s
  | None => s
  end.

(** [dc.onopen = dc.onclose = dc.onmessage = dc.onerror = null; dc.close()] *)
Definition dc_release (c : DataChannel) : DataChannel :=
  Build_DataChannel (dc_owner c) (dc_label c)
    (match dc_state c with ch_closed => ch_closed | _ => ch_closing end) None.

(** [pc.onicecandidate = pc.oniceconnectionstatechange = pc.ondatachannel = null] *)
Definition pc_detach (p : PeerConnection) : PeerConnection :=
  Build_PeerConnection (pc_peer p) false (pc_closed p).

(** What [pc.close()] does to a channel of that connection: its
    [readyState] becomes closed at once, without a [close] event, and its
    handlers stay as they are. *)
Definition dc_abort (pc : nat) (c : DataChannel) : DataChannel :=
  if decide (dc_owner c = pc)
  then Build_DataChannel (dc_owner c) (dc_label c) ch_closed (dc_peer c)
  else c.

(** [pc.close()]: nothing on a connection that is closed already;
    otherwise the connection is closed together with every channel that was
    created on it or received through it. *)
Definition pc_close (pc : nat) (s : state) : state :=
  match pcs s !! pc with
  | Some p =>
      if pc_closed p then s
      else
        let s := set_pcs (alter (fun p => Build_PeerConnection (pc_peer p) (pc_handlers p) true)
                                pc (pcs s)) s in
        set_channels (dc_abort pc <$> channels s) s
  | None => s
  end.

(** The body of [this.connections.forEach] in [cleanup]. *)
Definition pc_release (pc : nat) (s : state) : state :=
  pc_close pc (set_pcs (alter pc_detach pc (pcs s)) s).

Definition cleanup (s : state) : state :=
  let s := set_channels
             (foldl (fun cs e => alter dc_release e.2 cs) (channels s) (dataChannels s)) s in
  let s := foldl (fun s e => pc_release e.2 s) s (connections s) in
  let s := set_dataChannels [] s in
  let s := set_connections [] s in
  let s := set_statusCallbacks [] s in
  call CallDisconnect s.

Definition init (publicKey : string) (onMessage : nat) (s : state) : state :=
  let s := cleanup s in
  let s := set_myPublicKey publicKey s in
  let s := set_onMessageCallback (Some onMessage) s in
  call (CallConnect publicKey) s.

(** Returns the state and the new negotiation object. *)
Definition createPeerConnection (peerKey : string) (s : state) : state * nat :=
  let pc := length (pcs s) in
  let s := set_pcs (pcs s ++ [Build_PeerConnection peerKey true false]) s in
  (set_connections (map_set peerKey pc (connections s)) s, pc).

Definition setupDataChannel (peerKey : string) (channel : nat) (s : state) : state :=
  let s := set_dataChannels (map_set peerKey channel (dataChannels s)) s in
  set_channels
    (alter (fun c => Build_DataChannel (dc_owner c) (dc_label c) (dc_state c) (Some peerKey))
           channel (channels s)) s.

(** A new channel object: [pc.createDataChannel(label)], which starts out
    connecting, or the channel carried by a [datachannel] event. *)
Definition new_channel (pc : nat) (label : string) (st : ChannelState) (s : state)
  : state * nat :=
  let channel := length (channels s) in
  (set_channels (channels s ++ [Build_DataChannel pc label st None]) s, channel).

Definition is_open (peerKey : string) (s : state) : bool :=
  match map_get peerKey (dataChannels s) with
  | Some channel =>
      match channel_state s channel with ch_open => true | _ => false end
  | None => false
  end.

(** The part of [connectToPeer] that runs before its first [await]; the
    rest is the task [AwaitOffer]. *)
Definition connectToPeer (peerKey : string) (s : state) : state :=
  if is_open peerKey s then s
  else
    let '(s, pc) := createPeerConnection peerKey s in
    let '(s, channel) := new_channel pc "chat" ch_connecting s in
    let s := setupDataChannel peerKey channel s in
    set_pending (pending s ++ [AwaitOffer peerKey pc]) s.

(** [channel.send(message)] throws when the platform cannot take the
    message: a message above the size limit of the channel, a full buffer.
    [outcome] is what the call does: [None] when the message is accepted, and
    otherwise the exception, which [sendMessage] does not catch. *)
Definition sendMessage (peerKey message : string) (outcome : option exn) (s : state)
  : completion bool * state :=
  match map_get peerKey (dataChannels s) with
  | Some channel =>
      match channel_state s channel with
      | ch_open =>
          match outcome with
          | None => (Normal true, set_sent (sent s ++ [(channel, message)]) s)
          | Some e => (Throw e, s)
          end
      | _ => (Normal false, s)
      end
  | None => (Normal false, s)
  end.

Definition onStatusChange (peerKey : string) (callback : nat) (s : state) : state :=
  set_statusCallbacks (map_set peerKey callback (statusCallbacks s)) s.

(** The part of [handleSignal] that runs before its first [await].  An
    answer or a candidate only feeds the negotiation object. *)
Definition handleSignal (signal : Signaling.SignalMessage) (s : state) : state :=
  let from := Signaling.sm_from signal in
  let '(s, pc) :=
    match map_get from (connections s) with
    | Some pc => (s, pc)
    | None => createPeerConnection from s
    end in
  match Signaling.sm_type signal with
  | Signaling.offer => set_pending (pending s ++ [AwaitAnswer from pc]) s
  | Signaling.answer | Signaling.candidate => s
  end.

(** A suspended call continues: with the description it awaited, after
    which it emits the signal, or with a rejection, after which
    [connectToPeer] rejects and [handleSignal] logs the error. *)
Definition resume (n : nat) (result : completion json) (s : state) : state :=
  match pending s !! n with
  | Some t =>
      let s := set_pending (delete n (pending s)) s in
      match t, result with
      | AwaitOffer peerKey _, Normal description =>
          call (CallSendSignal peerKey Signaling.offer description) s
      | AwaitAnswer from _, Normal description =>
          call (CallSendSignal from Signaling.answer description) s
      | _, Throw _ => s
      end
  | None => s
  end.

(** *** handlers installed on negotiation objects and channels *)

Definition onicecandidate (peerKey : string) (candidate : option json) (s : state) : state :=
  match candidate with
  | Some c => call (CallSendSignal peerKey Signaling.candidate c) s
  | None => s
  end.

Definition status_of_ice (i : IceState) : P2PStatus :=
  match i with
  | ice_checking => connecting
  | ice_connected | ice_completed => connected
  | _ => offline
  end.

Definition channel_onclose (peerKey : string) (s : state) : state :=
  let s := notify peerKey offline s in
  set_dataChannels (map_delete peerKey (dataChannels s)) s.

Definition channel_onmessage (peerKey data : string) (s : state) : state :=
  match onMessageCallback s with
  | Some cb => set_received (received s ++ [(cb, peerKey, data)]) s
  | None => s
  end.

Definition set_channel_state (ch : nat) (st : ChannelState) (s : state) : state :=
  set_channels
    (alter (fun c => Build_DataChannel (dc_owner c) (dc_label c) st (dc_peer c)) ch
           (channels s)) s.

Inductive event :=
| Init (publicKey : string) (onMessage : nat)
| Cleanup
| ConnectToPeer (peerKey : string)
| SendMessage (peerKey message : string) (outcome : option exn)
| OnStatusChange (peerKey : string) (callback : nat)
| HandleSignal (signal : Signaling.SignalMessage)
| Resume (n : nat) (result : completion json)
| IceCandidate (pc : nat) (candidate : option json)
| IceStateChange (pc : nat) (ice : IceState)
| RemoteChannel (pc : nat) (label : string) (st : ChannelState)
| ChannelOpen (ch : nat)
| ChannelClose (ch : nat)
| ChannelMessage (ch : nat) (data : string).

Definition step (e : event) (s : state) : state :=
  match e with
  | Init publicKey onMessage => init publicKey onMessage s
  | Cleanup => cleanup s
  | ConnectToPeer peerKey => connectToPeer peerKey s
  | SendMessage peerKey message outcome => (sendMessage peerKey message outcome s).2
  | OnStatusChange peerKey callback => onStatusChange peerKey callback s
  | HandleSignal signal => handleSignal signal s
  | Resume n result => resume n result s
  | IceCandidate pc candidate =>
      match pcs s !! pc with
      | Some (Build_PeerConnection peerKey true _) => onicecandidate peerKey candidate s
      | _ => s
      end
  | IceStateChange pc ice =>
      match pcs s !! pc with
      | Some (Build_PeerConnection peerKey true _) => notify peerKey (status_of_ice ice) s
      | _ => s
      end
  | RemoteChannel pc label st =>
      match pcs s !! pc with
      | Some (Build_PeerConnection peerKey true _) =>
          let '(s, channel) := new_channel pc label st s in
          setupDataChannel peerKey channel s
      | _ => s
      end
  | ChannelOpen ch =>
      match channels s !! ch with
      | Some (Build_DataChannel _ _ ch_connecting handlers)
      | Some (Build_DataChannel _ _ ch_open handlers) =>
          let s := set_channel_state ch ch_open s in
          match handlers with
          | Some peerKey => notify peerKey connected s
          | None => s
          end
      | _ => s
      end
  | ChannelClose ch =>
      match channels s !! ch with
      | Some (Build_DataChannel _ _ ch_closed _) | None => s
      | Some (Build_DataChannel _ _ _ handlers) =>
          let s := set_channel_state ch ch_closed s in
          match handlers with
          | Some peerKey => channel_onclose peerKey s
          | None => s
          end
      end
  | ChannelMessage ch data =>
      match channels s !! ch with
      | Some (Build_DataChannel _ _ ch_open (Some peerKey)) => channel_onmessage peerKey data s
      | _ => s
      end
  end.

Definition run (events : list event) (s : state) : state := foldl (flip step) s events.

(** The environment events are deliberately generous: a channel of a
    [datachannel] event may arrive in any state, and an [open] event may be
    delivered to a channel that is already open. *)

End WebRTC.

(** ** Vocabulary of the statements *)

Module CanonicalForm.
Import JS Crypto.

(** What a signature of a direct message is meant to cover.  The record has
    no place for the message [id], its [signature], its delivery [state] or
    the file content. *)
Definition semantic_fields (m : Message) :=
  (contactId m, sender m, content m, timestamp m,
   (fun f => (mf_name f, mf_type f, mf_size f)) <$> file m).

Definition group_semantic_fields (m : GroupMessage) :=
  (groupId m, senderKey m, gm_timestamp m, gm_type m, gm_content m,
   (fun f => (mf_name f, mf_type f, mf_size f)) <$> gm_file m,
   event m, poll m, pollVote m, groupUpdate m).

(** One member of a serialised object, for a value that is defined. *)
Definition member (kv : string * json) : string :=
  quote kv.1 ++ ":" ++ stringify_text kv.2.

(** The member of an optional sub-object: there when the sub-object is. *)
Definition optional {A} (key : string) (x : option A) (project : A -> json)
  : list (string * json) :=
  match x with
  | Some a => [(key, project a)]
  | None => []
  end.

Definition message_members (m : Message) : list (string * json) :=
  [("contactId", JNum (contactId m));
   ("sender", JStr (sender_text (sender m)));
   ("content", JStr (content m));
   ("timestamp", JNum (timestamp m))]
  ++ optional "file" (file m) file_projection.

Definition group_message_members (m : GroupMessage) : list (string * json) :=
  [("groupId", JStr (groupId m));
   ("senderKey", JStr (senderKey m));
   ("timestamp", JNum (gm_timestamp m));
   ("type", JStr (type_text (gm_type m)));
   ("content", JStr (gm_content m))]
  ++ optional "file" (gm_file m) file_projection
  ++ optional "event" (event m) event_projection
  ++ optional "poll" (poll m) poll_projection
  ++ optional "pollVote" (pollVote m) pollVote_projection
  ++ optional "groupUpdate" (groupUpdate m) groupUpdate_projection.

(** Replacing what is local to one party: identifier, signature, state. *)
Definition relabel (i : number) (sg : string) (st : DeliveryState) (m : Message) : Message :=
  Build_Message i (contactId m) (sender m) (content m) (file m) sg (timestamp m) st.

Definition group_relabel (i : number) (sg : string) (m : GroupMessage) : GroupMessage :=
  Build_GroupMessage i (groupId m) (senderKey m) (gm_timestamp m) sg (gm_type m)
    (gm_content m) (gm_file m) (poll m) (event m) (pollVote m) (groupUpdate m).

Definition example_message : Message :=
  Build_Message 7 1700000000000 you "hi" None "00" 1700000000123 sending.

Definition example_file_message : Message :=
  Build_Message 8 1700000000000 you "doc"
    (Some (Build_MessageFile "a.txt" "text/plain" 12 "QUJD")) "3045" 1700000000456 sent.

End CanonicalForm.

Module SignalingTerms.
Import JS Signaling.

(** What the caller of [sendSignal] submits. *)
Definition payload (m : SignalMessage) : string * SignalType * json :=
  (sm_to m, sm_type m, sm_data m).

(** The envelopes submitted by the calls of [sendSignal] among some events,
    in order. *)
Fixpoint submitted (events : list event) : list (string * SignalType * json) :=
  match events with
  | [] => []
  | SendSignal to type data :: rest => (to, type, data) :: submitted rest
  | _ :: rest => submitted rest
  end.

(** The envelope [sendSignal] builds for a queued message when it is sent
    again: same recipient, type and data, under the identity and the room of
    the moment. *)
Definition stamp (key room : string) (m : SignalMessage) : SignalMessage :=
  Build_SignalMessage (sm_type m) key (sm_to m) (sm_data m) room.

(** From [s] to [s'] the frames handed to the socket were only added to,
    and every added frame and every queued message carries a payload found
    in [sources]. *)
Definition traceable (sources : list (string * SignalType * json)) (s s' : state) : Prop :=
  (exists new, wire s' = (wire s ++ new)%list /\ forall f, f ∈ new -> payload f.2 ∈ sources)
  /\ forall m, m ∈ signalQueue s' -> payload m ∈ sources.

(** The connection is not open: there is no socket, or the socket is in
    another state than [OPEN]. *)
Definition not_open (s : state) : Prop :=
  forall sid, socket s = Some sid -> ready_of s sid <> OPEN.

(** Events during which the connection cannot open and the queue is not
    cleared: no [open] event, no [disconnect], no change of relay, and no
    [connect] with an empty identity. *)
Definition waiting (e : event) : bool :=
  match e with
  | SocketOpen _ | Disconnect | SetRelayUrl _ => false
  | Connect publicKey _ => truthy (Some publicKey)
  | _ => true
  end.

Definition is_connect (e : event) : bool :=
  match e with
  | Connect _ _ => true
  | _ => false
  end.


(** What holds of the service in every state it can reach: the current
    socket exists; only the current socket still has the service's handlers;
    the only timeout that can be pending is the one [reconnectTimeout] names;
    and once a socket exists the identity and the handler are set. *)
Record wf (s : state) : Prop := {
  wf_socket : forall sid, socket s = Some sid -> (sid < length (sockets s))%nat;
  wf_live : forall sid ws,
    sockets s !! sid = Some ws -> ws_handlers ws = true -> socket s = Some sid;
  wf_timers : forall p, p ∈ timers s -> reconnectTimeout s = Some p.1;
  wf_identity :
    sockets s <> [] -> is_Some (myPublicKey s) /\ is_Some (onSignalCallback s) }.

(** A browser for running examples: every address is accepted and names no
    room; the only frame that parses is the text [hello], an offer from
    [peer] to [me]. *)
Definition any_url (_ : string) : bool := true.

Definition no_room (_ : string) : completion (option string) := Normal None.

Definition parse_example (data : string) : completion json :=
  if String.eqb data "hello"
  then Normal (JObj [("type", JStr "offer"); ("from", JStr "peer"); ("to", JStr "me");
                     ("data", JNull)])
  else Throw (OtherError "SyntaxError").


Definition example_run : list event -> state -> state :=
  run any_url no_room parse_example.

Definition example_step : event -> state -> state :=
  step any_url no_room parse_example.

End SignalingTerms.

(** ** cryptoService, continued: fingerprints; helpers: [truncateKey] *)

Module Fingerprint.
Import JS Crypto.

Section Platform.

(** [crypto.subtle.digest('SHA-256', bytes)] and [String.prototype.toUpperCase]. *)
Variable SHA256 : list Z -> list Z.
Variable toUpperCase : string -> string.

Definition generateFingerprint (publicKeyHex : string) : string :=
  let publicKeyBuffer := textEncoder_encode publicKeyHex in
  let hashBuffer := SHA256 publicKeyBuffer in
  toUpperCase (substring 0 16 (bufferToHex hashBuffer)).

End Platform.

(** What [toUpperCase] does to a code unit below 128. *)
Definition ascii_upper (c : ascii) : ascii :=
  let n := N_of_ascii c in
  if ((97 <=? n) && (n <=? 122))%N then ascii_of_N (n - 32) else c.

Fixpoint string_map (f : ascii -> ascii) (s : string) : string :=
  match s with
  | EmptyString => EmptyString
  | String c rest => String (f c) (string_map f rest)
  end.

Fixpoint string_forall (p : ascii -> bool) (s : string) : bool :=
  match s with
  | EmptyString => true
  | String c rest => p c && string_forall p rest
  end.

Definition is_ascii (c : ascii) : bool := (N_of_ascii c <? 128)%N.

Definition is_lower_hex (c : ascii) : bool :=
  let n := N_of_ascii c in
  ((48 <=? n) && (n <=? 57) || (97 <=? n) && (n <=? 102))%N.

Definition is_upper_hex (c : ascii) : bool :=
  let n := N_of_ascii c in
  ((48 <=? n) && (n <=? 57) || (65 <=? n) && (n <=? 70))%N.

Definition is_byte (b : Z) : Prop := 0 <= b < 256.

(** A stand-in digest for running examples: 32 bytes counting up from the
    length of the input. *)
Definition toy_digest (bytes : list Z) : list Z :=
  (fun i => (Z.of_nat (length bytes) + Z.of_nat i) mod 256) <$> seq 0 32.

End Fingerprint.

Module Helpers.

(** [truncateKey(key, start = 12, end = 8)]; [None] is [null] or
    [undefined]. *)
Definition truncateKey (key : option string) (start end_ : nat) : string :=
  match key with
  | None | Some EmptyString => EmptyString
  | Some key =>
      if (String.length key <=? start + end_)%nat then key
      else substring 0 start key ++ "..."
             ++ substring (String.length key - end_) (String.length key) key
  end.

End Helpers.

(** ** App: contacts and incoming messages *)

Module App.
Import JS Crypto.

Record Contact := {
  c_id : Z;
  c_publicKey : string;
  c_nickname : string;
  c_addedAt : string }.

(** [localStorage] as the code reads it: the contact list under
    [secureChat_contacts], one message history per [messages_<id>] (a missing
    entry reads as the empty history), and the [newP2PMessage] events
    dispatched so far, each with its contact id.  A history is the list of
    the messages it was written from; what reading it gives back is
    [read_back]. *)
Record storage := {
  contacts : list Contact;
  messages : Z -> list Message;
  notified : list Z }.

(** [{ ...incomingMsg, sender: 'them', state: 'received' }] *)
Definition received_copy (m : Message) : Message :=
  Build_Message (id m) (contactId m) them (content m) (file m) (signature m)
    (timestamp m) received.

(** A number of a stored message as [JSON.parse] gives it back:
    [JSON.stringify] has written a number that is not finite as [null]. *)
Definition read_back (n : number) : json :=
  if is_finite n then JNum n else JNull.

(** [a === b] where neither side is an object: [NaN] equals nothing, and
    values of different types are different. *)
Definition strict_equal (a b : json) : bool :=
  match a, b with
  | JUndefined, JUndefined | JNull, JNull => true
  | JBool x, JBool y => Bool.eqb x y
  | JNum (Int x), JNum (Int y) => x =? y
  | JNum PosInfinity, JNum PosInfinity | JNum NegInfinity, JNum NegInfinity => true
  | JStr x, JStr y => String.eqb x y
  | _, _ => false
  end.

(** [m.timestamp] for a message [m] of a history that was read from
    storage. *)
Definition stored_timestamp (m : Message) : json := read_back (timestamp m).

(** [m.timestamp === incomingMsg.timestamp] for such a message. *)
Definition same_timestamp (incomingMsg m : Message) : bool :=
  strict_equal (stored_timestamp m) (JNum (timestamp incomingMsg)).

Definition store (contact : Z) (history : list Message) (st : storage) : storage :=
  Build_storage (contacts st)
    (fun k => if decide (k = contact) then history else messages st k)
    (notified st ++ [contact]).

Section Incoming.

Variable CryptoKey : Type.
Variable importKey_spki : list Z -> completion CryptoKey.
Variable subtle_verify : CryptoKey -> list Z -> list Z -> completion bool.
(** [JSON.parse(payloadStr) as Message], for a payload that has the fields
    of a [Message]; its numbers are whatever [JSON.parse] reads, [Infinity]
    included. *)
Variable parse_message : string -> completion Message.

(** The body of the [try] of [handleIncomingMessage].  The contact list is
    read when the call starts ([known]); the history is read, and written,
    after [verify] has completed ([st]). *)
Definition incoming (fromKey payloadStr : string) (known : list Contact) (st : storage)
  : completion storage :=
  await incomingMsg := parse_message payloadStr in
  match find (fun c => bool_decide (c_publicKey c = fromKey)) known with
  | Some sender =>
      await isValid := verify CryptoKey importKey_spki subtle_verify incomingMsg fromKey in
      if isValid then
        let history := messages st (c_id sender) in
        if existsb (same_timestamp incomingMsg) history then Normal st
        else Normal (store (c_id sender) (history ++ [received_copy incomingMsg]) st)
      else Normal st
  | None => Normal st
  end.

Definition handleIncomingMessage (fromKey payloadStr : string) (known : list Contact)
    (st : storage) : storage :=
  match try_catch (incoming fromKey payloadStr known st) (fun _ => Normal st) with
  | Normal st' => st'
  | Throw _ => st
  end.

End Incoming.


(** *** contact list *)

Fixpoint trim_end (s : string) : string :=
  match s with
  | EmptyString => EmptyString
  | String c rest =>
      match trim_end rest with
      | EmptyString => if is_space c then EmptyString else String c EmptyString
      | kept => String c kept
      end
  end.

(** [s.trim()] *)
Definition trim (s : string) : string := trim_end (trim_start s).

Definition new_contact (now : Z) (iso : string) (key : string) (contacts : list Contact)
  : Contact :=
  Build_Contact now key ("Contact #" ++ number_to_string (Z.of_nat (length contacts) + 1)) iso.

(** ChatHomePage, [addContact]: [now] is [Date.now()], [iso] is
    [new Date().toISOString()]. *)
Definition addContact (now : Z) (iso : string) (newContactKey : string)
    (contacts : list Contact) : list Contact :=
  match trim newContactKey with
  | EmptyString => contacts
  | key => contacts ++ [new_contact now iso key contacts]
  end.

Definition removeContact (id : Z) (contacts : list Contact) : list Contact :=
  filter (fun c => c_id c <> id) contacts.

(** QrExchangePage, [handleAddContact]. *)
Definition handleAddContact (now : Z) (iso : string) (scannedKey : string)
    (contacts : list Contact) : list Contact :=
  if existsb (fun contact => bool_decide (c_publicKey contact = scannedKey)) contacts
  then contacts
  else contacts ++ [new_contact now iso scannedKey contacts].

End App.

(** ** Reading a canonical text back *)

Module Reading.
Import JS.

(** The code unit that [quote_char] wrote at the head of a text, and the
    rest of the text; nothing for a text that starts with the closing quote
    or with no escape [quote_char] writes. *)
Definition unquote_char (s : string) : option (ascii * string) :=
  match s with
  | String c rest =>
      if (N_of_ascii c =? 92)%N then
        match rest with
        | String e rest =>
            let k := N_of_ascii e in
            if (k =? 34)%N then Some (ascii_of_N 34, rest)
            else if (k =? 92)%N then Some (ascii_of_N 92, rest)
            else if (k =? 98)%N then Some (ascii_of_N 8, rest)
            else if (k =? 102)%N then Some (ascii_of_N 12, rest)
            else if (k =? 110)%N then Some (ascii_of_N 10, rest)
            else if (k =? 114)%N then Some (ascii_of_N 13, rest)
            else if (k =? 116)%N then Some (ascii_of_N 9, rest)
            else if (k =? 117)%N then
              match rest with
              | String _ (String _ (String h (String l rest))) =>
                  match Crypto.hex_value h, Crypto.hex_value l with
                  | Some a, Some b => Some (ascii_of_N (Z.to_N (16 * a + b)), rest)
                  | _, _ => None
                  end
              | _ => None
              end
            else None
        | EmptyString => None
        end
      else if (N_of_ascii c =? 34)%N then None
      else Some (c, rest)
  | EmptyString => None
  end.

(** The characters of a printed integer. *)
Definition is_numeric (c : ascii) : bool :=
  let n := N_of_ascii c in
  ((n =? 45) || (48 <=? n) && (n <=? 57))%N.

(** What [getCanonicalMessagePayload] writes after the timestamp. *)
Definition file_text (f : option Crypto.MessageFile) : string :=
  match f with
  | None => "}"
  | Some f =>
      String "," (quote "file" ++ ":{" ++ quote "name" ++ ":" ++ quote (Crypto.mf_name f)
        ++ String "," (quote "type" ++ ":" ++ quote (Crypto.mf_type f)
        ++ String "," (quote "size" ++ ":" ++ stringify_number (Crypto.mf_size f) ++ "}}")))
  end.

(** An integer that a double holds exactly and that is printed digit by
    digit: what [Date.now()], a file size or an index is. *)
Definition is_safe (n : number) : bool :=
  match n with
  | Int z => Z.abs z <=? 2 ^ 53
  | _ => false
  end.

(** A message whose numbers in the signed fields are such integers. *)
Definition exact (m : Crypto.Message) : Prop :=
  is_safe (Crypto.contactId m) = true /\ is_safe (Crypto.timestamp m) = true
  /\ forall f, Crypto.file m = Some f -> is_safe (Crypto.mf_size f) = true.

Definition retime (t : number) (m : Crypto.Message) : Crypto.Message :=
  Crypto.Build_Message (Crypto.id m) (Crypto.contactId m) (Crypto.sender m) (Crypto.content m)
    (Crypto.file m) (Crypto.signature m) t (Crypto.state m).

End Reading.

(** ** signaling-server: rooms and fan-out *)

Module Relay.
Import JS.

(** A key of the [rooms] map: what [data.room || 'main'] evaluates to.
    Strings, numbers and [true] are compared by value; an object or array is
    a key of its own, named here by the number of the message that carried
    it. *)
Inductive room_key :=
| RoomName (name : string)
| RoomNumber (n : number)
| RoomTrue
| RoomObject (serial : nat).

Global Instance room_key_eq_dec : EqDecision room_key.
Proof. solve_decision. Defined.

(** A connection of the server: [readyState] as in [Signaling]. *)
Record state := {
  rooms : list (room_key * list nat);
  clients : list Signaling.ReadyState;
  outbox : list (nat * string);
  serial : nat }.

Definition init : state := Build_state [] [] [] 0.

(** [data.room || 'main'] *)
Definition room_of (room : json) (serial : nat) : room_key :=
  match room with
  | JStr (String c rest) => RoomName (String c rest)
  | JNum (Int 0) | JNum NaN => RoomName "main"
  | JNum n => RoomNumber n
  | JBool true => RoomTrue
  | JArr _ | JObj _ => RoomObject serial
  | _ => RoomName "main"
  end.

Fixpoint members (room : room_key) (rooms : list (room_key * list nat)) : option (list nat) :=
  match rooms with
  | [] => None
  | (r, set) :: rest => if decide (room = r) then Some set else members room rest
  end.

(** [if (!rooms.has(room)) rooms.set(room, new Set()); rooms.get(room).add(ws)] *)
Fixpoint join_room (room : room_key) (ws : nat) (rooms : list (room_key * list nat))
  : list (room_key * list nat) :=
  match rooms with
  | [] => [(room, [ws])]
  | (r, set) :: rest =>
      if decide (room = r)
      then (r, if decide (ws ∈ set) then set else (set ++ [ws])%list) :: rest
      else (r, set) :: join_room room ws rest
  end.

Definition is_open (s : state) (client : nat) : bool :=
  match clients s !! client with
  | Some Signaling.OPEN => true
  | _ => false
  end.

Section Server.

Variable JSON_parse : string -> completion json.

(** The body of the [try] of the [message] handler up to the end of the
    loop; what follows only writes to the log. *)
Definition relay (ws : nat) (msg : string) (s : state) : completion state :=
  await data := JSON_parse msg in
  await room_value := Signaling.get data "room" in
  let room := room_of room_value (serial s) in
  let rooms' := join_room room ws (rooms s) in
  let recipients :=
    filter (fun client => client <> ws /\ is_open s client = true)
           (default [] (members room rooms')) in
  Normal (Build_state rooms' (clients s)
            (outbox s ++ ((fun client => (client, Crypto.stringify_text data)) <$> recipients))%list
            (S (serial s))).

Definition on_message (ws : nat) (msg : string) (s : state) : state :=
  match try_catch (relay ws msg s) (fun _ => Normal s) with
  | Normal s' => s'
  | Throw _ => s
  end.

(** The [close] handler: the client leaves every room, and rooms left
    without a client are removed. *)
Definition on_close (ws : nat) (s : state) : state :=
  Build_state
    (filter (fun entry => entry.2 <> [])
            ((fun entry => (entry.1, filter (fun client => client <> ws) entry.2)) <$> rooms s))
    (clients s) (outbox s) (serial s).

Inductive event :=
| Connection
| Message (ws : nat) (msg : string)
| Closing (ws : nat)
| Close (ws : nat).

Definition set_client (ws : nat) (r : Signaling.ReadyState) (s : state) : state :=
  Build_state (rooms s) (<[ws := r]> (clients s)) (outbox s) (serial s).

Definition step (e : event) (s : state) : state :=
  match e with
  | Connection =>
      Build_state (rooms s) (clients s ++ [Signaling.OPEN])%list (outbox s) (serial s)
  | Message ws msg =>
      match clients s !! ws with
      | Some Signaling.OPEN | Some Signaling.CLOSING => on_message ws msg s
      | _ => s
      end
  | Closing ws =>
      match clients s !! ws with
      | Some Signaling.OPEN => set_client ws Signaling.CLOSING s
      | _ => s
      end
  | Close ws =>
      match clients s !! ws with
      | Some Signaling.CLOSED | None => s
      | Some _ => on_close ws (set_client ws Signaling.CLOSED s)
      end
  end.

Definition run (events : list event) (s : state) : state := foldl (flip step) s events.

(** The clients that have sent a frame the server could read. *)
Fixpoint senders (events : list event) : list nat :=
  match events with
  | [] => []
  | Message ws msg :: rest =>
      match JSON_parse msg with
      | Normal _ => ws :: senders rest
      | Throw _ => senders rest
      end
  | _ :: rest => senders rest
  end.

End Server.

End Relay.

(** Vocabulary for the relay's reachable states. *)
Module RelayTerms.
Import Relay.

(** A connection that has not emitted [close]. *)
Definition live (s : state) (client : nat) : Prop :=
  exists r, clients s !! client = Some r /\ r <> Signaling.CLOSED.

Record wf (s : state) : Prop := {
  wf_keys : NoDup (rooms s).*1;
  wf_nonempty : Forall (fun entry => entry.2 <> []) (rooms s);
  wf_sets : Forall (fun entry => NoDup entry.2) (rooms s);
  wf_live : Forall (fun entry => Forall (live s) entry.2) (rooms s) }.

(** What a message handler run appended to the outbox. *)
Definition sent_by (before after : state) : list (nat * string) :=
  drop (length (outbox before)) (outbox after).

Definition toy_parse (msg : string) : JS.completion JS.json :=
  if String.eqb msg "null" then JS.Normal JS.JNull
  else if String.eqb msg "oops" then JS.Throw (JS.OtherError "SyntaxError")
  else JS.Normal (JS.JObj [("type", JS.JStr "offer"); ("room", JS.JStr msg)]).

End RelayTerms.

(** Vocabulary for what the signaling client sends. *)
Module FrameTerms.
Import Signaling.

(** A frame names its sender and its room. *)
Definition stamped (m : SignalMessage) : Prop :=
  sm_from m <> EmptyString /\ sm_room m <> EmptyString.

(** Calls that may start a connection attempt. *)
Definition starts_connection (e : event) : bool :=
  match e with
  | Connect _ _ | SendSignal _ _ _ | SetRelayUrl _ => true
  | _ => false
  end.

(** The service's room is named, and so is every queued and every
    transmitted frame. *)
Definition labelled (s : state) : Prop :=
  currentRoom s <> EmptyString /\ Forall stamped (signalQueue s)
  /\ Forall (fun f => stamped f.2) (wire s).

End FrameTerms.

(** Vocabulary for the objects the connection manager keeps. *)
Module SessionTerms.
Import WebRTC.

(** Every registered negotiation object was created for the key it is
    registered under, still has its handlers and is not closed. *)
Definition registered_live (s : state) : Prop :=
  forall k pc, (k, pc) ∈ connections s ->
    pcs s !! pc = Some (Build_PeerConnection k true false).

(** A channel that calls nothing any more and takes nothing any more: it
    has no handlers and is closing or closed. *)
Definition silent (c : DataChannel) : Prop :=
  dc_peer c = None /\ (dc_state c = ch_closing \/ dc_state c = ch_closed).

(** A negotiation object after [cleanup]: without handlers, closed. *)
Definition released (p : PeerConnection) : PeerConnection :=
  Build_PeerConnection (pc_peer p) false true.

End SessionTerms.

(** * Properties *)

(** ** Canonical payloads *)

Module CanonicalFacts.
Import JS Crypto CanonicalForm.

Lemma stringify_object props :
  stringify (JObj props)
  = Some (braces (omap (fun kv => property (kv.1, stringify kv.2)) props)).
Proof. reflexivity. Qed.

Lemma file_projection_defined f : is_Some (stringify (file_projection f)).
Proof. unfold file_projection. rewrite stringify_object. eauto. Qed.

Lemma message_payload_members m :
  getCanonicalMessagePayload m = braces (member <$> message_members m).
Proof. destruct m as [? ? ? ? [f|] ? ? ?]; reflexivity. Qed.

Lemma group_message_payload_members m :
  getCanonicalGroupMessagePayload m = braces (member <$> group_message_members m).
Proof.
  destruct m as [? ? ? ? ? ? ? [f|] [p|] [e|] [v|] [u|]]; reflexivity.
Qed.

(** A key of an optional sub-object occurs among the members exactly when
    the sub-object is there. *)
Lemma optional_keys m :
  ("file" ∈ (message_members m).*1 <-> is_Some (file m)).
Proof.
  unfold message_members. destruct (file m); simpl.
  - split; [by eauto|]. intros _. do 4 right. by left.
  - split; [|by intros [? ?]]. intros H.
    repeat (apply elem_of_cons in H as [H|H]; [discriminate H|]). by apply elem_of_nil in H.
Qed.

Lemma group_optional_keys m :
  ("file" ∈ (group_message_members m).*1 <-> is_Some (gm_file m))
  /\ ("event" ∈ (group_message_members m).*1 <-> is_Some (event m))
  /\ ("poll" ∈ (group_message_members m).*1 <-> is_Some (poll m))
  /\ ("pollVote" ∈ (group_message_members m).*1 <-> is_Some (pollVote m))
  /\ ("groupUpdate" ∈ (group_message_members m).*1 <-> is_Some (groupUpdate m)).
Proof.
  unfold group_message_members.
  destruct (gm_file m), (event m), (poll m), (pollVote m), (groupUpdate m); simpl;
    split_and!; (split; [intros H|intros [? ?]]); try done; try by eauto.
  all: first [ by repeat first [ by left | right ]
             | exfalso;
               repeat (apply elem_of_cons in H as [H|H]; [discriminate H|]);
               by apply elem_of_nil in H ].
Qed.

Lemma message_payload_semantic m n :
  semantic_fields m = semantic_fields n ->
  getCanonicalMessagePayload m = getCanonicalMessagePayload n.
Proof.
  rewrite !message_payload_members. unfold semantic_fields, message_members.
  intros H. injection H as Hc Hs Ht Hts Hf. rewrite Hc, Hs, Ht, Hts.
  destruct (file m) as [f|], (file n) as [g|]; simplify_eq/=; try done.
  unfold file_projection. by repeat match goal with H : _ = _ |- _ => rewrite H; clear H end.
Qed.

Lemma group_message_payload_semantic m n :
  group_semantic_fields m = group_semantic_fields n ->
  getCanonicalGroupMessagePayload m = getCanonicalGroupMessagePayload n.
Proof.
  rewrite !group_message_payload_members.
  unfold group_semantic_fields, group_message_members.
  intros H. injection H as Hg Hk Ht Hty Hc Hf He Hp Hv Hu.
  rewrite Hg, Hk, Ht, Hty, Hc, He, Hp, Hv, Hu.
  destruct (gm_file m) as [f|], (gm_file n) as [g|]; simplify_eq/=; try done.
  unfold file_projection. by repeat match goal with H : _ = _ |- _ => rewrite H; clear H end.
Qed.

Lemma relabel_semantic i sg st m : semantic_fields (relabel i sg st m) = semantic_fields m.
Proof. reflexivity. Qed.

Lemma group_relabel_semantic i sg m :
  group_semantic_fields (group_relabel i sg m) = group_semantic_fields m.
Proof. reflexivity. Qed.

(** The file content travels with the message but is not signed. *)
Lemma file_data_not_signed m f data :
  file m = Some f ->
  getCanonicalMessagePayload
    (Build_Message (id m) (contactId m) (sender m) (content m)
       (Some (Build_MessageFile (mf_name f) (mf_type f) (mf_size f) data))
       (signature m) (timestamp m) (state m))
  = getCanonicalMessagePayload m.
Proof. intros Hf. apply message_payload_semantic. unfold semantic_fields. by rewrite Hf. Qed.

Example canonical_without_file :
  getCanonicalMessagePayload example_message
  = braces [quote "contactId" ++ ":1700000000000";
            quote "sender" ++ ":" ++ quote "you";
            quote "content" ++ ":" ++ quote "hi";
            quote "timestamp" ++ ":1700000000123"].
Proof. reflexivity. Qed.

(** C1.  The text that [sign] and [verify] hash is a function of the
    semantic fields alone: two messages (direct or group) with the same
    semantic fields give the same bytes, so in particular the identifier, the
    signature and the delivery state can be replaced at will; and the text is
    the brace-enclosed list of the fixed members followed by one member for
    each optional sub-object that is present, nothing standing in for an
    absent one. *)
Theorem canonical_projection :
  (forall m n, semantic_fields m = semantic_fields n ->
     textEncoder_encode (getCanonicalMessagePayload m)
     = textEncoder_encode (getCanonicalMessagePayload n))
  /\ (forall m n, group_semantic_fields m = group_semantic_fields n ->
     textEncoder_encode (getCanonicalGroupMessagePayload m)
     = textEncoder_encode (getCanonicalGroupMessagePayload n))
  /\ (forall i sg st m,
     getCanonicalMessagePayload (relabel i sg st m) = getCanonicalMessagePayload m)
  /\ (forall i sg m,
     getCanonicalGroupMessagePayload (group_relabel i sg m)
     = getCanonicalGroupMessagePayload m)
  /\ (forall m, getCanonicalMessagePayload m = braces (member <$> message_members m))
  /\ (forall m,
     getCanonicalGroupMessagePayload m = braces (member <$> group_message_members m)).
Proof.
  split_and!.
  - intros m n H. f_equal. by apply message_payload_semantic.
  - intros m n H. f_equal. by apply group_message_payload_semantic.
  - intros. apply message_payload_semantic, relabel_semantic.
  - intros. apply group_message_payload_semantic, group_relabel_semantic.
  - apply message_payload_members.
  - apply group_message_payload_members.
Qed.

Lemma canonical_projection_witness :
  semantic_fields example_file_message
  = semantic_fields
      (Build_Message 99 1700000000000 you "doc"
         (Some (Build_MessageFile "a.txt" "text/plain" 12 "other bytes")) "ff"
         1700000000456 failed)
  /\ textEncoder_encode (getCanonicalMessagePayload example_file_message)
     = textEncoder_encode
         (getCanonicalMessagePayload
            (Build_Message 99 1700000000000 you "doc"
               (Some (Build_MessageFile "a.txt" "text/plain" 12 "other bytes")) "ff"
               1700000000456 failed)).
Proof.
  split; [reflexivity|].
  apply (proj1 canonical_projection). reflexivity.
Defined.

End CanonicalFacts.

(** ** Verification *)

Module VerifyFacts.
Import JS Crypto.

Section WebCrypto.

Variable CryptoKey : Type.
Variable importKey_spki : list Z -> completion CryptoKey.
Variable subtle_verify : CryptoKey -> list Z -> list Z -> completion bool.

Local Abbreviation verify := (verify CryptoKey importKey_spki subtle_verify).
Local Abbreviation verifyGroupMessage := (verifyGroupMessage CryptoKey importKey_spki subtle_verify).

Lemma try_catch_false (body : completion bool) :
  exists b, try_catch body (fun _ => Normal false) = Normal b.
Proof. destruct body; simpl; eauto. Qed.

Lemma try_catch_true (body : completion bool) :
  try_catch body (fun _ => Normal false) = Normal true -> body = Normal true.
Proof. destruct body; simpl; congruence. Qed.

Lemma verify_rejected_key message publicKeyHex e :
  importKey_spki (hexToBuffer publicKeyHex) = Throw e ->
  verify message publicKeyHex = Normal false.
Proof. intros H. unfold Crypto.verify, importPublicKey. by rewrite H. Qed.

Lemma verify_check_throws message publicKeyHex key e :
  importKey_spki (hexToBuffer publicKeyHex) = Normal key ->
  subtle_verify key (hexToBuffer (signature message))
    (textEncoder_encode (getCanonicalMessagePayload message)) = Throw e ->
  verify message publicKeyHex = Normal false.
Proof. intros H1 H2. unfold Crypto.verify, importPublicKey, bind. by rewrite H1, H2. Qed.

(** C2.  [verify] and [verifyGroupMessage] always complete normally with a
    boolean, whatever the message, the key text and the behaviour of the
    cryptographic primitives; and the boolean is [true] only when the key was
    imported and the signature check itself completed with [true], so that
    every rejected key and every failing check yields [false]. *)
Theorem verify_never_throws :
  (forall message publicKeyHex,
     (exists b, verify message publicKeyHex = Normal b)
     /\ (verify message publicKeyHex = Normal true ->
         exists key,
           importKey_spki (hexToBuffer publicKeyHex) = Normal key
           /\ subtle_verify key (hexToBuffer (signature message))
                (textEncoder_encode (getCanonicalMessagePayload message))
              = Normal true))
  /\ (forall message,
     (exists b, verifyGroupMessage message = Normal b)
     /\ (verifyGroupMessage message = Normal true ->
         exists key,
           importKey_spki (hexToBuffer (senderKey message)) = Normal key
           /\ subtle_verify key (hexToBuffer (gm_signature message))
                (textEncoder_encode (getCanonicalGroupMessagePayload message))
              = Normal true)).
Proof.
  split; intros; (split; [apply try_catch_false|]).
  - intros H%try_catch_true. unfold importPublicKey in H.
    destruct (importKey_spki _) as [key|]; simpl in H; [|done].
    exists key. split; [done|].
    destruct (subtle_verify _ _ _) as [b|]; simpl in H; congruence.
  - intros H%try_catch_true. unfold importPublicKey in H.
    destruct (importKey_spki _) as [key|]; simpl in H; [|done].
    exists key. split; [done|].
    destruct (subtle_verify _ _ _) as [b|]; simpl in H; congruence.
Qed.

End WebCrypto.

(** Malformed and empty inputs against primitives that reject an empty key
    buffer and accept nothing else either. *)
Example verify_empty_inputs :
  Crypto.verify unit (fun buf => match buf with [] => Throw DataError | _ => Normal tt end)
    (fun _ _ _ => Normal false)
    (Build_Message 0 0 them EmptyString None EmptyString 0 received) EmptyString
  = Normal false
  /\ Crypto.verify unit (fun _ => Normal tt) (fun _ _ _ => Throw OperationError)
      (Build_Message 0 0 them "x" None "zz-not-hex" 0 received) "30zz"
    = Normal false.
Proof. split; reflexivity. Qed.

Lemma verify_never_throws_witness :
  Crypto.verify unit (fun _ => Normal tt) (fun _ _ _ => Normal true)
    CanonicalForm.example_message "3059" = Normal true
  /\ exists key : unit,
      (fun _ : list Z => Normal tt) (hexToBuffer "3059") = Normal key
      /\ (fun _ _ _ => Normal true) key
           (hexToBuffer (signature CanonicalForm.example_message))
           (textEncoder_encode (getCanonicalMessagePayload CanonicalForm.example_message))
         = Normal true.
Proof.
  split; [reflexivity|].
  apply (proj2 (proj1 (verify_never_throws unit (fun _ => Normal tt)
                         (fun _ _ _ => Normal true))
                  CanonicalForm.example_message "3059")).
  reflexivity.
Defined.

End VerifyFacts.

(** ** The signaling client *)

Module SignalingFacts.
Import JS Signaling SignalingTerms.
Local Open Scope list_scope.

Section Browser.

Variable valid_url : string -> bool.
Variable room_param : string -> completion (option string).
Variable JSON_parse : string -> completion json.

Local Abbreviation connect := (connect valid_url).
Local Abbreviation sendSignal := (sendSignal valid_url).
Local Abbreviation flushQueue := (flushQueue valid_url).
Local Abbreviation reconnect := (reconnect valid_url).
Local Abbreviation setRelayUrl := (setRelayUrl valid_url room_param).
Local Abbreviation onopen := (onopen valid_url).
Local Abbreviation onmessage := (onmessage JSON_parse).
Local Abbreviation step := (step valid_url room_param JSON_parse).
Local Abbreviation run := (run valid_url room_param JSON_parse).

Lemma run_app events later s : run (events ++ later) s = run later (run events s).
Proof. apply foldl_app. Qed.

Lemma run_cons e events s : run (e :: events) s = run events (step e s).
Proof. reflexivity. Qed.

(** *** what holds in every reachable state *)

Lemma wf_init stored : wf (init stored).
Proof. split; simpl; intros; try done. by apply elem_of_nil in H. Qed.

Lemma lookup_release s sid :
  sockets (release_socket s) !! sid
  = if decide (socket s = Some sid)
    then (fun ws => ws_close (ws_detach ws)) <$> sockets s !! sid
    else sockets s !! sid.
Proof.
  unfold release_socket. destruct (socket s) as [cur|] eqn:Hcur.
  - case_decide as Hd; simpl.
    + simplify_eq. apply list_lookup_alter_eq.
    + apply list_lookup_alter_ne. congruence.
  - by case_decide.
Qed.

Lemma length_release s : length (sockets (release_socket s)) = length (sockets s).
Proof. unfold release_socket. destruct (socket s); simpl; [apply length_alter|done]. Qed.

Lemma ws_close_handlers ws : ws_handlers (ws_close ws) = ws_handlers ws.
Proof. unfold ws_close. by destruct (readyState ws). Qed.

Lemma release_not_live s sid ws :
  wf s -> sockets (release_socket s) !! sid = Some ws -> ws_handlers ws = false.
Proof.
  intros Hwf. rewrite lookup_release. case_decide as Hcur.
  - destruct (sockets s !! sid); simpl; [|done]. intros [= <-]. by rewrite ws_close_handlers.
  - intros Hws. destruct (ws_handlers ws) eqn:Hh; [|done].
    destruct Hcur. by eapply wf_live.
Qed.

Lemma release_fields s :
  let s' := release_socket s in
  socket s' = socket s /\ myPublicKey s' = myPublicKey s
  /\ onSignalCallback s' = onSignalCallback s /\ timers s' = timers s
  /\ reconnectTimeout s' = reconnectTimeout s /\ signalQueue s' = signalQueue s
  /\ wire s' = wire s /\ relayUrl s' = relayUrl s /\ currentRoom s' = currentRoom s
  /\ isExplicitDisconnect s' = isExplicitDisconnect s /\ now s' = now s
  /\ next_timer s' = next_timer s /\ delivered s' = delivered s.
Proof.
  unfold release_socket. destruct (socket s) eqn:E; simpl; rewrite ?E; by split_and!.
Qed.

Lemma wf_connect publicKey onSignal s : wf s -> wf (connect publicKey onSignal s).
Proof.
  intros Hwf. unfold Signaling.connect.
  set (s0 := set_isExplicitDisconnect false
               (set_onSignalCallback (Some onSignal) (set_myPublicKey (Some publicKey) s))).
  assert (Hwf0 : wf s0) by (destruct Hwf; split; simpl; eauto).
  destruct (release_fields s0) as (Hs & Hk & Hc & Ht & Hr & _).
  destruct (valid_url _); split; simpl.
  - intros sid [= <-]. rewrite length_app. simpl. lia.
  - intros sid ws Hws Hh. destruct (decide (sid < length (sockets (release_socket s0)))%nat).
    + rewrite lookup_app_l in Hws by done.
      by rewrite (release_not_live _ _ _ Hwf0 Hws) in Hh.
    + f_equal. apply lookup_lt_Some in Hws. rewrite length_app in Hws. simpl in Hws. lia.
  - rewrite Ht, Hr. apply Hwf0.
  - rewrite Hk, Hc. simpl. eauto.
  - rewrite Hs, length_release. apply Hwf0.
  - intros sid ws Hws Hh. by rewrite (release_not_live _ _ _ Hwf0 Hws) in Hh.
  - rewrite Ht, Hr. apply Hwf0.
  - rewrite Hk, Hc. simpl. eauto.
Qed.

(** Setters of fields the invariant does not read. *)
Ltac wf_frame Hwf := destruct Hwf; split; simpl; eauto.

Lemma wf_enqueue msg s : wf s -> wf (enqueue msg s).
Proof. intros Hwf. wf_frame Hwf. Qed.

Lemma wf_dispatch b s : wf s -> wf (dispatch b s).
Proof. intros Hwf. wf_frame Hwf. Qed.

Lemma wf_ws_send sid msg s s' : wf s -> ws_send sid msg s = Normal s' -> wf s'.
Proof.
  intros Hwf. unfold ws_send. destruct (ready_of s sid); intros [= <-]; try done.
  wf_frame Hwf.
Qed.

Lemma wf_sendSignal to type data s : wf s -> wf (sendSignal to type data s).
Proof.
  intros Hwf. unfold Signaling.sendSignal.
  destruct (myPublicKey s) as [[|c k]|]; try done.
  destruct (socket s) as [sid|].
  - destruct (ready_of s sid) eqn:Hr.
    + by apply wf_enqueue.
    + destruct (ws_send _ _ _) eqn:Hsend; [by eapply wf_ws_send|by apply wf_enqueue].
    + destruct (onSignalCallback _); [apply wf_connect|]; by apply wf_enqueue.
    + destruct (onSignalCallback _); [apply wf_connect|]; by apply wf_enqueue.
  - destruct (onSignalCallback _); [apply wf_connect|]; by apply wf_enqueue.
Qed.

Lemma wf_send_all messages s :
  wf s ->
  wf (foldl (fun s msg => sendSignal (sm_to msg) (sm_type msg) (sm_data msg) s) s messages).
Proof.
  revert s. induction messages as [|m ms IH]; intros s Hwf; simpl; [done|].
  by apply IH, wf_sendSignal.
Qed.

Lemma wf_flushQueue s : wf s -> wf (flushQueue s).
Proof.
  intros Hwf. unfold Signaling.flushQueue. destruct (signalQueue s) eqn:Hq; [done|].
  apply wf_send_all. wf_frame Hwf.
Qed.

Lemma wf_clearTimeout t s : wf s -> wf (clearTimeout t s).
Proof.
  intros Hwf. destruct t as [tid|]; [|done]. destruct Hwf; split; simpl; eauto.
  intros p [_ Hp]%list_elem_of_filter. eauto.
Qed.

Lemma wf_reconnect s : wf s -> wf (reconnect s).
Proof.
  intros Hwf. unfold Signaling.reconnect.
  destruct (myPublicKey s) as [[|c k]|]; try done.
  destruct (onSignalCallback s); [by apply wf_connect|done].
Qed.

Lemma wf_disconnect s : wf s -> wf (disconnect s).
Proof.
  intros Hwf. unfold disconnect.
  set (s1 := clearTimeout _ (set_isExplicitDisconnect true s)).
  assert (Hwf1 : wf s1) by (apply wf_clearTimeout; wf_frame Hwf).
  destruct (release_fields s1) as (Hs & Hk & Hc & Ht & Hr & _).
  split; simpl.
  - done.
  - intros sid ws Hws Hh. by rewrite (release_not_live _ _ _ Hwf1 Hws) in Hh.
  - rewrite Ht, Hr. apply Hwf1.
  - rewrite Hk, Hc. intros Hne. apply Hwf1. intros Hnil. apply Hne.
    apply length_zero_iff_nil. rewrite length_release, Hnil. done.
Qed.

Lemma wf_setRelayUrl url s : wf s -> wf (setRelayUrl url s).
Proof.
  intros Hwf. unfold Signaling.setRelayUrl.
  match goal with |- context [set_currentRoom ?r ?x] => set (s1 := set_currentRoom r x) end.
  assert (Hwf1 : wf s1) by wf_frame Hwf.
  destruct (socket s1); [|done]. by apply wf_reconnect, wf_disconnect.
Qed.

Lemma wf_onmessage data s : wf s -> wf (onmessage data s).
Proof.
  intros Hwf. unfold Signaling.onmessage.
  destruct (try_catch _ _) as [[msg|]|]; try done.
  destruct (onSignalCallback s); [|done]. wf_frame Hwf.
Qed.

(** Cancelling the timeout that [reconnectTimeout] names leaves no
    timeout pending. *)
Lemma clear_current_timeout s :
  wf s -> timers (clearTimeout (reconnectTimeout s) s) = [].
Proof.
  intros Hwf. apply elem_of_nil_inv. intros p Hp.
  destruct (reconnectTimeout s) as [tid|] eqn:Ht; simpl in Hp.
  - apply list_elem_of_filter in Hp as [Hne Hp].
    apply (wf_timers _ Hwf) in Hp. congruence.
  - apply (wf_timers _ Hwf) in Hp. congruence.
Qed.

Lemma clearTimeout_fields t s :
  let s' := clearTimeout t s in
  socket s' = socket s /\ sockets s' = sockets s /\ myPublicKey s' = myPublicKey s
  /\ onSignalCallback s' = onSignalCallback s /\ reconnectTimeout s' = reconnectTimeout s
  /\ signalQueue s' = signalQueue s /\ wire s' = wire s /\ now s' = now s
  /\ next_timer s' = next_timer s /\ isExplicitDisconnect s' = isExplicitDisconnect s.
Proof. destruct t; simpl; by split_and!. Qed.

Lemma wf_onclose s : wf s -> wf (onclose s).
Proof.
  intros Hwf. unfold onclose.
  destruct (isExplicitDisconnect (dispatch false s)); [by apply wf_dispatch|].
  assert (Hwf1 : wf (dispatch false s)) by by apply wf_dispatch.
  pose proof (clear_current_timeout _ Hwf1) as Hnone.
  destruct (clearTimeout_fields (reconnectTimeout (dispatch false s)) (dispatch false s))
    as (Hs & Hss & Hk & Hc & _).
  set (s1 := dispatch false s) in *. set (s2 := clearTimeout _ s1) in *.
  clearbody s2 s1. unfold setTimeout. split; simpl.
  - rewrite Hs, Hss. apply Hwf1.
  - rewrite Hs, Hss. apply Hwf1.
  - rewrite Hnone. intros p ->%list_elem_of_singleton. done.
  - rewrite Hss, Hk, Hc. apply Hwf1.
Qed.

Lemma lookup_set_ready sid r s i :
  sockets (set_ready sid r s) !! i
  = if decide (sid = i) then ws_set_ready r <$> sockets s !! i else sockets s !! i.
Proof.
  unfold set_ready. simpl. case_decide as Hd.
  - subst. apply list_lookup_alter_eq.
  - by apply list_lookup_alter_ne.
Qed.

Lemma wf_set_ready sid r s : wf s -> wf (set_ready sid r s).
Proof.
  intros Hwf. split.
  - intros i Hi. unfold set_ready. simpl. rewrite length_alter. by apply Hwf.
  - intros i ws. rewrite lookup_set_ready. case_decide.
    + destruct (sockets s !! i) as [ws0|] eqn:H0; simpl; [|done].
      intros [= <-] Hh. by eapply (wf_live _ Hwf).
    + apply Hwf.
  - apply Hwf.
  - unfold set_ready. simpl. intros Hne. apply Hwf. intros Hnil. apply Hne.
    by rewrite Hnil.
Qed.

Lemma wf_step e s : wf s -> wf (step e s).
Proof.
  intros Hwf. destruct e; simpl.
  - by apply wf_connect.
  - by apply wf_sendSignal.
  - by apply wf_disconnect.
  - by apply wf_setRelayUrl.
  - destruct (sockets s !! sid) as [[url [] h]|]; try done.
    destruct h; [apply wf_flushQueue, wf_dispatch|]; by apply wf_set_ready.
  - destruct (sockets s !! sid) as [[url [] []]|]; try done; by apply wf_onmessage.
  - destruct (sockets s !! sid) as [[url [] h]|]; try done;
      (destruct h; [apply wf_onclose|]; by apply wf_set_ready).
  - wf_frame Hwf.
  - destruct (due tid s); [|done]. by apply wf_reconnect, (wf_clearTimeout (Some tid)).
Qed.

Lemma wf_run events s : wf s -> wf (run events s).
Proof.
  revert s. induction events as [|e events IH]; intros s Hwf; [done|].
  rewrite run_cons. by apply IH, wf_step.
Qed.

(** *** where transmitted frames come from *)

Lemma connect_fields publicKey onSignal s :
  let s' := connect publicKey onSignal s in
  wire s' = wire s /\ signalQueue s' = signalQueue s /\ timers s' = timers s
  /\ reconnectTimeout s' = reconnectTimeout s /\ now s' = now s
  /\ next_timer s' = next_timer s /\ currentRoom s' = currentRoom s
  /\ myPublicKey s' = Some publicKey /\ onSignalCallback s' = Some onSignal
  /\ isExplicitDisconnect s' = false.
Proof.
  unfold Signaling.connect.
  set (s0 := set_isExplicitDisconnect false _).
  destruct (release_fields s0) as (Hs & Hk & Hc & Ht & Hr & Hq & Hw & Hu & Hroom & He & Hn & Hnt & _).
  destruct (valid_url _); simpl; rewrite ?Hw, ?Hq, ?Ht, ?Hr, ?Hn, ?Hnt, ?Hroom, ?Hk, ?Hc, ?He;
    by split_and!.
Qed.

Lemma traceable_same sources s s' :
  wire s' = wire s ->
  (forall m, m ∈ signalQueue s' -> m ∈ signalQueue s) ->
  (forall m, m ∈ signalQueue s -> payload m ∈ sources) ->
  traceable sources s s'.
Proof.
  intros Hw Hq Hsrc. split; [|by eauto].
  exists []. rewrite app_nil_r. split; [done|]. by intros f ?%elem_of_nil.
Qed.

Lemma traceable_trans sources s1 s2 s3 :
  traceable sources s1 s2 -> traceable sources s2 s3 -> traceable sources s1 s3.
Proof.
  intros [(n1 & Hw1 & Hn1) _] [(n2 & Hw2 & Hn2) Hq]. split; [|done].
  exists (n1 ++ n2). rewrite Hw2, Hw1, app_assoc. split; [done|].
  intros f [?|?]%elem_of_app; eauto.
Qed.

Lemma traceable_weaken sources sources' s s' :
  sources ⊆ sources' -> traceable sources s s' -> traceable sources' s s'.
Proof.
  intros Hsub [(new & Hw & Hn) Hq]. split; [|by eauto].
  exists new. eauto.
Qed.

Lemma traceable_queue sources s s' m :
  traceable sources s s' -> m ∈ signalQueue s' -> payload m ∈ sources.
Proof. intros [_ Hq]. apply Hq. Qed.

Lemma traceable_enqueue sources msg s :
  payload msg ∈ sources ->
  (forall m, m ∈ signalQueue s -> payload m ∈ sources) ->
  traceable sources s (enqueue msg s).
Proof.
  intros Hmsg Hsrc. split.
  - exists []. simpl. rewrite app_nil_r. split; [done|]. by intros f ?%elem_of_nil.
  - simpl. intros m [?| ->%list_elem_of_singleton]%elem_of_app; eauto.
Qed.

Lemma traceable_connect sources publicKey onSignal s :
  (forall m, m ∈ signalQueue s -> payload m ∈ sources) ->
  traceable sources s (connect publicKey onSignal s).
Proof.
  intros Hsrc. destruct (connect_fields publicKey onSignal s) as (Hw & Hq & _).
  apply traceable_same; [done| |done]. by rewrite Hq.
Qed.

Lemma traceable_sendSignal sources to type data s :
  (to, type, data) ∈ sources ->
  (forall m, m ∈ signalQueue s -> payload m ∈ sources) ->
  traceable sources s (sendSignal to type data s).
Proof.
  intros Hnew Hsrc. unfold Signaling.sendSignal.
  destruct (myPublicKey s) as [[|c k]|]; try by apply traceable_same.
  set (msg := Build_SignalMessage _ _ _ _ _).
  assert (Henq : traceable sources s (enqueue msg s)) by by apply traceable_enqueue.
  assert (Hconn : forall cb, traceable sources s (connect (String c k) cb (enqueue msg s))).
  { intros cb. eapply traceable_trans; [exact Henq|].
    apply traceable_connect. intros m. by apply traceable_queue with s. }
  destruct (socket s) as [sid|].
  - destruct (ready_of s sid) eqn:Hr; try done.
    + unfold ws_send. rewrite Hr. split; [|done].
      exists [(sid, msg)]. split; [done|]. by intros f ->%list_elem_of_singleton.
    + by destruct (onSignalCallback _).
    + by destruct (onSignalCallback _).
  - by destruct (onSignalCallback _).
Qed.

Lemma traceable_send_all sources messages s :
  (forall m, m ∈ messages -> payload m ∈ sources) ->
  (forall m, m ∈ signalQueue s -> payload m ∈ sources) ->
  traceable sources s
    (foldl (fun s msg => sendSignal (sm_to msg) (sm_type msg) (sm_data msg) s) s messages).
Proof.
  revert s. induction messages as [|m ms IH]; intros s Hms Hsrc; simpl.
  - by apply traceable_same.
  - assert (H1 : traceable sources s (sendSignal (sm_to m) (sm_type m) (sm_data m) s)).
    { apply traceable_sendSignal; [|done]. apply (Hms m). by left. }
    eapply traceable_trans; [exact H1|]. apply IH.
    + intros m' Hm'. apply Hms. by right.
    + intros m'. by apply traceable_queue with s.
Qed.

Lemma traceable_flushQueue sources s :
  (forall m, m ∈ signalQueue s -> payload m ∈ sources) ->
  traceable sources s (flushQueue s).
Proof.
  intros Hsrc. unfold Signaling.flushQueue.
  destruct (signalQueue s) as [|m ms] eqn:Hq; [by apply traceable_same; rewrite ?Hq|].
  eapply traceable_trans with (set_signalQueue [] s).
  - apply traceable_same; [done| |by rewrite Hq]. by intros ? ?%elem_of_nil.
  - apply traceable_send_all; [done|]. by intros ? ?%elem_of_nil.
Qed.

Lemma reconnect_fields s :
  wire (reconnect s) = wire s /\ signalQueue (reconnect s) = signalQueue s
  /\ timers (reconnect s) = timers s.
Proof.
  unfold Signaling.reconnect. destruct (myPublicKey s) as [[|c k]|]; try done.
  destruct (onSignalCallback s) as [cb|]; [|done].
  destruct (connect_fields (String c k) cb s) as (? & ? & ? & _). done.
Qed.

Lemma disconnect_fields s :
  let s' := disconnect s in
  wire s' = wire s /\ signalQueue s' = [] /\ socket s' = None
  /\ isExplicitDisconnect s' = true /\ myPublicKey s' = myPublicKey s
  /\ onSignalCallback s' = onSignalCallback s
  /\ timers s' = timers (clearTimeout (reconnectTimeout s) s).
Proof.
  destruct s as [[sid|] cb key [tid|] ex q url room ss ts nt n w d disp st];
    simpl; by split_and!.
Qed.

Lemma setRelayUrl_fields url s :
  let s' := setRelayUrl url s in
  wire s' = wire s
  /\ (signalQueue s' = signalQueue s /\ socket s = None
      \/ signalQueue s' = [] /\ is_Some (socket s)).
Proof.
  unfold Signaling.setRelayUrl.
  match goal with |- context [set_currentRoom ?r ?x] => set (s1 := set_currentRoom r x) end.
  change (socket s1) with (socket s).
  destruct (socket s) as [sid|] eqn:Hs; simpl.
  - destruct (reconnect_fields (disconnect s1)) as (Hw & Hq & _).
    destruct (disconnect_fields s1) as (Hw1 & Hq1 & _).
    rewrite Hw, Hq, Hw1, Hq1. eauto.
  - eauto.
Qed.

Lemma onmessage_fields data s :
  wire (onmessage data s) = wire s /\ signalQueue (onmessage data s) = signalQueue s
  /\ timers (onmessage data s) = timers s /\ sockets (onmessage data s) = sockets s
  /\ socket (onmessage data s) = socket s.
Proof.
  unfold Signaling.onmessage. destruct (try_catch _ _) as [[msg|]|]; try done.
  by destruct (onSignalCallback s).
Qed.

Lemma onclose_fields s :
  wire (onclose s) = wire s /\ signalQueue (onclose s) = signalQueue s
  /\ sockets (onclose s) = sockets s /\ socket (onclose s) = socket s
  /\ myPublicKey (onclose s) = myPublicKey s.
Proof.
  unfold onclose. destruct (isExplicitDisconnect _); [done|].
  simpl. by destruct (reconnectTimeout s).
Qed.

Lemma submitted_app events later :
  submitted (events ++ later) = submitted events ++ submitted later.
Proof.
  induction events as [|e events IH]; [done|].
  destruct e; simpl; by rewrite ?IH.
Qed.

Lemma traceable_step sources e s :
  (forall m, m ∈ signalQueue s -> payload m ∈ sources) ->
  traceable (sources ++ submitted [e]) s (step e s).
Proof.
  intros Hsrc.
  assert (Hsrc' : forall m, m ∈ signalQueue s -> payload m ∈ sources ++ submitted [e]).
  { intros m Hm. apply elem_of_app. eauto. }
  destruct e; simpl.
  - by apply traceable_connect.
  - apply traceable_sendSignal; [|done]. apply elem_of_app. right. by left.
  - destruct (disconnect_fields s) as (Hw & Hq & _).
    apply traceable_same; [done| |done]. rewrite Hq. by intros ? ?%elem_of_nil.
  - destruct (setRelayUrl_fields url s) as (Hw & [[Hq _]|[Hq _]]);
      (apply traceable_same; [done| |done]); rewrite Hq; [done|].
    by intros ? ?%elem_of_nil.
  - destruct (sockets s !! sid) as [[u [] h]|]; try by apply traceable_same.
    destruct h; [|by apply traceable_same].
    apply traceable_trans with (dispatch true (set_ready sid OPEN s));
      [by apply traceable_same|].
    by apply traceable_flushQueue.
  - destruct (onmessage_fields data s) as (Hw & Hq & _).
    destruct (sockets s !! sid) as [[u [] []]|]; apply traceable_same; by rewrite ?Hq.
  - destruct (onclose_fields (set_ready sid CLOSED s)) as (Hw & Hq & _).
    destruct (sockets s !! sid) as [[u [] []]|]; apply traceable_same; by rewrite ?Hq.
  - by apply traceable_same.
  - destruct (due tid s); [|by apply traceable_same].
    destruct (reconnect_fields (clearTimeout (Some tid) s)) as (Hw & Hq & _).
    simpl in Hw, Hq. apply traceable_same; [done| |done]. by rewrite Hq.
Qed.

Lemma traceable_run sources events s :
  (forall m, m ∈ signalQueue s -> payload m ∈ sources) ->
  traceable (sources ++ submitted events) s (run events s).
Proof.
  revert sources s. induction events as [|e events IH]; intros sources s Hsrc.
  - simpl. rewrite app_nil_r. by apply traceable_same.
  - rewrite run_cons. change (e :: events) with ([e] ++ events).
    rewrite submitted_app, app_assoc.
    pose proof (traceable_step sources e s Hsrc) as H1.
    eapply traceable_trans.
    + eapply traceable_weaken; [|exact H1]. intros x Hx. apply elem_of_app. by left.
    + apply IH. intros m. by apply traceable_queue with s.
Qed.

(** C9.  [disconnect] leaves the outbound queue empty, and so does
    [setRelayUrl] whenever a socket exists; whatever happens afterwards
    (connecting again included), every frame handed to a socket from then on
    carries an envelope submitted after the call, so that nothing queued
    before it is ever transmitted. *)
Theorem disconnect_discards_queue s url later :
  (signalQueue (disconnect s) = []
   /\ exists new, wire (run later (disconnect s)) = wire s ++ new
        /\ forall f, f ∈ new -> payload f.2 ∈ submitted later)
  /\ (is_Some (socket s) ->
      signalQueue (setRelayUrl url s) = []
      /\ exists new, wire (run later (setRelayUrl url s)) = wire s ++ new
           /\ forall f, f ∈ new -> payload f.2 ∈ submitted later).
Proof.
  destruct (disconnect_fields s) as (Hw & Hq & _). split.
  - split; [done|].
    destruct (traceable_run [] later (disconnect s)) as [(new & Hnew & Hsrc) _].
    { rewrite Hq. by intros ? ?%elem_of_nil. }
    exists new. by rewrite Hnew, Hw.
  - intros [sid Hsid].
    destruct (setRelayUrl_fields url s) as (Hw' & [[_ Hnone]|[Hq' _]]); [congruence|].
    split; [done|].
    destruct (traceable_run [] later (setRelayUrl url s)) as [(new & Hnew & Hsrc) _].
    { rewrite Hq'. by intros ? ?%elem_of_nil. }
    exists new. by rewrite Hnew, Hw'.
Qed.

(** *** before any [connect] *)

Lemma no_identity_step e s :
  is_connect e = false ->
  myPublicKey s = None /\ sockets s = [] /\ timers s = [] /\ socket s = None ->
  let s' := step e s in
  myPublicKey s' = None /\ sockets s' = [] /\ timers s' = [] /\ socket s' = None.
Proof.
  intros He (Hk & Hss & Ht & Hs).
  destruct s as [sk cb key tmo ex q u room ss ts nt n w d disp st]. simpl in *. subst.
  destruct e; try done; simpl; by destruct tmo.
Qed.

Lemma no_identity_run stored history :
  forallb (fun e => negb (is_connect e)) history = true ->
  let s := run history (init stored) in
  myPublicKey s = None /\ sockets s = [] /\ timers s = [] /\ socket s = None.
Proof.
  assert (Hgen : forall s,
    myPublicKey s = None /\ sockets s = [] /\ timers s = [] /\ socket s = None ->
    forallb (fun e => negb (is_connect e)) history = true ->
    myPublicKey (run history s) = None /\ sockets (run history s) = []
    /\ timers (run history s) = [] /\ socket (run history s) = None).
  { induction history as [|e history IH]; intros s Hs Hall; [done|].
    simpl in Hall. apply andb_prop in Hall as [He Hall].
    rewrite run_cons. apply IH; [|done].
    apply no_identity_step; [|done]. by destruct (is_connect e). }
  intros Hall. by apply Hgen.
Qed.

(** C10.  As long as [connect] has never been called the service has no
    identity, and [sendSignal] returns the state as it found it: nothing is
    handed to a socket, nothing is queued, no socket is created. *)
Theorem send_before_connect stored history to type data :
  forallb (fun e => negb (is_connect e)) history = true ->
  let s := run history (init stored) in
  myPublicKey s = None /\ sendSignal to type data s = s.
Proof.
  intros Hall s. destruct (no_identity_run stored history Hall) as (Hk & _).
  fold s in Hk. split; [done|]. unfold Signaling.sendSignal. by rewrite Hk.
Qed.

(** *** incoming frames *)





(** *** queueing while the connection is not open, flushing when it opens *)

Lemma sendSignal_open to type data s sid c k :
  socket s = Some sid -> ready_of s sid = OPEN -> myPublicKey s = Some (String c k) ->
  sendSignal to type data s
  = set_wire (wire s ++ [(sid, Build_SignalMessage type (String c k) to data (currentRoom s))]) s.
Proof.
  intros Hs Hr Hk. unfold Signaling.sendSignal, ws_send. by rewrite Hk, Hs, Hr.
Qed.

Lemma send_all_open messages s sid c k :
  socket s = Some sid -> ready_of s sid = OPEN -> myPublicKey s = Some (String c k) ->
  foldl (fun s msg => sendSignal (sm_to msg) (sm_type msg) (sm_data msg) s) s messages
  = set_wire (wire s ++ ((fun m => (sid, stamp (String c k) (currentRoom s) m)) <$> messages)) s.
Proof.
  revert s. induction messages as [|m ms IH]; intros s Hs Hr Hk; simpl.
  - rewrite app_nil_r. by destruct s.
  - rewrite (sendSignal_open _ _ _ s sid c k) by done.
    rewrite IH by done. simpl. by rewrite <- app_assoc.
Qed.

Lemma flushQueue_open s sid c k :
  socket s = Some sid -> ready_of s sid = OPEN -> myPublicKey s = Some (String c k) ->
  flushQueue s
  = set_signalQueue []
      (set_wire (wire s ++ ((fun m => (sid, stamp (String c k) (currentRoom s) m))
                              <$> signalQueue s)) s).
Proof.
  intros Hs Hr Hk. unfold Signaling.flushQueue.
  destruct (signalQueue s) as [|m ms] eqn:Hq.
  - simpl. rewrite app_nil_r. destruct s; simpl in *. by subst.
  - by rewrite (send_all_open _ _ sid c k).
Qed.

Lemma payload_stamp key room m : payload (stamp key room m) = payload m.
Proof. done. Qed.

Lemma ready_of_released s sid : ready_of (release_socket s) sid = OPEN -> socket s <> Some sid.
Proof.
  unfold ready_of. rewrite lookup_release. case_decide as Hd; [|done].
  destruct (sockets s !! sid) as [[u r h]|]; simpl; [|done]. by destruct r.
Qed.

Lemma not_open_connect publicKey onSignal s : not_open (connect publicKey onSignal s).
Proof.
  unfold Signaling.connect. set (s0 := set_isExplicitDisconnect false _).
  destruct (release_fields s0) as (Hs & _).
  destruct (valid_url _); intros sid; simpl.
  - intros [= <-]. unfold ready_of. simpl. by rewrite list_lookup_middle.
  - rewrite Hs. intros Hsid Hopen. by apply ready_of_released in Hopen.
Qed.

Lemma not_open_same s s' :
  socket s' = socket s -> sockets s' = sockets s -> not_open s -> not_open s'.
Proof. unfold not_open, ready_of. intros -> ->. done. Qed.

Lemma not_open_closed sid s : not_open s -> not_open (set_ready sid CLOSED s).
Proof.
  intros Hno cur Hcur. unfold ready_of. rewrite lookup_set_ready.
  case_decide; [|by apply Hno]. by destruct (sockets s !! cur).
Qed.

Lemma waiting_step e s c k :
  waiting e = true -> not_open s -> myPublicKey s = Some (String c k) ->
  let s' := step e s in
  not_open s' /\ truthy (myPublicKey s') = true /\ wire s' = wire s
  /\ payload <$> signalQueue s' = (payload <$> signalQueue s) ++ submitted [e].
Proof.
  intros He Hno Hk. destruct e; try done; simpl.
  - destruct (connect_fields publicKey onSignal s) as (Hw & Hq & _ & _ & _ & _ & _ & Hk' & _).
    rewrite Hw, Hq, Hk', app_nil_r. split_and!; try done. apply not_open_connect.
  - unfold Signaling.sendSignal. rewrite Hk.
    set (msg := Build_SignalMessage _ _ _ _ _).
    assert (Hconn : forall cb, let s' := connect (String c k) cb (enqueue msg s) in
      not_open s' /\ truthy (myPublicKey s') = true /\ wire s' = wire s
      /\ payload <$> signalQueue s' = (payload <$> signalQueue s) ++ [(to, type, data)]).
    { intros cb.
      destruct (connect_fields (String c k) cb (enqueue msg s))
        as (Hw & Hq & _ & _ & _ & _ & _ & Hk' & _).
      simpl. rewrite Hw, Hq, Hk'. split_and!; try done; [apply not_open_connect|].
      simpl. by rewrite fmap_app. }
    assert (Henq : let s' := enqueue msg s in
      not_open s' /\ truthy (myPublicKey s') = true /\ wire s' = wire s
      /\ payload <$> signalQueue s' = (payload <$> signalQueue s) ++ [(to, type, data)]).
    { simpl. rewrite Hk, fmap_app. by split_and!. }
    destruct (socket s) as [sid|] eqn:Hs.
    + destruct (ready_of s sid) eqn:Hr; try done.
      * by destruct (Hno sid).
      * destruct (onSignalCallback _); [apply Hconn|apply Henq].
      * destruct (onSignalCallback _); [apply Hconn|apply Henq].
    + destruct (onSignalCallback _); [apply Hconn|apply Henq].
  - destruct (onmessage_fields data s) as (Hw & Hq & _ & Hss & Hs).
    assert (Hkm : myPublicKey (onmessage data s) = myPublicKey s).
    { unfold Signaling.onmessage. destruct (try_catch _ _) as [[?|]|]; try done.
      by destruct (onSignalCallback s). }
    rewrite app_nil_r.
    destruct (sockets s !! sid) as [[u [] []]|]; rewrite ?Hw, ?Hq, ?Hkm, ?Hk;
      split_and!; try done; by apply not_open_same with s.
  - destruct (onclose_fields (set_ready sid CLOSED s)) as (Hw & Hq & Hss & Hs & Hkc).
    rewrite app_nil_r.
    destruct (sockets s !! sid) as [[u [] []]|]; rewrite ?Hw, ?Hq, ?Hkc; simpl; rewrite ?Hk;
      split_and!; try done;
      first [ by apply not_open_closed
            | apply not_open_same with (set_ready sid CLOSED s);
              [done|done|by apply not_open_closed] ].
  - rewrite Hk, app_nil_r. by split_and!.
  - rewrite app_nil_r. destruct (due tid s); [|by rewrite Hk].
    unfold Signaling.reconnect. simpl. rewrite Hk.
    destruct (onSignalCallback s) as [cb|]; simpl; [|by rewrite Hk].
    destruct (connect_fields (String c k) cb (clearTimeout (Some tid) s))
      as (Hw & Hq & _ & _ & _ & _ & _ & Hk' & _).
    simpl in Hw, Hq, Hk'. rewrite Hw, Hq, Hk'. split_and!; try done. apply not_open_connect.
Qed.

Lemma truthy_inv x : truthy x = true -> exists c k, x = Some (String c k).
Proof. destruct x as [[|c k]|]; try done. eauto. Qed.

Lemma waiting_run events s :
  forallb waiting events = true -> not_open s -> truthy (myPublicKey s) = true ->
  let s' := run events s in
  not_open s' /\ truthy (myPublicKey s') = true /\ wire s' = wire s
  /\ payload <$> signalQueue s' = (payload <$> signalQueue s) ++ submitted events.
Proof.
  revert s. induction events as [|e events IH]; intros s Hall Hno Hk.
  - simpl. by rewrite app_nil_r.
  - simpl in Hall. apply andb_prop in Hall as [He Hall].
    destruct (truthy_inv _ Hk) as (c & k & Hkey).
    destruct (waiting_step e s c k He Hno Hkey) as (Hno1 & Hk1 & Hw1 & Hq1).
    destruct (IH (step e s) Hall Hno1 Hk1) as (Hno2 & Hk2 & Hw2 & Hq2).
    rewrite run_cons. cbv zeta. rewrite Hw2, Hw1, Hq2, Hq1.
    change (e :: events) with ([e] ++ events). rewrite submitted_app, app_assoc.
    done.
Qed.

(** C4.  Take the service in a reachable state with an identity and no open
    connection.  Through any events that neither open the connection nor
    clear the queue, nothing is transmitted and the queue grows, at its end,
    by the envelopes submitted, in the order of submission.  When the socket
    then opens, the queued envelopes are handed to it exactly as queued, one
    frame each, in queue order, re-stamped with the identity and room of the
    moment, and the queue is empty; every frame transmitted later comes after
    them and carries an envelope submitted later. *)
Theorem queue_flush_fifo stored history quiet later sid url :
  let s := run history (init stored) in
  not_open s -> truthy (myPublicKey s) = true -> forallb waiting quiet = true ->
  let s1 := run quiet s in
  sockets s1 !! sid = Some (Build_WebSocket url CONNECTING true) ->
  let s2 := step (SocketOpen sid) s1 in
  wire s1 = wire s
  /\ payload <$> signalQueue s1 = (payload <$> signalQueue s) ++ submitted quiet
  /\ (exists key,
        myPublicKey s1 = Some key
        /\ wire s2
           = wire s ++ ((fun m => (sid, stamp key (currentRoom s1) m)) <$> signalQueue s1))
  /\ (fun f => payload f.2) <$> wire s2
     = ((fun f => payload f.2) <$> wire s) ++ (payload <$> signalQueue s) ++ submitted quiet
  /\ signalQueue s2 = []
  /\ exists rest, wire (run later s2) = wire s2 ++ rest
       /\ forall f, f ∈ rest -> payload f.2 ∈ submitted later.
Proof.
  intros s Hno Hk Hquiet s1 Hws s2.
  assert (Hwf1 : wf s1) by apply wf_run, wf_run, wf_init.
  destruct (waiting_run quiet s Hquiet Hno Hk) as (_ & Hk1 & Hw1 & Hq1).
  fold s1 in Hk1, Hw1, Hq1.
  destruct (truthy_inv _ Hk1) as (c & k & Hkey).
  pose proof (wf_live _ Hwf1 _ _ Hws eq_refl) as Hcur.
  assert (Hflush : s2 = set_signalQueue []
            (set_wire (wire s1 ++ ((fun m => (sid, stamp (String c k) (currentRoom s1) m))
                                     <$> signalQueue s1))
               (dispatch true (set_ready sid OPEN s1)))).
  { unfold s2. simpl. rewrite Hws. unfold Signaling.onopen.
    rewrite (flushQueue_open _ sid c k); [done|done| |done].
    unfold ready_of. simpl. rewrite list_lookup_alter_eq, Hws. done. }
  assert (Hwire : wire s2 = wire s ++ ((fun m => (sid, stamp (String c k) (currentRoom s1) m))
                                         <$> signalQueue s1)).
  { rewrite Hflush. simpl. by rewrite Hw1. }
  assert (Hempty : signalQueue s2 = []) by by rewrite Hflush.
  split_and!; try done.
  - by exists (String c k).
  - rewrite Hwire, fmap_app, <- Hq1, <- list_fmap_compose. done.
  - destruct (traceable_run [] later s2) as [(rest & Hrest & Hsrc) _].
    { rewrite Hempty. by intros ? ?%elem_of_nil. }
    eauto.
Qed.

(** *** reconnection *)

(** On a close that [disconnect] did not cause, one timeout is pending
    afterwards, due [reconnect_delay] after the close. *)
Lemma unexpected_close_schedules_once stored history sid url r :
  let s := run history (init stored) in
  sockets s !! sid = Some (Build_WebSocket url r true) -> r <> CLOSED ->
  isExplicitDisconnect s = false ->
  timers (step (SocketClose sid) s) = [(next_timer s, (now s + reconnect_delay)%nat)].
Proof.
  intros s Hws Hr Hex.
  assert (Hwf : wf (dispatch false (set_ready sid CLOSED s))).
  { apply wf_dispatch, wf_set_ready, wf_run, wf_init. }
  pose proof (clear_current_timeout _ Hwf) as Hnone.
  assert (Hclose : timers (onclose (set_ready sid CLOSED s))
                   = [(next_timer s, (now s + reconnect_delay)%nat)]).
  { unfold onclose. simpl. rewrite Hex. unfold setTimeout. simpl in *.
    destruct (reconnectTimeout s); simpl in *; by rewrite Hnone. }
  simpl. rewrite Hws. by destruct r.
Qed.

(** When the timeout fires the service connects again, which creates a
    socket whose own close will schedule the next attempt. *)
Lemma timeout_reconnects tid s c k cb :
  due tid s = true -> myPublicKey s = Some (String c k) -> onSignalCallback s = Some cb ->
  step (TimerFire tid) s = connect (String c k) cb (clearTimeout (Some tid) s).
Proof.
  intros Hdue Hk Hc. simpl. rewrite Hdue. unfold Signaling.reconnect. simpl.
  by rewrite Hk, Hc.
Qed.

(** [disconnect] cancels the pending attempt and detaches every socket;
    until the service is asked to connect again, no attempt is scheduled and
    none fires. *)
Lemma stopped_step e s :
  match e with
  | Connect _ _ | SendSignal _ _ _ | SetRelayUrl _ => false
  | _ => true
  end = true ->
  timers s = [] /\ socket s = None
  /\ (forall sid ws, sockets s !! sid = Some ws -> ws_handlers ws = false) ->
  let s' := step e s in
  timers s' = [] /\ socket s' = None
  /\ (forall sid ws, sockets s' !! sid = Some ws -> ws_handlers ws = false).
Proof.
  intros He (Ht & Hs & Hdead).
  assert (Hready : forall sid r,
    timers (set_ready sid r s) = [] /\ socket (set_ready sid r s) = None
    /\ (forall i ws, sockets (set_ready sid r s) !! i = Some ws -> ws_handlers ws = false)).
  { intros sid r. split_and!; [done..|]. intros i ws. rewrite lookup_set_ready.
    case_decide; [|by apply Hdead].
    destruct (sockets s !! i) as [ws0|] eqn:H0; simpl; [|done].
    intros [= <-]. simpl. by eapply Hdead. }
  destruct e; try done; simpl.
  - destruct s as [sk cb key tmo ex q u room ss ts nt n w d disp st]. simpl in *. subst.
    destruct tmo; simpl; by split_and!.
  - destruct (sockets s !! sid) as [[u r h]|] eqn:Hws; [|done].
    pose proof (Hdead _ _ Hws) as Hh. simpl in Hh. subst h.
    destruct r; first [apply Hready | done].
  - destruct (sockets s !! sid) as [[u r h]|] eqn:Hws; [|done].
    pose proof (Hdead _ _ Hws) as Hh. simpl in Hh. subst h. by destruct r.
  - destruct (sockets s !! sid) as [[u r h]|] eqn:Hws; [|done].
    pose proof (Hdead _ _ Hws) as Hh. simpl in Hh. subst h.
    destruct r; first [apply Hready | done].
  - unfold due. by rewrite Ht.
Qed.

Lemma disconnect_stops_reconnection stored history later tid :
  forallb (fun e => match e with
                    | Connect _ _ | SendSignal _ _ _ | SetRelayUrl _ => false
                    | _ => true
                    end) later = true ->
  let s := run later (disconnect (run history (init stored))) in
  timers s = [] /\ step (TimerFire tid) s = s.
Proof.
  intros Hlater.
  set (s0 := disconnect (run history (init stored))).
  assert (Hwf0 : wf s0) by apply wf_disconnect, wf_run, wf_init.
  assert (H0 : timers s0 = [] /\ socket s0 = None /\
               forall sid ws, sockets s0 !! sid = Some ws -> ws_handlers ws = false).
  { destruct (disconnect_fields (run history (init stored))) as (_ & _ & Hs & _ & _ & _ & Ht).
    split_and!; [|done|].
    - unfold s0. rewrite Ht. apply clear_current_timeout, wf_run, wf_init.
    - intros sid ws Hws. destruct (ws_handlers ws) eqn:Hh; [|done].
      pose proof (wf_live _ Hwf0 _ _ Hws Hh) as Hcur. unfold s0 in Hcur. congruence. }
  clearbody s0. clear Hwf0. revert s0 H0.
  induction later as [|e later IH]; intros s0 H0.
  - destruct H0 as (Ht & _). simpl. unfold due. by rewrite Ht.
  - simpl in Hlater. apply andb_prop in Hlater as [He Hlater].
    rewrite run_cons. apply IH; [done|]. by apply stopped_step.
Qed.

(** [connect] leaves a pending attempt in place. *)
Lemma connect_keeps_timeout publicKey onSignal s :
  timers (connect publicKey onSignal s) = timers s.
Proof. by destruct (connect_fields publicKey onSignal s) as (_ & _ & Ht & _). Qed.

End Browser.

(** C6.  A socket closes unexpectedly, which schedules one attempt 3000 ms
    later; the service is then connected afresh and the new socket opens.
    The scheduled attempt is still pending, and when it fires it closes the
    open socket and creates yet another one: a new [connect] does not keep
    the earlier reconnection attempt from firing, although [disconnect] and
    the close handler both cancel it before going on. *)
Theorem reconnect_fires_after_new_connect :
  let s := example_run [Connect "me" 0; SocketOpen 0; SocketClose 0;
                        Connect "me" 0; SocketOpen 1; Tick 3000] (init None) in
  timers s = [(0, 3000)%nat] /\ socket s = Some 1%nat /\ ready_of s 1 = OPEN
  /\ let s' := example_step (TimerFire 0) s in
     socket s' = Some 2%nat /\ ready_of s' 1 = CLOSING /\ ready_of s' 2 = CONNECTING
     /\ timers s' = [].
Proof. vm_compute. by split_and!. Qed.

Lemma queue_flush_fifo_witness :
  (fun f => payload f.2)
    <$> wire (example_step (SocketOpen 0)
                (example_run [SendSignal "a" offer JNull; SendSignal "b" answer JNull]
                   (example_run [Connect "me" 0] (init None))))
  = [("a", offer, JNull); ("b", answer, JNull)].
Proof.
  assert (Hno : not_open (example_run [Connect "me" 0] (init None))).
  { intros sid [= <-]. vm_compute. congruence. }
  pose proof (queue_flush_fifo any_url no_room parse_example None
                [Connect "me" 0] [SendSignal "a" offer JNull; SendSignal "b" answer JNull]
                [] 0 "ws://localhost:8080" Hno eq_refl eq_refl eq_refl)
    as (_ & _ & _ & H & _).
  exact H.
Defined.


Lemma disconnect_discards_queue_witness :
  is_Some (socket (example_run [Connect "me" 0; SendSignal "a" offer JNull] (init None)))
  /\ signalQueue (Signaling.setRelayUrl any_url no_room "ws://elsewhere"
                    (example_run [Connect "me" 0; SendSignal "a" offer JNull] (init None)))
     = [].
Proof.
  assert (Hs : is_Some (socket (example_run [Connect "me" 0; SendSignal "a" offer JNull]
                                  (init None)))).
  { exists 0%nat. reflexivity. }
  split; [exact Hs|].
  exact (proj1 (proj2 (disconnect_discards_queue any_url no_room parse_example
                         (example_run [Connect "me" 0; SendSignal "a" offer JNull] (init None))
                         "ws://elsewhere" [SocketOpen 1]) Hs)).
Defined.

Lemma send_before_connect_witness :
  forallb (fun e => negb (is_connect e))
    [SendSignal "a" offer JNull; Disconnect; SetRelayUrl "ws://elsewhere"; Tick 5] = true
  /\ Signaling.sendSignal any_url "b" offer JNull
       (example_run [SendSignal "a" offer JNull; Disconnect; SetRelayUrl "ws://elsewhere";
                     Tick 5] (init None))
     = example_run [SendSignal "a" offer JNull; Disconnect; SetRelayUrl "ws://elsewhere";
                    Tick 5] (init None).
Proof.
  split; [reflexivity|].
  exact (proj2 (send_before_connect any_url no_room parse_example None
                  [SendSignal "a" offer JNull; Disconnect; SetRelayUrl "ws://elsewhere"; Tick 5]
                  "b" offer JNull eq_refl)).
Defined.

End SignalingFacts.

(** ** The peer connection manager *)

Module WebRTCFacts.
Import JS WebRTC.
Local Open Scope list_scope.
Local Open Scope nat_scope.

(** *** maps *)

Section JsMap.
Context {V : Type}.
Implicit Types (m : list (string * V)) (k : string) (v : V).

Lemma map_get_set_eq k v m : map_get k (map_set k v m) = Some v.
Proof.
  induction m as [|[k' v'] m IH]; simpl.
  - by rewrite decide_True.
  - destruct (decide (k = k')) as [->|Hne]; simpl.
    + by rewrite decide_True.
    + by rewrite decide_False.
Qed.

Lemma map_get_set_ne k k' v m : k' <> k -> map_get k' (map_set k v m) = map_get k' m.
Proof.
  intros Hne. induction m as [|[k0 v0] m IH]; simpl.
  - by rewrite decide_False.
  - destruct (decide (k = k0)) as [->|Hk]; simpl.
    + by rewrite !decide_False.
    + destruct (decide (k' = k0)); [done|apply IH].
Qed.

Lemma keys_map_set k v m x : x ∈ (map_set k v m).*1 <-> x = k \/ x ∈ m.*1.
Proof.
  induction m as [|[k' v'] m IH]; simpl.
  - rewrite list_elem_of_singleton, elem_of_nil. tauto.
  - destruct (decide (k = k')) as [->|Hne]; simpl; rewrite !elem_of_cons; [tauto|].
    rewrite IH. tauto.
Qed.

Lemma NoDup_map_set k v m : NoDup m.*1 -> NoDup (map_set k v m).*1.
Proof.
  induction m as [|[k' v'] m IH]; simpl; intros Hnd.
  - apply NoDup_singleton.
  - apply NoDup_cons in Hnd as [Hk' Hnd].
    destruct (decide (k = k')) as [->|Hne]; simpl; apply NoDup_cons; split; try done.
    + rewrite keys_map_set. intros [?|?]; [congruence|done].
    + by apply IH.
Qed.

Lemma keys_map_delete k m x : x ∈ (map_delete k m).*1 -> x ∈ m.*1.
Proof.
  induction m as [|[k' v'] m IH]; simpl; [done|].
  destruct (decide (k = k')); simpl; rewrite !elem_of_cons; [by right|].
  intros [?|?]; [by left|right; by apply IH].
Qed.

Lemma NoDup_map_delete k m : NoDup m.*1 -> NoDup (map_delete k m).*1.
Proof.
  induction m as [|[k' v'] m IH]; simpl; intros Hnd; [done|].
  apply NoDup_cons in Hnd as [Hk' Hnd].
  destruct (decide (k = k')); simpl; [done|].
  apply NoDup_cons. split; [|by apply IH]. intros Hin. by apply keys_map_delete in Hin.
Qed.

Lemma entries_absent k m : k ∉ m.*1 -> entries k m = 0.
Proof.
  unfold entries. induction m as [|[k' v'] m IH]; simpl; intros Hk; [done|].
  apply not_elem_of_cons in Hk as [Hne Hk].
  rewrite filter_cons_False by (simpl; congruence). by apply IH.
Qed.

Lemma entries_NoDup k m : NoDup m.*1 -> entries k m <= 1.
Proof.
  unfold entries. induction m as [|[k' v'] m IH]; simpl; intros Hnd; [lia|].
  apply NoDup_cons in Hnd as [Hk' Hnd].
  destruct (decide (k' = k)) as [->|Hne].
  - rewrite filter_cons_True by done. simpl.
    pose proof (entries_absent k m Hk') as H0. unfold entries in H0. lia.
  - rewrite filter_cons_False by done. by apply IH.
Qed.

Lemma entries_present k v m : NoDup m.*1 -> map_get k m = Some v -> entries k m = 1.
Proof.
  unfold entries. induction m as [|[k' v'] m IH]; simpl; intros Hnd Hget; [done|].
  apply NoDup_cons in Hnd as [Hk' Hnd].
  destruct (decide (k = k')) as [->|Hne].
  - rewrite filter_cons_True by done. simpl.
    pose proof (entries_absent k' m Hk') as H0. unfold entries in H0. lia.
  - rewrite filter_cons_False by (simpl; congruence). by apply IH.
Qed.

End JsMap.

(** *** at most one entry per peer *)

Lemma createPeerConnection_fields peerKey s :
  let s' := (createPeerConnection peerKey s).1 in
  connections s' = map_set peerKey (length (pcs s)) (connections s)
  /\ (createPeerConnection peerKey s).2 = length (pcs s)
  /\ dataChannels s' = dataChannels s /\ channels s' = channels s
  /\ pcs s' = pcs s ++ [Build_PeerConnection peerKey true false]
  /\ pending s' = pending s /\ signaling s' = signaling s /\ sent s' = sent s
  /\ statusCallbacks s' = statusCallbacks s.
Proof. by split_and!. Qed.

Lemma connectToPeer_fields peerKey s :
  is_open peerKey s = false ->
  let s' := connectToPeer peerKey s in
  connections s' = map_set peerKey (length (pcs s)) (connections s)
  /\ dataChannels s' = map_set peerKey (length (channels s)) (dataChannels s)
  /\ pcs s' = pcs s ++ [Build_PeerConnection peerKey true false]
  /\ channels s' = channels s
       ++ [Build_DataChannel (length (pcs s)) "chat" ch_connecting (Some peerKey)]
  /\ pending s' = pending s ++ [AwaitOffer peerKey (length (pcs s))]
  /\ signaling s' = signaling s /\ sent s' = sent s
  /\ statusCallbacks s' = statusCallbacks s.
Proof.
  intros Hopen. unfold connectToPeer. rewrite Hopen. simpl. split_and!; try done.
  assert (Hlen : length (channels s) = length (channels s) + 0) by lia.
  rewrite Hlen at 1. by rewrite alter_app_r.
Qed.

Lemma keys_unique_step e s :
  NoDup (connections s).*1 /\ NoDup (dataChannels s).*1 ->
  NoDup (connections (step e s)).*1 /\ NoDup (dataChannels (step e s)).*1.
Proof.
  intros [Hc Hd]. destruct e; simpl.
  - split; apply NoDup_nil_2.
  - split; apply NoDup_nil_2.
  - destruct (is_open peerKey s) eqn:Hopen.
    + unfold connectToPeer. by rewrite Hopen.
    + destruct (connectToPeer_fields peerKey s Hopen) as (-> & -> & _).
      split; by apply NoDup_map_set.
  - unfold sendMessage. destruct (map_get _ _); [|done].
    destruct (channel_state _ _); try done. by destruct outcome.
  - done.
  - unfold handleSignal.
    destruct (map_get _ (connections s)); simpl; destruct (Signaling.sm_type signal);
      simpl; split; try done; by apply NoDup_map_set.
  - unfold resume. destruct (pending s !! n) as [[]|]; destruct result; done.
  - destruct (pcs s !! pc) as [[k [] c]|]; try done.
    unfold onicecandidate. by destruct candidate.
  - destruct (pcs s !! pc) as [[k [] c]|]; try done.
    unfold notify. by destruct (map_get _ _).
  - destruct (pcs s !! pc) as [[k [] c]|]; try done.
    simpl. split; [done|]. by apply NoDup_map_set.
  - destruct (channels s !! ch) as [[o l [] [k|]]|]; try done;
      unfold notify; simpl; by destruct (map_get _ _).
  - destruct (channels s !! ch) as [[o l [] [k|]]|]; try done;
      unfold channel_onclose, notify; simpl; destruct (map_get _ _); simpl;
      split; try done; by apply NoDup_map_delete.
  - destruct (channels s !! ch) as [[o l [] [k|]]|]; try done.
    unfold channel_onmessage. by destruct (onMessageCallback s).
Qed.

Lemma keys_unique_run events :
  NoDup (connections (run events init_state)).*1
  /\ NoDup (dataChannels (run events init_state)).*1.
Proof.
  induction events as [|e events IH] using rev_ind.
  - split; apply NoDup_nil_2.
  - unfold run. rewrite foldl_app. simpl. by apply keys_unique_step.
Qed.

(** C5.  Whatever calls and events the manager has gone through, the map
    of negotiation objects and the map of data channels each hold at most one
    entry for any peer key. *)
Theorem one_session_per_peer events peerKey :
  entries peerKey (connections (run events init_state)) <= 1
  /\ entries peerKey (dataChannels (run events init_state)) <= 1.
Proof.
  destruct (keys_unique_run events) as [Hc Hd].
  split; by apply entries_NoDup.
Qed.

(** The maps hold one entry per peer, but an object that was replaced in
    them is neither closed nor detached: after two calls for the same peer
    both negotiation objects still have their handlers. *)
Example replaced_negotiation_stays_alive :
  connections (run [ConnectToPeer "k"; ConnectToPeer "k"] init_state) = [("k", 1)]
  /\ pcs (run [ConnectToPeer "k"; ConnectToPeer "k"] init_state)
     = [Build_PeerConnection "k" true false; Build_PeerConnection "k" true false].
Proof. split; reflexivity. Qed.

(** *** sending *)

Lemma is_open_spec peerKey s :
  is_open peerKey s = true
  <-> exists ch, map_get peerKey (dataChannels s) = Some ch /\ channel_state s ch = ch_open.
Proof.
  unfold is_open. destruct (map_get peerKey (dataChannels s)) as [ch|].
  - destruct (channel_state s ch) eqn:Hst; split; try done; try by eauto.
    all: intros (ch' & [= <-] & Hopen); congruence.
  - split; [done|]. by intros (ch & ? & _).
Qed.

Lemma sendMessage_cases peerKey message outcome s :
  (exists ch, map_get peerKey (dataChannels s) = Some ch /\ channel_state s ch = ch_open
     /\ sendMessage peerKey message outcome s
        = match outcome with
          | None => (Normal true, set_sent (sent s ++ [(ch, message)]) s)
          | Some e => (Throw e, s)
          end)
  \/ ((~ exists ch, map_get peerKey (dataChannels s) = Some ch
                    /\ channel_state s ch = ch_open)
      /\ sendMessage peerKey message outcome s = (Normal false, s)).
Proof.
  unfold sendMessage. destruct (map_get peerKey (dataChannels s)) as [ch|] eqn:Hch.
  - destruct (channel_state s ch) eqn:Hst.
    2: { left. exists ch. by destruct outcome. }
    all: right; split; [|done]; intros (ch' & [= <-] & ?); congruence.
  - right. split; [|done]. by intros (ch & ? & _).
Qed.

(** C7, as stated, fails: with the channel of a peer registered and
    open, [sendMessage] returns neither [true] nor [false] when
    [channel.send] throws (a payload above the size limit of the channel, a
    full buffer); the exception leaves [sendMessage], and nothing is
    transmitted. *)
Lemma sendMessage_throws_on_open_channel :
  map_get "k" (dataChannels (run [ConnectToPeer "k"; ChannelOpen 0] init_state)) = Some 0
  /\ channel_state (run [ConnectToPeer "k"; ChannelOpen 0] init_state) 0 = ch_open
  /\ (sendMessage "k" "payload" (Some TypeError)
        (run [ConnectToPeer "k"; ChannelOpen 0] init_state)).1 = Throw TypeError
  /\ sent (sendMessage "k" "payload" (Some TypeError)
             (run [ConnectToPeer "k"; ChannelOpen 0] init_state)).2 = [].
Proof. by split_and!. Qed.

(** C7, amended.  [sendMessage] returns [true] exactly when the map of
    data channels has a channel for the peer, that channel is open and
    [channel.send] takes the message, which is then the one thing that
    changes: the message is handed to that channel.  It returns [false]
    exactly when there is no such channel or the channel is not open.  It
    throws exactly when the channel is open and [channel.send] throws, with
    that exception.  Whenever the result is not [true], nothing is handed to
    any channel and the state is the one it was called in. *)
Theorem sendMessage_delivers_iff_accepted peerKey message outcome s :
  let result := (sendMessage peerKey message outcome s).1 in
  let s' := (sendMessage peerKey message outcome s).2 in
  (result = Normal true
   <-> exists ch, map_get peerKey (dataChannels s) = Some ch /\ channel_state s ch = ch_open
                  /\ outcome = None)
  /\ (result = Normal false
      <-> ~ exists ch, map_get peerKey (dataChannels s) = Some ch
                       /\ channel_state s ch = ch_open)
  /\ (forall e, result = Throw e
      <-> (exists ch, map_get peerKey (dataChannels s) = Some ch
                      /\ channel_state s ch = ch_open) /\ outcome = Some e)
  /\ (forall ch, map_get peerKey (dataChannels s) = Some ch -> result = Normal true ->
        sent s' = sent s ++ [(ch, message)])
  /\ (result <> Normal true -> sent s' = sent s /\ s' = s)
  /\ connections s' = connections s /\ dataChannels s' = dataChannels s
  /\ statusCallbacks s' = statusCallbacks s /\ onMessageCallback s' = onMessageCallback s
  /\ myPublicKey s' = myPublicKey s /\ pcs s' = pcs s /\ channels s' = channels s
  /\ pending s' = pending s /\ signaling s' = signaling s /\ statuses s' = statuses s
  /\ received s' = received s.
Proof.
  destruct (sendMessage_cases peerKey message outcome s)
    as [(ch & Hch & Hst & ->)|(Hno & ->)].
  - assert (Hyes : exists ch, map_get peerKey (dataChannels s) = Some ch
                              /\ channel_state s ch = ch_open) by eauto.
    destruct outcome as [e|]; cbn.
    + split_and!; [| | | | |done..].
      * split; [done|]. by intros (? & _ & _ & ?).
      * split; [done|]. by intros ?.
      * intros e'. split; [intros [= ->]; by split|]. by intros [_ [= ->]].
      * done.
      * done.
    + split_and!; [| | | | |done..].
      * split; [by eauto|done].
      * split; [done|]. by intros ?.
      * intros e'. split; [done|]. by intros [_ ?].
      * intros ch' Hch' _. rewrite Hch in Hch'. by injection Hch' as <-.
      * done.
  - cbn. split_and!; [| | | | |done..].
    + split; [done|]. intros (ch & ? & ? & _). destruct Hno. eauto.
    + done.
    + intros e. split; [done|]. by intros [? _].
    + done.
    + done.
Qed.

Lemma sendMessage_delivers_iff_accepted_witness :
  (sendMessage "k" "hi" None (run [ConnectToPeer "k"; ChannelOpen 0] init_state)).1
  = Normal true
  /\ sent (sendMessage "k" "hi" None (run [ConnectToPeer "k"; ChannelOpen 0] init_state)).2
     = sent (run [ConnectToPeer "k"; ChannelOpen 0] init_state) ++ [(0, "hi")].
Proof.
  pose proof (sendMessage_delivers_iff_accepted "k" "hi" None
                (run [ConnectToPeer "k"; ChannelOpen 0] init_state))
    as (Htrue & _ & _ & Hsent & _).
  assert (H : (sendMessage "k" "hi" None
                 (run [ConnectToPeer "k"; ChannelOpen 0] init_state)).1 = Normal true).
  { apply Htrue. exists 0. by split_and!. }
  split; [exact H|]. apply (Hsent 0); [reflexivity|exact H].
Defined.

(** *** initiating a connection *)

(** C3, as stated, fails: with a negotiation for a peer in progress (its
    channel still connecting, its offer still awaited), a second
    [connectToPeer] installs a new negotiation object and a new channel in
    place of the first ones, and both calls go on to emit an offer. *)
Lemma connectToPeer_restarts_negotiation :
  (map_get "k" (connections (run [ConnectToPeer "k"] init_state)) = Some 0
   /\ map_get "k" (dataChannels (run [ConnectToPeer "k"] init_state)) = Some 0
   /\ channel_state (run [ConnectToPeer "k"] init_state) 0 = ch_connecting
   /\ pending (run [ConnectToPeer "k"] init_state) = [AwaitOffer "k" 0])
  /\ connectToPeer "k" (run [ConnectToPeer "k"] init_state)
     <> run [ConnectToPeer "k"] init_state
  /\ map_get "k" (connections (connectToPeer "k" (run [ConnectToPeer "k"] init_state)))
     = Some 1
  /\ map_get "k" (dataChannels (connectToPeer "k" (run [ConnectToPeer "k"] init_state)))
     = Some 1
  /\ signaling (run [Resume 0 (Normal (JStr "sdp 0")); Resume 0 (Normal (JStr "sdp 1"))]
                  (connectToPeer "k" (run [ConnectToPeer "k"] init_state)))
     = [CallSendSignal "k" Signaling.offer (JStr "sdp 0");
        CallSendSignal "k" Signaling.offer (JStr "sdp 1")].
Proof. split_and!; try reflexivity. intros H. discriminate H. Qed.

(** C3, amended.  In a reachable state, [connectToPeer] changes nothing
    when the channel registered for the peer is open.  Otherwise it creates a
    negotiation object and a channel that did not exist before: afterwards
    there is one object more of each kind, the new negotiation object has its
    handlers and is not closed, the new channel is the [chat] channel of that
    object, connecting, with handlers for the peer, and every object that
    existed before is as it was.  The two new objects are registered for the
    peer in place of whatever was registered (each map then holds exactly one
    entry for the peer, and other peers keep theirs).  Nothing is emitted
    yet; the offer is emitted once its description is available. *)
Theorem connectToPeer_noop_when_open history peerKey :
  let s := run history init_state in
  ((exists ch, map_get peerKey (dataChannels s) = Some ch /\ channel_state s ch = ch_open) ->
   connectToPeer peerKey s = s)
  /\ ((forall ch, map_get peerKey (dataChannels s) = Some ch -> channel_state s ch <> ch_open) ->
      let s' := connectToPeer peerKey s in
      pcs s !! length (pcs s) = None /\ channels s !! length (channels s) = None
      /\ length (pcs s') = S (length (pcs s))
      /\ length (channels s') = S (length (channels s))
      /\ pcs s' !! length (pcs s) = Some (Build_PeerConnection peerKey true false)
      /\ channels s' !! length (channels s)
         = Some (Build_DataChannel (length (pcs s)) "chat" ch_connecting (Some peerKey))
      /\ (forall i, i < length (pcs s) -> pcs s' !! i = pcs s !! i)
      /\ (forall i, i < length (channels s) -> channels s' !! i = channels s !! i)
      /\ map_get peerKey (connections s') = Some (length (pcs s))
      /\ map_get peerKey (dataChannels s') = Some (length (channels s))
      /\ channel_state s' (length (channels s)) = ch_connecting
      /\ entries peerKey (connections s') = 1 /\ entries peerKey (dataChannels s') = 1
      /\ (forall k, k <> peerKey ->
            map_get k (connections s') = map_get k (connections s)
            /\ map_get k (dataChannels s') = map_get k (dataChannels s))
      /\ signaling s' = signaling s
      /\ forall description,
           signaling (resume (length (pending s)) (Normal description) s')
           = signaling s ++ [CallSendSignal peerKey Signaling.offer description]).
Proof.
  intros s. split.
  - intros Hopen%is_open_spec. unfold connectToPeer. by rewrite Hopen.
  - intros Hclosed.
    assert (Hopen : is_open peerKey s = false).
    { destruct (is_open peerKey s) eqn:Ho; [|done].
      apply is_open_spec in Ho as (ch & Hch & Hst). by destruct (Hclosed ch Hch). }
    destruct (connectToPeer_fields peerKey s Hopen)
      as (Hc & Hd & Hp & Hch & Hpend & Hsig & _).
    destruct (keys_unique_run history) as [Hndc Hndd]. fold s in Hndc, Hndd.
    cbv zeta. split_and!.
    + by apply lookup_ge_None_2.
    + by apply lookup_ge_None_2.
    + rewrite Hp, length_app. simpl. lia.
    + rewrite Hch, length_app. simpl. lia.
    + rewrite Hp. by rewrite list_lookup_middle.
    + rewrite Hch. by rewrite list_lookup_middle.
    + intros i Hi. rewrite Hp. by apply lookup_app_l.
    + intros i Hi. rewrite Hch. by apply lookup_app_l.
    + rewrite Hc. apply map_get_set_eq.
    + rewrite Hd. apply map_get_set_eq.
    + unfold channel_state. rewrite Hch. by rewrite list_lookup_middle.
    + rewrite Hc. eapply entries_present; [by apply NoDup_map_set|apply map_get_set_eq].
    + rewrite Hd. eapply entries_present; [by apply NoDup_map_set|apply map_get_set_eq].
    + intros k Hk. rewrite Hc, Hd. split; by apply map_get_set_ne.
    + done.
    + intros description. unfold resume. rewrite Hpend.
      rewrite list_lookup_middle by done. simpl. by rewrite Hsig.
Qed.

Lemma connectToPeer_noop_when_open_witness :
  ((exists ch,
       map_get "k" (dataChannels (run [ConnectToPeer "k"; ChannelOpen 0] init_state)) = Some ch
       /\ channel_state (run [ConnectToPeer "k"; ChannelOpen 0] init_state) ch = ch_open)
   /\ connectToPeer "k" (run [ConnectToPeer "k"; ChannelOpen 0] init_state)
      = run [ConnectToPeer "k"; ChannelOpen 0] init_state)
  /\ pcs (connectToPeer "k" (run [ConnectToPeer "k"] init_state)) !! 1
     = Some (Build_PeerConnection "k" true false)
  /\ channels (connectToPeer "k" (run [ConnectToPeer "k"] init_state)) !! 1
     = Some (Build_DataChannel 1 "chat" ch_connecting (Some "k"))
  /\ pcs (connectToPeer "k" (run [ConnectToPeer "k"] init_state)) !! 0
     = pcs (run [ConnectToPeer "k"] init_state) !! 0.
Proof.
  assert (H : exists ch,
      map_get "k" (dataChannels (run [ConnectToPeer "k"; ChannelOpen 0] init_state)) = Some ch
      /\ channel_state (run [ConnectToPeer "k"; ChannelOpen 0] init_state) ch = ch_open).
  { exists 0. split; reflexivity. }
  assert (Hbusy : forall ch,
      map_get "k" (dataChannels (run [ConnectToPeer "k"] init_state)) = Some ch ->
      channel_state (run [ConnectToPeer "k"] init_state) ch <> ch_open).
  { intros ch [= <-]. discriminate. }
  split.
  - split; [exact H|].
    exact (proj1 (connectToPeer_noop_when_open [ConnectToPeer "k"; ChannelOpen 0] "k") H).
  - destruct (proj2 (connectToPeer_noop_when_open [ConnectToPeer "k"] "k") Hbusy)
      as (_ & _ & _ & _ & Hpc & Hch & Hold & _).
    split_and!; [exact Hpc|exact Hch|apply Hold; simpl; lia].
Defined.

End WebRTCFacts.

(** ** Hexadecimal text, signing, fingerprints *)

Module HexFacts.
Import JS Crypto Fingerprint.
Local Open Scope list_scope.

Lemma append_cons c (s t : string) : (String c s ++ t)%string = String c (s ++ t)%string.
Proof. reflexivity. Qed.

Lemma append_nil_r (s : string) : (s ++ EmptyString)%string = s.
Proof. induction s as [|c s IH]; [done|]. by rewrite append_cons, IH. Qed.

Lemma length_append (s t : string) :
  String.length (s ++ t)%string = (String.length s + String.length t)%nat.
Proof. induction s as [|c s IH]; [done|]. rewrite append_cons. simpl. by rewrite IH. Qed.

Lemma bufferToHex_cons b bs :
  bufferToHex (b :: bs)
  = String (hex_digit (Z.to_N b / 16)) (String (hex_digit (Z.to_N b mod 16)) (bufferToHex bs)).
Proof. unfold bufferToHex. destruct bs; reflexivity. Qed.

Lemma length_bufferToHex bs : String.length (bufferToHex bs) = (2 * length bs)%nat.
Proof.
  induction bs as [|b bs IH]; [done|].
  rewrite bufferToHex_cons. simpl. rewrite IH. lia.
Qed.

Lemma substring_bufferToHex bs k b :
  bs !! k = Some b -> substring (2 * k) 2 (bufferToHex bs) = byte_to_hex b.
Proof.
  revert k. induction bs as [|b0 bs IH]; intros k Hk; [done|].
  rewrite bufferToHex_cons. destruct k as [|k]; simpl in Hk.
  - injection Hk as ->. simpl. by destruct (bufferToHex bs).
  - replace (2 * S k)%nat with (S (S (2 * k))) by lia. simpl. by apply IH.
Qed.

Lemma parse_byte_to_hex b : is_byte b -> to_uint8 (parseInt16 (byte_to_hex b)) = b.
Proof.
  intros [Hlo Hhi].
  assert (Hall : forallb (fun n => Z.eqb (to_uint8 (parseInt16 (byte_to_hex (Z.of_nat n))))
                                     (Z.of_nat n)) (seq 0 256) = true) by (vm_compute; reflexivity).
  rewrite forallb_forall in Hall.
  specialize (Hall (Z.to_nat b)). rewrite Z2Nat.id in Hall by done.
  apply Z.eqb_eq, Hall, in_seq. lia.
Qed.

(** Writing [f k] into slot [k] for every [k] of an array of [n] slots. *)
Lemma fill_slots {A} (f : nat -> A) (d : A) n :
  foldl (fun l k => <[k := f k]> l) (replicate n d) (seq 0 n) = f <$> seq 0 n.
Proof.
  assert (Hgen : forall j, (j <= n)%nat ->
    foldl (fun l k => <[k := f k]> l) (replicate n d) (seq 0 j)
    = (f <$> seq 0 j) ++ replicate (n - j) d).
  { induction j as [|j IH]; intros Hj.
    - simpl. by rewrite Nat.sub_0_r.
    - rewrite seq_S, foldl_app, IH by lia. simpl.
      rewrite fmap_app. simpl.
      replace (n - j)%nat with (S (n - S j)) by lia. simpl.
      assert (Hlen : length (f <$> seq 0 j) = j) by by rewrite length_fmap, length_seq.
      rewrite insert_app_r_alt by lia. rewrite Hlen, Nat.sub_diag. simpl.
      by rewrite <- app_assoc. }
  rewrite Hgen by lia. by rewrite Nat.sub_diag, app_nil_r.
Qed.

Lemma hexToBuffer_bufferToHex bs : Forall is_byte bs -> hexToBuffer (bufferToHex bs) = bs.
Proof.
  intros Hbytes. unfold hexToBuffer. rewrite length_bufferToHex.
  assert (H1 : (2 * length bs / 2)%nat = length bs)
    by (rewrite (Nat.mul_comm 2); apply Nat.div_mul; lia).
  assert (H2 : ((2 * length bs + 1) / 2)%nat = length bs).
  { rewrite (Nat.mul_comm 2), Nat.div_add_l by lia. simpl. lia. }
  rewrite H1, H2.
  rewrite (fill_slots (fun k => to_uint8 (parseInt16 (substring (2 * k) 2 (bufferToHex bs))))).
  apply list_eq. intros k. rewrite list_lookup_fmap.
  destruct (bs !! k) as [b|] eqn:Hk.
  - rewrite lookup_seq_lt by (by eapply lookup_lt_Some).
    change (0 + k)%nat with k. cbn [fmap option_fmap option_map].
    rewrite (substring_bufferToHex _ _ _ Hk). f_equal. apply parse_byte_to_hex.
    by eapply Forall_lookup_1.
  - rewrite lookup_seq_ge by (by apply lookup_ge_None). done.
Qed.

Lemma hexToBuffer_length hex : length (hexToBuffer hex) = (String.length hex / 2)%nat.
Proof.
  unfold hexToBuffer. generalize (seq 0 ((String.length hex + 1) / 2)).
  generalize (String.length hex / 2)%nat. intros n ks.
  assert (Hgen : forall l, length (foldl (fun bytes k =>
            <[k := to_uint8 (parseInt16 (substring (2 * k) 2 hex))]> bytes) l ks) = length l).
  { induction ks as [|k ks IH]; intros l; simpl; [done|]. by rewrite IH, length_insert. }
  by rewrite Hgen, length_replicate.
Qed.

Lemma to_uint8_byte v : is_byte (to_uint8 v).
Proof. destruct v as [n|]; simpl; unfold is_byte; [apply Z.mod_pos_bound|]; lia. Qed.

Lemma hexToBuffer_bytes hex : Forall is_byte (hexToBuffer hex).
Proof.
  unfold hexToBuffer. generalize (seq 0 ((String.length hex + 1) / 2)).
  generalize (String.length hex / 2)%nat. intros n ks.
  assert (Hgen : forall l, Forall is_byte l -> Forall is_byte (foldl (fun bytes k =>
            <[k := to_uint8 (parseInt16 (substring (2 * k) 2 hex))]> bytes) l ks)).
  { induction ks as [|k ks IH]; intros l Hl; simpl; [done|].
    apply IH, Forall_insert; [done|apply to_uint8_byte]. }
  apply Hgen, Forall_replicate. unfold is_byte. lia.
Qed.

Lemma length_substring s n m :
  String.length (substring n m s) = Nat.min m (String.length s - n).
Proof.
  revert n m. induction s as [|c s IH]; intros [|n] [|m]; simpl;
    rewrite ?IH, ?Nat.sub_0_r; done.
Qed.

Lemma substring_forall p s n m :
  string_forall p s = true -> string_forall p (substring n m s) = true.
Proof.
  revert n m. induction s as [|c s IH]; intros [|n] [|m]; simpl; try done.
  - intros [-> Hs]%andb_prop. simpl. by apply IH.
  - intros [_ Hs]%andb_prop. by apply IH.
  - intros [_ Hs]%andb_prop. by apply IH.
Qed.

Lemma hex_digit_lower n : (n < 16)%N -> is_lower_hex (hex_digit n) = true.
Proof.
  intros Hn.
  assert (Hall : forallb (fun k => is_lower_hex (hex_digit (N.of_nat k))) (seq 0 16) = true)
    by (vm_compute; reflexivity).
  rewrite forallb_forall in Hall. specialize (Hall (N.to_nat n)).
  rewrite N2Nat.id in Hall. apply Hall, in_seq. lia.
Qed.

Lemma bufferToHex_lower bs :
  Forall is_byte bs -> string_forall is_lower_hex (bufferToHex bs) = true.
Proof.
  induction 1 as [|b bs [Hlo Hhi] _ IH]; [done|].
  rewrite bufferToHex_cons. cbn [string_forall]. rewrite IH.
  rewrite !hex_digit_lower; [done| |].
  - apply N.mod_lt. lia.
  - apply N.Div0.div_lt_upper_bound. lia.
Qed.

Lemma upper_of_lower_hex c : is_lower_hex c = true -> is_upper_hex (ascii_upper c) = true.
Proof. destruct c as [[] [] [] [] [] [] [] []]; vm_compute; congruence. Qed.

Lemma lower_hex_is_ascii c : is_lower_hex c = true -> is_ascii c = true.
Proof. destruct c as [[] [] [] [] [] [] [] []]; vm_compute; congruence. Qed.

Lemma string_forall_impl (p q : ascii -> bool) s :
  (forall c, p c = true -> q c = true) -> string_forall p s = true -> string_forall q s = true.
Proof.
  intros Hpq. induction s as [|c s IH]; simpl; [done|].
  intros [Hc Hs]%andb_prop. by rewrite (Hpq c Hc), IH.
Qed.

Lemma string_map_upper_hex s :
  string_forall is_lower_hex s = true ->
  string_forall is_upper_hex (string_map ascii_upper s) = true
  /\ String.length (string_map ascii_upper s) = String.length s.
Proof.
  induction s as [|c s IH]; simpl; [done|].
  intros [Hc Hs]%andb_prop. destruct (IH Hs) as [-> ->].
  by rewrite upper_of_lower_hex.
Qed.

(** X1.  Hex encoding is faithful: a buffer of n bytes is written as 2n
    characters, and decoding them gives the buffer back. *)
Theorem hex_round_trip bs :
  Forall is_byte bs ->
  String.length (bufferToHex bs) = (2 * length bs)%nat /\ hexToBuffer (bufferToHex bs) = bs.
Proof. intros Hbytes. split; [apply length_bufferToHex|by apply hexToBuffer_bufferToHex]. Qed.

(** X2.  Decoding never fails and never reads out of range: for any
    text, well-formed or not, [hexToBuffer] returns half as many bytes as
    the text has characters, rounded down, each between 0 and 255. *)
Theorem hexToBuffer_shape hex :
  length (hexToBuffer hex) = (String.length hex / 2)%nat /\ Forall is_byte (hexToBuffer hex).
Proof. split; [apply hexToBuffer_length|apply hexToBuffer_bytes]. Qed.

Section Fingerprints.

Variable SHA256 : list Z -> list Z.
Variable toUpperCase : string -> string.

(** What the platform guarantees: a digest is 32 bytes, and upper-casing
    a text of code units below 128 works unit by unit. *)
Hypothesis digest_size : forall bytes, length (SHA256 bytes) = 32%nat.
Hypothesis digest_bytes : forall bytes, Forall is_byte (SHA256 bytes).
Hypothesis upper_ascii :
  forall s, string_forall is_ascii s = true -> toUpperCase s = string_map ascii_upper s.

(** X3.  A fingerprint is a text of exactly 16 characters, each one of
    [0-9A-F], whatever the key text it is computed from (also the empty
    one). *)
Theorem fingerprint_shape publicKeyHex :
  String.length (generateFingerprint SHA256 toUpperCase publicKeyHex) = 16%nat
  /\ string_forall is_upper_hex (generateFingerprint SHA256 toUpperCase publicKeyHex) = true.
Proof.
  unfold generateFingerprint.
  set (digest := SHA256 (textEncoder_encode publicKeyHex)).
  assert (Hlower : string_forall is_lower_hex (substring 0 16 (bufferToHex digest)) = true).
  { apply substring_forall, bufferToHex_lower, digest_bytes. }
  rewrite upper_ascii by (eapply string_forall_impl; [apply lower_hex_is_ascii|done]).
  destruct (string_map_upper_hex _ Hlower) as [Hup Hlen].
  split; [|done].
  rewrite Hlen, length_substring, length_bufferToHex. unfold digest.
  rewrite digest_size. reflexivity.
Qed.

End Fingerprints.

Lemma hex_round_trip_witness :
  String.length (bufferToHex [0; 255; 16]) = (2 * length [0; 255; 16])%nat
  /\ hexToBuffer (bufferToHex [0; 255; 16]) = [0; 255; 16].
Proof.
  apply (hex_round_trip [0; 255; 16]). repeat constructor; unfold is_byte; lia.
Defined.

Lemma fingerprint_shape_witness :
  String.length (generateFingerprint toy_digest (string_map ascii_upper) "3059") = 16%nat
  /\ string_forall is_upper_hex
       (generateFingerprint toy_digest (string_map ascii_upper) "3059") = true.
Proof.
  apply (fingerprint_shape toy_digest (string_map ascii_upper)).
  - intros bytes. reflexivity.
  - intros bytes. unfold toy_digest. apply Forall_fmap, Forall_forall.
    intros i _. unfold is_byte. simpl. apply Z.mod_pos_bound. lia.
  - intros s _. reflexivity.
Defined.

End HexFacts.

Module SignFacts.
Import JS Crypto CanonicalForm Fingerprint.
Local Open Scope list_scope.

Section WebCrypto.

Variable CryptoKey : Type.
Variable importKey_spki : list Z -> completion CryptoKey.
Variable importKey_pkcs8 : list Z -> completion CryptoKey.
Variable subtle_sign : CryptoKey -> list Z -> completion (list Z).
Variable subtle_verify : CryptoKey -> list Z -> list Z -> completion bool.

Local Abbreviation sign := (sign CryptoKey importKey_pkcs8 subtle_sign).
Local Abbreviation verify := (verify CryptoKey importKey_spki subtle_verify).
Local Abbreviation signGroupMessage := (signGroupMessage CryptoKey importKey_pkcs8 subtle_sign).
Local Abbreviation verifyGroupMessage :=
  (verifyGroupMessage CryptoKey importKey_spki subtle_verify).

(** X4.  When both keys import and the primitive accepts under the public
    key the signature it made under the private key, [sign] returns the
    hexadecimal text of that signature, and the message carrying this text,
    under any identifier and delivery state, passes [verify]. *)
Theorem sign_then_verify message privateKeyHex publicKeyHex priv pub sig i st :
  importKey_pkcs8 (hexToBuffer privateKeyHex) = Normal priv ->
  importKey_spki (hexToBuffer publicKeyHex) = Normal pub ->
  subtle_sign priv (textEncoder_encode (getCanonicalMessagePayload message)) = Normal sig ->
  Forall is_byte sig ->
  subtle_verify pub sig (textEncoder_encode (getCanonicalMessagePayload message))
  = Normal true ->
  sign message privateKeyHex = Normal (bufferToHex sig)
  /\ verify (relabel i (bufferToHex sig) st message) publicKeyHex = Normal true.
Proof.
  intros Hpriv Hpub Hsign Hbytes Hverify. split.
  - unfold Crypto.sign, importPrivateKey, bind. by rewrite Hpriv, Hsign.
  - unfold Crypto.verify, importPublicKey, bind. rewrite Hpub.
    cbn [signature relabel].
    rewrite (HexFacts.hexToBuffer_bufferToHex sig Hbytes).
    rewrite (CanonicalFacts.message_payload_semantic (relabel i (bufferToHex sig) st message)
               message) by reflexivity.
    by rewrite Hverify.
Qed.

(** X5.  The same for group messages, whose verification key is the
    [senderKey] the message itself carries. *)
Theorem group_sign_then_verify message privateKeyHex priv pub sig i :
  importKey_pkcs8 (hexToBuffer privateKeyHex) = Normal priv ->
  importKey_spki (hexToBuffer (senderKey message)) = Normal pub ->
  subtle_sign priv (textEncoder_encode (getCanonicalGroupMessagePayload message))
  = Normal sig ->
  Forall is_byte sig ->
  subtle_verify pub sig (textEncoder_encode (getCanonicalGroupMessagePayload message))
  = Normal true ->
  signGroupMessage message privateKeyHex = Normal (bufferToHex sig)
  /\ verifyGroupMessage (group_relabel i (bufferToHex sig) message) = Normal true.
Proof.
  intros Hpriv Hpub Hsign Hbytes Hverify. split.
  - unfold Crypto.signGroupMessage, importPrivateKey, bind. by rewrite Hpriv, Hsign.
  - unfold Crypto.verifyGroupMessage, importPublicKey, bind.
    cbn [senderKey gm_signature group_relabel]. rewrite Hpub.
    rewrite (HexFacts.hexToBuffer_bufferToHex sig Hbytes).
    rewrite (CanonicalFacts.group_message_payload_semantic
               (group_relabel i (bufferToHex sig) message) message) by reflexivity.
    by rewrite Hverify.
Qed.

End WebCrypto.

Lemma sign_then_verify_witness :
  sign unit (fun _ => Normal tt) (fun _ data => Normal (take 4 data)) example_message "30"
  = Normal (bufferToHex (take 4 (textEncoder_encode (getCanonicalMessagePayload example_message))))
  /\ verify unit (fun _ => Normal tt)
       (fun _ sig data => Normal (bool_decide (sig = take 4 data)))
       (relabel 99
          (bufferToHex (take 4 (textEncoder_encode (getCanonicalMessagePayload example_message))))
          received example_message) "3059"
     = Normal true.
Proof.
  apply (sign_then_verify unit (fun _ => Normal tt) (fun _ => Normal tt)
           (fun _ data => Normal (take 4 data))
           (fun _ sig data => Normal (bool_decide (sig = take 4 data)))
           example_message "30" "3059" tt tt
           (take 4 (textEncoder_encode (getCanonicalMessagePayload example_message)))
           99 received); try reflexivity.
  vm_compute. repeat constructor; congruence.
Defined.

Lemma group_sign_then_verify_witness :
  verifyGroupMessage unit (fun _ => Normal tt)
    (fun _ sig data => Normal (bool_decide (sig = take 4 data)))
    (group_relabel 5
       (bufferToHex (take 4 (textEncoder_encode (getCanonicalGroupMessagePayload
          (Build_GroupMessage 1 "g" "3059" 17 "00" text "hello" None None None None None)))))
       (Build_GroupMessage 1 "g" "3059" 17 "00" text "hello" None None None None None))
  = Normal true.
Proof.
  apply (proj2 (group_sign_then_verify unit (fun _ => Normal tt) (fun _ => Normal tt)
           (fun _ data => Normal (take 4 data))
           (fun _ sig data => Normal (bool_decide (sig = take 4 data)))
           (Build_GroupMessage 1 "g" "3059" 17 "00" text "hello" None None None None None)
           "30" tt tt
           (take 4 (textEncoder_encode (getCanonicalGroupMessagePayload
              (Build_GroupMessage 1 "g" "3059" 17 "00" text "hello" None None None None None))))
           5 eq_refl eq_refl eq_refl
           ltac:(vm_compute; repeat constructor; congruence) eq_refl)).
Defined.

End SignFacts.

(** ** [truncateKey] *)

Module HelperFacts.
Import Helpers.
Local Open Scope nat_scope.

Lemma truncateKey_long key start end_ :
  start + end_ < String.length key ->
  truncateKey (Some key) start end_
  = (substring 0 start key ++ "..."
       ++ substring (String.length key - end_) (String.length key) key)%string.
Proof.
  intros Hlen. unfold truncateKey. destruct key as [|c key]; [simpl in Hlen; lia|].
  destruct (Nat.leb_spec (String.length (String c key)) (start + end_)); [lia|done].
Qed.

(** X8.  [truncateKey] gives the empty text for a missing or empty key and
    returns a key of at most [start + end] characters as it is.  A longer key
    becomes a text of exactly [start + end + 3] characters: the first [start]
    characters of the key, three dots, and the last [end] characters of the
    key. *)
Theorem truncateKey_shape key start end_ :
  truncateKey None start end_ = EmptyString
  /\ (String.length key <= start + end_ -> truncateKey (Some key) start end_ = key)
  /\ (start + end_ < String.length key ->
      String.length (truncateKey (Some key) start end_) = start + end_ + 3
      /\ (forall i, i < start ->
            get i (truncateKey (Some key) start end_) = get i key)
      /\ (forall i, i < 3 ->
            get (start + i) (truncateKey (Some key) start end_) = Some "."%char)
      /\ (forall i, i < end_ ->
            get (start + 3 + i) (truncateKey (Some key) start end_)
            = get (String.length key - end_ + i) key)).
Proof.
  split_and!.
  - done.
  - intros Hlen. unfold truncateKey. destruct key as [|c key]; [done|].
    destruct (Nat.leb_spec (String.length (String c key)) (start + end_)); [done|lia].
  - intros Hlen. rewrite truncateKey_long by done.
    set (head := substring 0 start key).
    set (tail := substring (String.length key - end_) (String.length key) key).
    assert (Hhead : String.length head = start).
    { unfold head. rewrite HexFacts.length_substring. lia. }
    assert (Htail : String.length tail = end_).
    { unfold tail. rewrite HexFacts.length_substring. lia. }
    split_and!.
    + rewrite !HexFacts.length_append, Hhead, Htail. simpl. lia.
    + intros i Hi. rewrite <- append_correct1 by lia.
      unfold head. rewrite substring_correct1 by done. by rewrite Nat.add_0_r.
    + intros i Hi. rewrite (Nat.add_comm start i), <- Hhead, <- append_correct2.
      destruct i as [|[|[|i]]]; try done. lia.
    + intros i Hi.
      replace (start + 3 + i) with ((i + 3) + String.length head) by lia.
      rewrite <- append_correct2.
      change 3 with (String.length "...") at 1. rewrite <- append_correct2.
      unfold tail. rewrite substring_correct1 by lia. f_equal. lia.
Qed.

Lemma truncateKey_shape_witness :
  String.length (truncateKey (Some "3059301306072a8648ce3d020106082a8648ce3d030107") 12 8)
  = 12 + 8 + 3.
Proof.
  apply (proj1 (proj2 (proj2 (truncateKey_shape
           "3059301306072a8648ce3d020106082a8648ce3d030107" 12 8)) ltac:(simpl; lia))).
Defined.

End HelperFacts.

From Stdlib Require Import DecimalZ DecimalPos DecimalString.

(** ** The canonical text determines the semantic fields *)

Module ReadingFacts.
Import JS Crypto CanonicalForm Fingerprint Reading.

Lemma app_assoc (s t u : string) : ((s ++ t) ++ u = s ++ (t ++ u))%string.
Proof.
  induction s as [|c s IH]; [done|]. by rewrite !HexFacts.append_cons, IH.
Qed.

Lemma unquote_quote_char c rest : unquote_char (quote_char c ++ rest) = Some (c, rest).
Proof. destruct c as [[] [] [] [] [] [] [] []]; reflexivity. Qed.

Lemma quote_body_inj s1 s2 r1 r2 :
  (quote_body s1 ++ String (ascii_of_N 34) r1 = quote_body s2 ++ String (ascii_of_N 34) r2)%string ->
  s1 = s2 /\ r1 = r2.
Proof.
  revert s2. induction s1 as [|c1 s1 IH]; intros [|c2 s2] H.
  - simpl in H. by injection H.
  - apply (f_equal unquote_char) in H. cbn [quote_body] in H.
    rewrite app_assoc, unquote_quote_char in H. done.
  - apply (f_equal unquote_char) in H. cbn [quote_body] in H.
    rewrite app_assoc, unquote_quote_char in H. done.
  - apply (f_equal unquote_char) in H. cbn [quote_body] in H.
    rewrite !app_assoc, !unquote_quote_char in H.
    injection H as -> H. by destruct (IH _ H) as [-> ->].
Qed.

Lemma quote_inj s1 s2 r1 r2 :
  (quote s1 ++ r1 = quote s2 ++ r2)%string -> s1 = s2 /\ r1 = r2.
Proof.
  unfold quote, dquote. rewrite !HexFacts.append_cons. intros [= H].
  rewrite !app_assoc in H. cbn [String.append] in H.
  by apply quote_body_inj.
Qed.

Lemma uint_numeric u : string_forall is_numeric (NilEmpty.string_of_uint u) = true.
Proof. induction u; simpl; done. Qed.

Lemma number_numeric z : string_forall is_numeric (number_to_string z) = true.
Proof.
  unfold number_to_string. destruct (Z.to_int z) as [u|u]; simpl.
  - destruct u; try apply (uint_numeric (_ u)); done.
  - destruct u; try apply (uint_numeric (_ u)); done.
Qed.

Lemma to_int_proper z : Z.to_int z <> Decimal.Pos Decimal.Nil /\ Z.to_int z <> Decimal.Neg Decimal.Nil.
Proof.
  destruct z as [|p|p]; simpl; split; try done; intros [= H];
    by apply (DecimalPos.Unsigned.to_uint_nonnil p).
Qed.

Lemma number_to_string_inj z1 z2 : number_to_string z1 = number_to_string z2 -> z1 = z2.
Proof.
  unfold number_to_string. intros H.
  apply (f_equal NilZero.int_of_string) in H.
  destruct (to_int_proper z1), (to_int_proper z2).
  rewrite !NilZero.isi in H by done.
  injection H. apply DecimalZ.to_int_inj.
Qed.

(** Two texts that each end a run of characters of one kind with a character
    of another kind are cut at the same place. *)
Lemma cut_inj (p : ascii -> bool) s1 s2 c1 c2 r1 r2 :
  string_forall p s1 = true -> string_forall p s2 = true ->
  p c1 = false -> p c2 = false ->
  (s1 ++ String c1 r1 = s2 ++ String c2 r2)%string ->
  s1 = s2 /\ c1 = c2 /\ r1 = r2.
Proof.
  revert s2. induction s1 as [|a1 s1 IH]; intros [|a2 s2] H1 H2 Hc1 Hc2 H.
  - by injection H.
  - rewrite HexFacts.append_cons in H. injection H as -> _.
    simpl in H2. apply andb_prop in H2 as [H2 _]. congruence.
  - rewrite HexFacts.append_cons in H. injection H as -> _.
    simpl in H1. apply andb_prop in H1 as [H1 _]. congruence.
  - rewrite !HexFacts.append_cons in H. injection H as -> H.
    simpl in H1, H2. apply andb_prop in H1 as [_ H1]. apply andb_prop in H2 as [_ H2].
    by destruct (IH s2 H1 H2 Hc1 Hc2 H) as (-> & -> & ->).
Qed.

Lemma stringify_number_safe n :
  is_safe n = true -> exists z, n = Int z /\ stringify_number n = number_to_string z.
Proof.
  destruct n as [z| | |]; try done. intros Hz. exists z. split; [done|].
  unfold stringify_number, Number_toString. cbn [is_safe] in Hz. by rewrite Hz.
Qed.

Lemma number_inj n1 n2 c1 c2 r1 r2 :
  is_safe n1 = true -> is_safe n2 = true ->
  is_numeric c1 = false -> is_numeric c2 = false ->
  (stringify_number n1 ++ String c1 r1 = stringify_number n2 ++ String c2 r2)%string ->
  n1 = n2 /\ c1 = c2 /\ r1 = r2.
Proof.
  intros (z1 & -> & ->)%stringify_number_safe (z2 & -> & ->)%stringify_number_safe Hc1 Hc2 H.
  destruct (cut_inj is_numeric _ _ _ _ _ _ (number_numeric z1) (number_numeric z2) Hc1 Hc2 H)
    as (Hz & -> & ->).
  by apply number_to_string_inj in Hz as ->.
Qed.

Lemma message_layout m :
  getCanonicalMessagePayload m
  = ("{" ++ quote "contactId" ++ ":" ++ stringify_number (contactId m)
     ++ String "," (quote "sender" ++ ":" ++ quote (sender_text (sender m))
     ++ String "," (quote "content" ++ ":" ++ quote (content m)
     ++ String "," (quote "timestamp" ++ ":" ++ stringify_number (timestamp m)
     ++ file_text (file m)))))%string.
Proof.
  rewrite CanonicalFacts.message_payload_members.
  unfold braces, message_members, member, file_text.
  destruct (file m) as [f|];
    cbn [fmap list_fmap app optional join fst snd stringify_text stringify default
         file_projection omap list_omap property braces from_option];
    unfold Datatypes.id, braces; cbn [join]; rewrite ?app_assoc; reflexivity.
Qed.

Lemma string_cons_inj c1 c2 (x y : string) : String c1 x = String c2 y -> x = y.
Proof. intros H. by inversion H. Qed.

Lemma file_text_head f : exists c r, file_text f = String c r /\ is_numeric c = false.
Proof. destruct f; simpl; eauto. Qed.

Lemma file_text_inj f g :
  (forall x, f = Some x -> is_safe (mf_size x) = true) ->
  (forall x, g = Some x -> is_safe (mf_size x) = true) ->
  file_text f = file_text g ->
  (fun f => (mf_name f, mf_type f, mf_size f)) <$> f
  = (fun f => (mf_name f, mf_type f, mf_size f)) <$> g.
Proof.
  destruct f as [f|], g as [g|]; unfold file_text; intros Hf Hg H;
    [|discriminate H|discriminate H|done].
  apply string_cons_inj in H.
  do 4 apply String.app_inj in H.
  apply quote_inj in H as [Hname H%string_cons_inj].
  do 2 apply String.app_inj in H.
  apply quote_inj in H as [Htype H%string_cons_inj].
  do 2 apply String.app_inj in H.
  apply (number_inj _ _ "}" "}" "}" "}") in H as (Hsize & _); [|by auto..].
  cbn [fmap option_fmap option_map]. by rewrite Hname, Htype, Hsize.
Qed.

Lemma sender_text_inj a b : sender_text a = sender_text b -> a = b.
Proof. by destruct a, b. Qed.

Lemma canonical_text_inj m n :
  exact m -> exact n ->
  getCanonicalMessagePayload m = getCanonicalMessagePayload n ->
  semantic_fields m = semantic_fields n.
Proof.
  intros (Hmc & Hmt & Hmf) (Hnc & Hnt & Hnf).
  rewrite !message_layout. intros H.
  do 3 apply String.app_inj in H.
  apply number_inj in H as (Hid & _ & H); [|done..].
  do 2 apply String.app_inj in H.
  apply quote_inj in H as [Hsender%sender_text_inj H%string_cons_inj].
  do 2 apply String.app_inj in H.
  apply quote_inj in H as [Hcontent H%string_cons_inj].
  do 2 apply String.app_inj in H.
  destruct (file_text_head (file m)) as (c1 & r1 & E1 & Hc1).
  destruct (file_text_head (file n)) as (c2 & r2 & E2 & Hc2).
  rewrite E1, E2 in H.
  apply number_inj in H as (Hts & -> & ->); [|done..].
  rewrite <- E2 in E1. apply file_text_inj in E1; [|done..].
  unfold semantic_fields. by rewrite Hid, Hsender, Hcontent, Hts, E1.
Qed.

(** The sender can be read off a canonical text whatever the numbers
    are: two messages with the same contact that have the same text have the
    same sender. *)
Lemma canonical_text_sender m n :
  contactId m = contactId n ->
  getCanonicalMessagePayload m = getCanonicalMessagePayload n -> sender m = sender n.
Proof.
  rewrite !message_layout. intros -> H.
  do 4 apply String.app_inj in H. apply string_cons_inj in H.
  do 2 apply String.app_inj in H.
  by apply quote_inj in H as [Hsender%sender_text_inj _].
Qed.

(** X6.  Among direct messages whose contact, timestamp and file size are
    integers that a double holds exactly, two messages have the same
    canonical text exactly when they have the same semantic fields: no two
    of them that differ in contact, sender, content, timestamp or in the
    name, type or size of their file are signed over the same text.  A
    timestamp that is not finite is written as [null], so that outside this
    range messages with different timestamps do share a text. *)
Theorem canonical_text_determines_fields m n :
  (exact m -> exact n ->
   (getCanonicalMessagePayload m = getCanonicalMessagePayload n
    <-> semantic_fields m = semantic_fields n))
  /\ getCanonicalMessagePayload (retime PosInfinity m)
     = getCanonicalMessagePayload (retime NaN m)
  /\ semantic_fields (retime PosInfinity m) <> semantic_fields (retime NaN m).
Proof.
  split_and!.
  - intros Hm Hn.
    split; [by apply canonical_text_inj|apply CanonicalFacts.message_payload_semantic].
  - by rewrite !message_layout.
  - unfold semantic_fields. cbn. congruence.
Qed.

Lemma canonical_text_determines_fields_witness :
  semantic_fields example_message
  = semantic_fields (Build_Message 1 1700000000000 you "hi" None "ff" 1700000000123 failed).
Proof.
  apply (proj1 (proj1 (canonical_text_determines_fields example_message
                  (Build_Message 1 1700000000000 you "hi" None "ff" 1700000000123 failed))
                  ltac:(by split_and!) ltac:(by split_and!))).
  reflexivity.
Defined.

(** X7.  The copy of a received message that is put into storage, with its
    sender set to [them], has the canonical text of the message that arrived
    only if that message already named [them] as its sender; the copy of a
    message sent as [you] no longer has the text that was signed. *)
Theorem received_copy_text m :
  getCanonicalMessagePayload (App.received_copy m) = getCanonicalMessagePayload m
  <-> sender m = them.
Proof.
  split.
  - intros H%canonical_text_sender; [|done]. by rewrite <- H.
  - intros Hs. apply CanonicalFacts.message_payload_semantic.
    unfold semantic_fields. simpl. by rewrite Hs.
Qed.

Lemma received_copy_text_witness :
  getCanonicalMessagePayload
    (App.received_copy (Build_Message 1 5 them "hi" None "ff" 17 sent))
  = getCanonicalMessagePayload (Build_Message 1 5 them "hi" None "ff" 17 sent).
Proof.
  apply (proj2 (received_copy_text (Build_Message 1 5 them "hi" None "ff" 17 sent))).
  reflexivity.
Defined.

End ReadingFacts.

(** ** Incoming messages and the contact list *)

Module AppFacts.
Import JS Crypto App.
Local Open Scope list_scope.

Section Incoming.

Variable CryptoKey : Type.
Variable importKey_spki : list Z -> completion CryptoKey.
Variable subtle_verify : CryptoKey -> list Z -> list Z -> completion bool.
Variable parse_message : string -> completion Message.

Local Abbreviation verify := (verify CryptoKey importKey_spki subtle_verify).
Local Abbreviation handleIncomingMessage :=
  (handleIncomingMessage CryptoKey importKey_spki subtle_verify parse_message).

Lemma existsb_same_timestamp msg (history : list Message) :
  existsb (same_timestamp msg) history = false <->
  forall m, m ∈ history -> same_timestamp msg m = false.
Proof.
  induction history as [|m0 history IH]; simpl.
  - split; [|done]. by intros _ m ?%elem_of_nil.
  - rewrite orb_false_iff, IH. split.
    + intros [H0 Hrest] m [->|Hm]%elem_of_cons; eauto.
    + intros H. split; [apply H; by left|]. intros m Hm. apply H. by right.
Qed.



Lemma incoming_cases fromKey payloadStr known st :
  (handleIncomingMessage fromKey payloadStr known st = st
   /\ forall msg sender,
        parse_message payloadStr = Normal msg ->
        find (fun c => bool_decide (c_publicKey c = fromKey)) known = Some sender ->
        verify msg fromKey = Normal true ->
        existsb (same_timestamp msg) (messages st (c_id sender)) = true)
  \/ exists msg sender,
      parse_message payloadStr = Normal msg
      /\ find (fun c => bool_decide (c_publicKey c = fromKey)) known = Some sender
      /\ verify msg fromKey = Normal true
      /\ existsb (same_timestamp msg) (messages st (c_id sender)) = false
      /\ handleIncomingMessage fromKey payloadStr known st
         = store (c_id sender) (messages st (c_id sender) ++ [received_copy msg]) st.
Proof.
  unfold App.handleIncomingMessage, incoming, bind.
  destruct (parse_message payloadStr) as [msg|e] eqn:Hparse; [|by left].
  destruct (find _ known) as [sender|] eqn:Hfind; [|by left].
  destruct (verify msg fromKey) as [[]|e] eqn:Hverify;
    [|left; split; [done|]; intros ?? [= <-] [= <-]; congruence..].
  destruct (existsb _ _) eqn:Hdup.
  - left. split; [done|]. by intros ?? [= <-] [= <-] _.
  - right. exists msg, sender. by split_and!.
Qed.



(** X11.  If the timestamps that the stored histories read back are
    pairwise distinct within every history, they still are after an incoming
    payload with a finite timestamp has been handled. *)
Theorem incoming_keeps_timestamps_distinct fromKey payloadStr known st :
  (forall msg, parse_message payloadStr = Normal msg -> is_finite (timestamp msg) = true) ->
  (forall contact, NoDup (stored_timestamp <$> messages st contact)) ->
  forall contact,
    NoDup (stored_timestamp
             <$> messages (handleIncomingMessage fromKey payloadStr known st) contact).
Proof.
  intros Hfinite Hnd contact.
  destruct (incoming_cases fromKey payloadStr known st)
    as [[H _]|(msg & sender & Hparse & Hfind & Hverify & Hnew & Hst)].
  - by rewrite H.
  - rewrite Hst. cbn [messages store]. case_decide; [|done]. subst contact.
    rewrite fmap_app. apply NoDup_app. split_and!.
    + done.
    + intros t (m & -> & Hm)%list_elem_of_fmap Heq%list_elem_of_singleton.
      pose proof (proj1 (existsb_same_timestamp _ _) Hnew m Hm) as Hdiff.
      pose proof (Hfinite msg Hparse) as Hfin.
      unfold same_timestamp in Hdiff. rewrite Heq in Hdiff.
      unfold stored_timestamp, read_back in Hdiff. cbn [timestamp received_copy] in Hdiff.
      rewrite Hfin in Hdiff.
      destruct (timestamp msg) as [z| | |]; try done. cbn in Hdiff.
      by rewrite Z.eqb_refl in Hdiff.
    + apply NoDup_singleton.
Qed.

End Incoming.



Lemma incoming_keeps_timestamps_distinct_witness :
  NoDup (stored_timestamp <$>
    messages (App.handleIncomingMessage unit (fun _ => Normal tt) (fun _ _ _ => Normal true)
                (fun _ => Normal CanonicalForm.example_message) "3059" "payload"
                [Build_Contact 1 "3059" "peer" "2024-01-01"]
                (Build_storage [] (fun _ => []) [])) 1).
Proof.
  apply (incoming_keeps_timestamps_distinct unit (fun _ => Normal tt) (fun _ _ _ => Normal true)
           (fun _ => Normal CanonicalForm.example_message) "3059" "payload"
           [Build_Contact 1 "3059" "peer" "2024-01-01"] (Build_storage [] (fun _ => []) [])).
  - by intros msg [= <-].
  - intros contact. cbn. constructor.
Defined.

(** *** contact list *)

Lemma existsb_key key (contacts : list Contact) :
  existsb (fun contact => bool_decide (c_publicKey contact = key)) contacts = true
  <-> key ∈ c_publicKey <$> contacts.
Proof.
  rewrite existsb_exists, list_elem_of_fmap. split.
  - intros (c & Hin%list_elem_of_In & Hk%bool_decide_eq_true). eauto.
  - intros (c & -> & Hin). exists c.
    split; [by apply list_elem_of_In|by apply bool_decide_eq_true].
Qed.

(** X12.  Adding a scanned key never makes two contacts share a public key:
    if the keys of the list are pairwise distinct they stay so, the scanned
    key is in the list afterwards, and scanning the same key again changes
    nothing. *)
Theorem scanned_contact_unique now iso now' iso' scannedKey contacts :
  NoDup (c_publicKey <$> contacts) ->
  NoDup (c_publicKey <$> handleAddContact now iso scannedKey contacts)
  /\ scannedKey ∈ c_publicKey <$> handleAddContact now iso scannedKey contacts
  /\ handleAddContact now' iso' scannedKey (handleAddContact now iso scannedKey contacts)
     = handleAddContact now iso scannedKey contacts.
Proof.
  intros Hnd.
  destruct (existsb (fun contact => bool_decide (c_publicKey contact = scannedKey)) contacts)
    eqn:Hdup.
  - assert (Hsame : forall n i, handleAddContact n i scannedKey contacts = contacts).
    { intros n i. unfold handleAddContact. by rewrite Hdup. }
    rewrite !Hsame. split_and!; [done|by apply existsb_key|done].
  - assert (Hadd : handleAddContact now iso scannedKey contacts
                   = contacts ++ [new_contact now iso scannedKey contacts]).
    { unfold handleAddContact. by rewrite Hdup. }
    rewrite Hadd.
    assert (Hfresh : scannedKey ∉ c_publicKey <$> contacts).
    { intros Hin%existsb_key. congruence. }
    assert (Hin : scannedKey ∈ c_publicKey <$> (contacts ++ [new_contact now iso scannedKey contacts])).
    { rewrite fmap_app. apply elem_of_app. right. by left. }
    split_and!; [|done|].
    + rewrite fmap_app. apply NoDup_app. split_and!; [done| |apply NoDup_singleton].
      intros k Hk ->%list_elem_of_singleton. done.
    + unfold handleAddContact. apply existsb_key in Hin. by rewrite Hin.
Qed.

Lemma scanned_contact_unique_witness :
  NoDup (c_publicKey <$> handleAddContact 2 "t2" "3059aa" [Build_Contact 1 "3059bb" "Contact #1" "t1"]).
Proof.
  apply (scanned_contact_unique 2 "t2" 3 "t3" "3059aa" [Build_Contact 1 "3059bb" "Contact #1" "t1"]).
  apply NoDup_singleton.
Defined.

Lemma trim_end_idemp s : trim_end (trim_end s) = trim_end s.
Proof.
  induction s as [|c s IH]; [done|]. simpl.
  destruct (trim_end s) as [|k kept] eqn:Hs.
  - destruct (is_space c) eqn:Hc; simpl; by rewrite ?Hc.
  - cbn [trim_end]. cbn [trim_end] in IH. by rewrite IH.
Qed.

Lemma trim_start_fixed c s : is_space c = false -> trim_start (String c s) = String c s.
Proof. intros Hc. simpl. by rewrite Hc. Qed.

Lemma trim_start_head s :
  trim_start s = EmptyString \/ exists c r, trim_start s = String c r /\ is_space c = false.
Proof.
  induction s as [|c s IH]; simpl; [by left|].
  destruct (is_space c) eqn:Hc; [done|]. right. eauto.
Qed.

Lemma trim_end_head c r :
  is_space c = false -> exists r', trim_end (String c r) = String c r'.
Proof. intros Hc. simpl. rewrite Hc. destruct (trim_end r); eauto. Qed.

Lemma trim_idemp s : trim (trim s) = trim s.
Proof.
  unfold trim. destruct (trim_start_head s) as [->|(c & r & -> & Hc)]; [done|].
  destruct (trim_end_head c r Hc) as (r' & Hr). rewrite Hr.
  rewrite (trim_start_fixed _ _ Hc), <- Hr. apply trim_end_idemp.
Qed.

(** X13.  Typing a key in by hand adds nothing when the text is empty or all
    white space; otherwise it appends exactly one contact, whose key is the
    text without its surrounding white space (a key that is not empty and
    that trimming leaves as it is), whether or not this key is already in the
    list. *)
Theorem typed_contact_trimmed now iso newContactKey contacts :
  (trim newContactKey = EmptyString -> addContact now iso newContactKey contacts = contacts)
  /\ (trim newContactKey <> EmptyString ->
      exists c, addContact now iso newContactKey contacts = contacts ++ [c]
        /\ c_publicKey c = trim newContactKey
        /\ trim (c_publicKey c) = c_publicKey c
        /\ c_id c = now).
Proof.
  unfold addContact. split.
  - by intros ->.
  - intros Hne. destruct (trim newContactKey) as [|k key] eqn:Ht; [done|].
    eexists. split_and!; [done|done| |done].
    simpl. rewrite <- Ht. apply trim_idemp.
Qed.

Lemma typed_contact_trimmed_witness :
  addContact 7 "t" "  " [] = []
  /\ exists c, addContact 7 "t" " 3059aa " [] = [] ++ [c] /\ c_publicKey c = "3059aa".
Proof.
  split.
  - apply (proj1 (typed_contact_trimmed 7 "t" "  " [])). reflexivity.
  - destruct (proj2 (typed_contact_trimmed 7 "t" " 3059aa " []) ltac:(discriminate))
      as (c & Hc & Hk & _).
    exists c. split; [exact Hc|exact Hk].
Defined.

End AppFacts.

(** * The relay server *)

Module RelayFacts.
Import JS Relay RelayTerms.
Local Open Scope list_scope.

Section Server.

Variable JSON_parse : string -> completion json.

Lemma members_join_room_eq room ws rooms :
  members room (join_room room ws rooms) =
  Some (match members room rooms with
        | Some set => if decide (ws ∈ set) then set else set ++ [ws]
        | None => [ws]
        end).
Proof.
  induction rooms as [|[r set] rest IH]; cbn [members join_room].
  - by rewrite decide_True.
  - destruct (decide (room = r)) as [->|Hne]; cbn [members].
    + by rewrite decide_True.
    + by rewrite decide_False.
Qed.

Lemma members_join_room_ne room room' ws rooms :
  room' <> room -> members room' (join_room room ws rooms) = members room' rooms.
Proof.
  intros Hne. induction rooms as [|[r set] rest IH]; cbn [members join_room].
  - by rewrite decide_False.
  - destruct (decide (room = r)) as [->|Hr]; cbn [members].
    + by rewrite !decide_False.
    + by rewrite IH.
Qed.

Lemma join_room_keys room ws rooms :
  (join_room room ws rooms).*1 =
  if decide (room ∈ rooms.*1) then rooms.*1 else rooms.*1 ++ [room].
Proof.
  induction rooms as [|[r set] rest IH]; cbn [join_room fmap list_fmap fst]; [done|].
  destruct (decide (room = r)) as [->|Hr]; cbn [fmap list_fmap fst].
  - rewrite decide_True; [done|left].
  - fold (@fmap list _ _ _ (@fst room_key (list nat)) (join_room room ws rest)).
    fold (@fmap list _ _ _ (@fst room_key (list nat)) rest).
    rewrite IH. destruct (decide (room ∈ rest.*1)) as [Hin|Hin].
    + rewrite decide_True; [done|by right].
    + rewrite decide_False; [done|]. by intros [?|?]%elem_of_cons.
Qed.

Lemma join_room_Forall (P : room_key * list nat -> Prop) room ws rooms :
  Forall P rooms ->
  P (room, [ws]) ->
  (forall set, P (room, set) -> P (room, if decide (ws ∈ set) then set else set ++ [ws])) ->
  Forall P (join_room room ws rooms).
Proof.
  intros Hall Hnew Hadd. induction Hall as [|[r set] rest Hx Hrest IH]; simpl.
  - by constructor.
  - destruct (decide (room = r)) as [->|Hr]; constructor; auto.
Qed.

Lemma members_elem room set rooms :
  members room rooms = Some set -> (room, set) ∈ rooms.
Proof.
  induction rooms as [|[r set'] rest IH]; simpl; [done|].
  destruct (decide (room = r)) as [->|Hr].
  - intros [= ->]. left.
  - intros H. right. auto.
Qed.

Lemma relay_cases ws msg s :
  (on_message JSON_parse ws msg s = s /\
   forall data room_value,
     JSON_parse msg = Normal data -> Signaling.get data "room" = Normal room_value -> False) \/
  (exists data room_value,
     JSON_parse msg = Normal data /\ Signaling.get data "room" = Normal room_value /\
     on_message JSON_parse ws msg s =
       let room := room_of room_value (serial s) in
       let rooms' := join_room room ws (rooms s) in
       Build_state rooms' (clients s)
         (outbox s ++
            ((fun client => (client, Crypto.stringify_text data)) <$>
               filter (fun client => client <> ws /\ is_open s client = true)
                      (default [] (members room rooms'))))
         (S (serial s))).
Proof.
  unfold on_message, relay.
  destruct (JSON_parse msg) as [data|e] eqn:Hp; simpl.
  - destruct (Signaling.get data "room") as [v|e] eqn:Hg; simpl.
    + right. by exists data, v.
    + left. split; [done|]. intros ?? [= <-]. congruence.
  - left. split; [done|]. congruence.
Qed.

Lemma live_mono s s' client :
  (forall r, clients s !! client = Some r -> r <> Signaling.CLOSED ->
     exists r', clients s' !! client = Some r' /\ r' <> Signaling.CLOSED) ->
  live s client -> live s' client.
Proof. intros H (r & Hr & Hne). exact (H r Hr Hne). Qed.

Lemma rooms_wf_init : wf init.
Proof. split; simpl; constructor. Qed.

Lemma rooms_wf_on_message ws msg s :
  live s ws -> wf s -> wf (on_message JSON_parse ws msg s).
Proof.
  intros Hws [Hk Hn Hs Hl].
  destruct (relay_cases ws msg s) as [[-> _]|(data & v & _ & _ & ->)]; [by split|].
  split; simpl.
  - rewrite join_room_keys. case_decide; [done|].
    apply NoDup_app. split_and!; [done| |apply NoDup_singleton].
    intros x Hx ->%list_elem_of_singleton. done.
  - apply join_room_Forall; simpl; [done|done|].
    intros set Hset. case_decide; [done|]. by destruct set.
  - apply join_room_Forall; simpl; [done|apply NoDup_singleton|].
    intros set Hset. case_decide; [done|].
    apply NoDup_app. split_and!; [done| |apply NoDup_singleton].
    intros x Hx ->%list_elem_of_singleton. done.
  - apply join_room_Forall; simpl; [done|by repeat constructor|].
    intros set Hset. case_decide; [done|].
    apply Forall_app. split; [done|by repeat constructor].
Qed.

Lemma rooms_wf_step e s : wf s -> wf (step JSON_parse e s).
Proof.
  intros Hwf. destruct e as [|ws msg|ws|ws]; simpl.
  - destruct Hwf as [Hk Hn Hs Hl]. split; simpl; try done.
    eapply Forall_impl; [exact Hl|]. intros entry Hentry.
    eapply Forall_impl; [exact Hentry|]. intros c (r & Hr & Hne).
    exists r. split; [|done]. by apply lookup_app_l_Some.
  - destruct (clients s !! ws) as [[]|] eqn:Hc; try done.
    + apply rooms_wf_on_message; [|done]. by exists Signaling.OPEN.
    + apply rooms_wf_on_message; [|done]. by exists Signaling.CLOSING.
  - destruct (clients s !! ws) as [[]|] eqn:Hc; try done.
    destruct Hwf as [Hk Hn Hs Hl]. split; simpl; try done.
    eapply Forall_impl; [exact Hl|]. intros entry Hentry.
    eapply Forall_impl; [exact Hentry|]. intros c (r & Hr & Hne).
    unfold live; simpl. destruct (decide (c = ws)) as [->|Hcw].
    + exists Signaling.CLOSING. split; [|done].
      apply list_lookup_insert_eq. by eapply lookup_lt_Some.
    + exists r. by rewrite list_lookup_insert_ne.
  - assert (Hclose : wf (on_close ws (set_client ws Signaling.CLOSED s))).
    { destruct Hwf as [Hk Hn Hs Hl]. split; simpl.
      - clear Hn Hs Hl. induction (rooms s) as [|[r set] rest IH]; simpl; [constructor|].
        apply NoDup_cons in Hk as [Hr Hk].
        assert (Hsub : forall x, x ∈ (filter (fun entry : room_key * list nat => entry.2 <> [])
                   ((fun entry => (entry.1, filter (fun client => client <> ws) entry.2)) <$> rest)).*1 ->
                   x ∈ rest.*1).
        { intros x ((x' & set') & -> & Hin)%list_elem_of_fmap.
          apply list_elem_of_filter in Hin as [_ Hin].
          apply list_elem_of_fmap in Hin as ([x'' set''] & [= -> _] & Hin).
          apply list_elem_of_fmap. by exists (x'', set''). }
        rewrite filter_cons. case_decide; simpl; [|by apply IH].
        apply NoDup_cons. split; [|by apply IH]. intros Hin. by apply Hr, Hsub.
      - apply Forall_forall. by intros entry [? _]%list_elem_of_filter.
      - apply Forall_forall. intros entry [_ Hin]%list_elem_of_filter.
        apply list_elem_of_fmap in Hin as (entry' & -> & Hin). simpl.
        apply NoDup_filter. by eapply (proj1 (Forall_forall _ _) Hs).
      - apply Forall_forall. intros entry [_ Hin]%list_elem_of_filter.
        apply list_elem_of_fmap in Hin as (entry' & -> & Hin). simpl.
        apply Forall_forall. intros c [Hcw Hc]%list_elem_of_filter.
        pose proof (proj1 (Forall_forall _ _) Hl entry' Hin) as Hlive.
        destruct (proj1 (Forall_forall _ _) Hlive c Hc) as (r & Hr & Hne).
        exists r. simpl. by rewrite list_lookup_insert_ne. }
    destruct (clients s !! ws) as [[]|] eqn:Hc; done.
Qed.

Lemma rooms_wf_run events s : wf s -> wf (run JSON_parse events s).
Proof.
  revert s. induction events as [|e events IH]; intros s Hwf; [done|].
  apply IH. by apply rooms_wf_step.
Qed.

(** X14.  Whatever the clients do, the server's [rooms] map never holds an
    empty room, never holds a connection twice in a room, and never holds a
    connection that has emitted [close]. *)
Theorem rooms_hold_live_clients events room set :
  (room, set) ∈ rooms (run JSON_parse events init) ->
  set <> [] /\ NoDup set /\
  forall client, client ∈ set ->
    exists r, clients (run JSON_parse events init) !! client = Some r /\ r <> Signaling.CLOSED.
Proof.
  intros Hin. destruct (rooms_wf_run events init rooms_wf_init) as [_ Hn Hs Hl].
  split_and!.
  - exact (proj1 (Forall_forall _ _) Hn _ Hin).
  - exact (proj1 (Forall_forall _ _) Hs _ Hin).
  - intros client Hc.
    exact (proj1 (Forall_forall _ _) (proj1 (Forall_forall _ _) Hl _ Hin) _ Hc).
Qed.

Lemma members_wf room set s :
  wf s -> members room (rooms s) = Some set -> NoDup set.
Proof.
  intros [_ _ Hs _] Hm%members_elem.
  exact (proj1 (Forall_forall _ _) Hs _ Hm).
Qed.

Lemma filter_others_join room ws s :
  filter (fun client => client <> ws /\ is_open s client = true)
         (default [] (members room (join_room room ws (rooms s)))) =
  filter (fun client => client <> ws /\ is_open s client = true)
         (default [] (members room (rooms s))).
Proof.
  rewrite members_join_room_eq. cbn [default].
  destruct (members room (rooms s)) as [set|]; cbn [default].
  - case_decide; [done|]. unfold id. rewrite filter_app, filter_cons_False, filter_nil.
    + by rewrite app_nil_r.
    + by intros [? _].
  - unfold id. rewrite filter_cons_False; [done|]. by intros [? _].
Qed.

Lemma sent_by_app s s' extra :
  outbox s' = outbox s ++ extra -> sent_by s s' = extra.
Proof. intros H. unfold sent_by. by rewrite H, drop_app_length. Qed.

(** X15.  A readable frame goes to the other members of the sender's room
    whose socket is open, one copy each, re-serialised from the parsed
    value; the sender gets no echo and nobody outside the room gets
    anything. *)
Theorem relay_fan_out events ws msg data room_value :
  JSON_parse msg = Normal data ->
  Signaling.get data "room" = Normal room_value ->
  let s := run JSON_parse events init in
  let out := sent_by s (on_message JSON_parse ws msg s) in
  NoDup out.*1 /\
  forall client text,
    (client, text) ∈ out <->
    client <> ws /\ is_open s client = true /\
    client ∈ default [] (members (room_of room_value (serial s)) (rooms s)) /\
    text = Crypto.stringify_text data.
Proof.
  intros Hp Hg s out.
  assert (Hwf : wf s) by apply rooms_wf_run, rooms_wf_init.
  assert (Hout : out =
    (fun client => (client, Crypto.stringify_text data)) <$>
      filter (fun client => client <> ws /\ is_open s client = true)
             (default [] (members (room_of room_value (serial s)) (rooms s)))).
  { subst out. apply sent_by_app.
    destruct (relay_cases ws msg s) as [[_ Hno]|(data' & v' & Hp' & Hg' & ->)].
    - destruct (Hno _ _ Hp Hg).
    - rewrite Hp in Hp'. injection Hp' as <-. rewrite Hg in Hg'. injection Hg' as <-.
      cbn [outbox]. by rewrite filter_others_join. }
  rewrite Hout. split.
  - rewrite <- list_fmap_compose.
    rewrite (list_fmap_ext _ id _ (fun _ _ _ => eq_refl)), list_fmap_id.
    apply NoDup_filter.
    destruct (members (room_of room_value (serial s)) (rooms s)) as [set|] eqn:Hm;
      cbn [default]; [by eapply members_wf|constructor].
  - intros client text. rewrite list_elem_of_fmap. split.
    + intros (c & [= -> ->] & Hc). apply list_elem_of_filter in Hc as [[? ?] ?]. done.
    + intros (Hne & Hopen & Hin & ->). exists client. split; [done|].
      by apply list_elem_of_filter.
Qed.

(** X16.  A frame that is not JSON, or that is the JSON [null], is
    dropped: the sender joins no room and nothing is relayed. *)
Theorem unreadable_frame_is_dropped ws msg s :
  (JSON_parse msg = Normal JNull \/ exists e, JSON_parse msg = Throw e) ->
  step JSON_parse (Message ws msg) s = s.
Proof.
  intros Hbad. cbn [step].
  assert (Hdrop : on_message JSON_parse ws msg s = s).
  { unfold on_message, relay. by destruct Hbad as [->|[e ->]]. }
  rewrite Hdrop. by destruct (clients s !! ws) as [[]|].
Qed.

Lemma run_snoc events e s :
  run JSON_parse (events ++ [e]) s = step JSON_parse e (run JSON_parse events s).
Proof. unfold run. by rewrite foldl_app. Qed.

Lemma senders_app events events' :
  senders JSON_parse (events ++ events') =
  senders JSON_parse events ++ senders JSON_parse events'.
Proof.
  induction events as [|e events IH]; [done|].
  destruct e as [|ws msg|ws|ws]; cbn [senders app]; try done.
  destruct (JSON_parse msg); [|done]. by rewrite IH.
Qed.

Lemma joined_run events :
  let s := run JSON_parse events init in
  Forall (fun entry => Forall (fun c => c ∈ senders JSON_parse events) entry.2) (rooms s) /\
  Forall (fun out => out.1 ∈ senders JSON_parse events) (outbox s).
Proof.
  induction events as [|e events [IHr IHo]] using rev_ind; [by split; constructor|].
  cbn zeta. rewrite run_snoc, senders_app.
  set (s := run JSON_parse events init) in *.
  assert (Hkeep :
    Forall (fun entry => Forall (fun c => c ∈ senders JSON_parse events ++ senders JSON_parse [e])
                           entry.2) (rooms s) /\
    Forall (fun out => out.1 ∈ senders JSON_parse events ++ senders JSON_parse [e]) (outbox s)).
  { split.
    - eapply Forall_impl; [exact IHr|]. intros entry Hentry.
      eapply Forall_impl; [exact Hentry|]. intros c Hc. apply elem_of_app. by left.
    - eapply Forall_impl; [exact IHo|]. intros out Hout. apply elem_of_app. by left. }
  destruct Hkeep as [Hr Ho].
  destruct e as [|ws msg|ws|ws]; cbn [step].
  - done.
  - assert (Hmsg :
      Forall (fun entry => Forall (fun c => c ∈ senders JSON_parse events ++
                                          senders JSON_parse [Message ws msg]) entry.2)
             (rooms (on_message JSON_parse ws msg s)) /\
      Forall (fun out => out.1 ∈ senders JSON_parse events ++
                                 senders JSON_parse [Message ws msg])
             (outbox (on_message JSON_parse ws msg s))).
    { destruct (relay_cases ws msg s) as [[-> _]|(data & v & Hp & Hg & ->)]; [done|].
      cbn [rooms outbox senders]. rewrite Hp.
      assert (Hws : ws ∈ senders JSON_parse events ++ [ws]).
      { apply elem_of_app. right. left. }
      assert (Hjoin :
        Forall (fun entry => Forall (fun c => c ∈ senders JSON_parse events ++ [ws]) entry.2)
               (join_room (room_of v (serial s)) ws (rooms s))).
      { cbn [senders] in Hr. rewrite Hp in Hr.
        apply join_room_Forall; cbn [snd]; [done|by repeat constructor|].
        intros set Hset. case_decide; [done|].
        apply Forall_app. split; [done|by repeat constructor]. }
      split; [done|].
      apply Forall_app. split.
      - cbn [senders] in Ho. by rewrite Hp in Ho.
      - apply Forall_forall. intros out (c & -> & Hc)%list_elem_of_fmap. cbn [fst].
        apply list_elem_of_filter in Hc as [_ Hc].
        destruct (members (room_of v (serial s)) (join_room (room_of v (serial s)) ws (rooms s)))
          as [set|] eqn:Hm; cbn [default] in Hc; [|by apply elem_of_nil in Hc].
        apply members_elem in Hm.
        exact (proj1 (Forall_forall _ _) (proj1 (Forall_forall _ _) Hjoin _ Hm) _ Hc). }
    destruct (clients s !! ws) as [[]|]; done.
  - destruct (clients s !! ws) as [[]|]; done.
  - assert (Hclose :
      Forall (fun entry => Forall (fun c => c ∈ senders JSON_parse events ++
                                          senders JSON_parse [Close ws]) entry.2)
             (rooms (on_close ws (set_client ws Signaling.CLOSED s)))).
    { apply Forall_forall. intros entry [_ Hin]%list_elem_of_filter.
      apply list_elem_of_fmap in Hin as (entry' & -> & Hin). cbn [snd].
      apply Forall_forall. intros c [_ Hc]%list_elem_of_filter.
      exact (proj1 (Forall_forall _ _) (proj1 (Forall_forall _ _) Hr _ Hin) _ Hc). }
    destruct (clients s !! ws) as [[]|]; done.
Qed.

(** X17.  A connection is put into a room only by a frame of its own: a
    client that has sent nothing the server could parse is relayed
    nothing, whatever the others send. *)
Theorem silent_client_receives_nothing events client text :
  (client, text) ∈ outbox (run JSON_parse events init) ->
  client ∈ senders JSON_parse events.
Proof.
  intros Hin. destruct (joined_run events) as [_ Ho].
  exact (proj1 (Forall_forall _ _) Ho _ Hin).
Qed.

Lemma closed_step ws e s :
  clients s !! ws = Some Signaling.CLOSED ->
  clients (step JSON_parse e s) !! ws = Some Signaling.CLOSED /\
  exists extra, outbox (step JSON_parse e s) = outbox s ++ extra /\
                Forall (fun out => out.1 <> ws) extra.
Proof.
  intros Hc.
  assert (Hsame : clients s !! ws = Some Signaling.CLOSED /\
                  exists extra, outbox s = outbox s ++ extra /\
                                Forall (fun out : nat * string => out.1 <> ws) extra).
  { split; [done|]. exists []. by rewrite app_nil_r. }
  assert (Hmsg : forall ws' msg,
    clients (on_message JSON_parse ws' msg s) !! ws = Some Signaling.CLOSED /\
    exists extra, outbox (on_message JSON_parse ws' msg s) = outbox s ++ extra /\
                  Forall (fun out => out.1 <> ws) extra).
  { intros ws' msg.
    destruct (relay_cases ws' msg s) as [[-> _]|(data & v & _ & _ & ->)]; [done|].
    cbn [clients outbox]. split; [done|]. eexists. split; [done|].
    apply Forall_forall. intros out (c & -> & Hin)%list_elem_of_fmap. cbn [fst].
    apply list_elem_of_filter in Hin as [[_ Hopen] _].
    intros ->. unfold is_open in Hopen. by rewrite Hc in Hopen. }
  destruct e as [|ws' msg|ws'|ws']; cbn [step].
  - cbn [clients outbox]. split.
    + by apply lookup_app_l_Some.
    + exists []. by rewrite app_nil_r.
  - destruct (clients s !! ws') as [[]|]; auto.
  - destruct (clients s !! ws') as [[]|] eqn:Hc'; auto.
    cbn [set_client clients outbox]. split.
    + rewrite list_lookup_insert_ne; [done|]. intros ->. congruence.
    + exists []. by rewrite app_nil_r.
  - assert (Hclose : clients s !! ws' <> Some Signaling.CLOSED ->
      clients (on_close ws' (set_client ws' Signaling.CLOSED s)) !! ws = Some Signaling.CLOSED /\
      exists extra, outbox (on_close ws' (set_client ws' Signaling.CLOSED s)) = outbox s ++ extra /\
                    Forall (fun out : nat * string => out.1 <> ws) extra).
    { intros Hne. cbn [on_close set_client clients outbox]. split.
      - rewrite list_lookup_insert_ne; [done|]. intros ->. congruence.
      - exists []. by rewrite app_nil_r. }
    destruct (clients s !! ws') as [[]|] eqn:Hc'; auto.
Qed.

(** X18.  Once a connection has emitted [close] the server relays nothing
    more to it, whatever happens afterwards. *)
Theorem closed_client_receives_nothing ws events s :
  clients s !! ws = Some Signaling.CLOSED ->
  Forall (fun out => out.1 <> ws) (sent_by s (run JSON_parse events s)).
Proof.
  intros Hc.
  assert (H : exists extra, outbox (run JSON_parse events s) = outbox s ++ extra /\
                            Forall (fun out => out.1 <> ws) extra).
  { revert s Hc. induction events as [|e events IH]; intros s Hc.
    - exists []. by rewrite app_nil_r.
    - destruct (closed_step ws e s Hc) as (Hc' & extra & Hout & Hextra).
      destruct (IH _ Hc') as (extra' & Hout' & Hextra').
      exists (extra ++ extra'). split.
      + change (run JSON_parse (e :: events) s)
          with (run JSON_parse events (step JSON_parse e s)).
        by rewrite Hout', Hout, <- app_assoc.
      + by apply Forall_app. }
  destruct H as (extra & Hout & Hextra).
  by rewrite (sent_by_app _ _ _ Hout).
Qed.

End Server.

Lemma rooms_hold_live_clients_witness :
  [0; 1]%nat <> [] /\ NoDup [0; 1]%nat /\
  forall client, client ∈ [0; 1]%nat ->
    exists r,
      clients (run toy_parse [Connection; Connection; Message 0 "a"; Message 1 "a"] init)
        !! client = Some r /\ r <> Signaling.CLOSED.
Proof.
  apply (rooms_hold_live_clients toy_parse
           [Connection; Connection; Message 0%nat "a"; Message 1%nat "a"] (RoomName "a")).
  vm_compute. left.
Defined.

Lemma relay_fan_out_witness :
  let s := run toy_parse [Connection; Connection; Connection;
                          Message 0 "a"; Message 1 "a"; Message 2 "b"] init in
  let out := sent_by s (on_message toy_parse 0 "a" s) in
  NoDup out.*1 /\
  forall client text,
    (client, text) ∈ out <->
    client <> 0%nat /\ is_open s client = true /\
    client ∈ default [] (members (room_of (JStr "a") (serial s)) (rooms s)) /\
    text = Crypto.stringify_text (JObj [("type", JStr "offer"); ("room", JStr "a")]).
Proof.
  apply (relay_fan_out toy_parse
           [Connection; Connection; Connection;
            Message 0%nat "a"; Message 1%nat "a"; Message 2%nat "b"]
           0%nat "a" (JObj [("type", JStr "offer"); ("room", JStr "a")]) (JStr "a"));
    reflexivity.
Defined.

Lemma unreadable_frame_is_dropped_witness :
  step toy_parse (Message 0 "oops") (run toy_parse [Connection; Message 0 "a"] init) =
  run toy_parse [Connection; Message 0 "a"] init.
Proof.
  apply (unreadable_frame_is_dropped toy_parse). right.
  exists (OtherError "SyntaxError"). reflexivity.
Defined.

Lemma silent_client_receives_nothing_witness :
  0%nat ∈ senders toy_parse [Connection; Connection; Message 0 "a"; Message 1 "a"].
Proof.
  apply (silent_client_receives_nothing toy_parse
           [Connection; Connection; Message 0%nat "a"; Message 1%nat "a"] 0%nat
           (Crypto.stringify_text (JObj [("type", JStr "offer"); ("room", JStr "a")]))).
  vm_compute. left.
Defined.

Lemma closed_client_receives_nothing_witness :
  let s := run toy_parse [Connection; Connection; Message 0 "a"; Message 1 "a"; Close 0] init in
  Forall (fun out => out.1 <> 0%nat) (sent_by s (run toy_parse [Message 1 "a"; Connection] s)).
Proof.
  apply (closed_client_receives_nothing toy_parse 0%nat). reflexivity.
Defined.

End RelayFacts.

(** * More on the signaling client *)

Module SignalingMore.
Import JS Signaling SignalingTerms FrameTerms.
Local Open Scope list_scope.

Section Browser.

Variable valid_url : string -> bool.
Variable room_param : string -> completion (option string).
Variable JSON_parse : string -> completion json.

Local Abbreviation connect := (connect valid_url).
Local Abbreviation sendSignal := (sendSignal valid_url).
Local Abbreviation flushQueue := (flushQueue valid_url).
Local Abbreviation reconnect := (reconnect valid_url).
Local Abbreviation setRelayUrl := (setRelayUrl valid_url room_param).
Local Abbreviation onopen := (onopen valid_url).
Local Abbreviation onmessage := (onmessage JSON_parse).
Local Abbreviation step := (step valid_url room_param JSON_parse).
Local Abbreviation run := (run valid_url room_param JSON_parse).
Local Abbreviation wf_run := (SignalingFacts.wf_run valid_url room_param JSON_parse).
Local Abbreviation connect_fields := (SignalingFacts.connect_fields valid_url).

Lemma sendSignal_timers to type data s :
  timers (sendSignal to type data s) = timers s /\
  reconnectTimeout (sendSignal to type data s) = reconnectTimeout s.
Proof.
  unfold Signaling.sendSignal.
  destruct (myPublicKey s) as [[|c k]|]; try done.
  assert (Hq : forall m,
    timers (match onSignalCallback (enqueue m s) with
            | Some cb => connect (String c k) cb (enqueue m s)
            | None => enqueue m s
            end) = timers s /\
    reconnectTimeout (match onSignalCallback (enqueue m s) with
            | Some cb => connect (String c k) cb (enqueue m s)
            | None => enqueue m s
            end) = reconnectTimeout s).
  { intros m. destruct (onSignalCallback (enqueue m s)) as [cb|]; [|done].
    destruct (connect_fields (String c k) cb (enqueue m s)) as (_ & _ & -> & -> & _). done. }
  destruct (socket s) as [sid|]; [|apply Hq].
  destruct (ready_of s sid) eqn:Hr; try apply Hq; [done|].
  unfold ws_send. rewrite Hr. done.
Qed.

Lemma send_all_timers messages s :
  let s' := foldl (fun s msg => sendSignal (sm_to msg) (sm_type msg) (sm_data msg) s) s messages in
  timers s' = timers s /\ reconnectTimeout s' = reconnectTimeout s.
Proof.
  revert s. induction messages as [|m ms IH]; intros s; [done|].
  cbn [foldl]. destruct (IH (sendSignal (sm_to m) (sm_type m) (sm_data m) s)) as [-> ->].
  apply sendSignal_timers.
Qed.

Lemma flushQueue_timers s :
  timers (flushQueue s) = timers s /\ reconnectTimeout (flushQueue s) = reconnectTimeout s.
Proof.
  unfold Signaling.flushQueue. destruct (signalQueue s) as [|m ms]; [done|].
  apply (send_all_timers (m :: ms) (set_signalQueue [] s)).
Qed.

Lemma length_filter_le {A} (P : A -> Prop) `{!forall x, Decision (P x)} (l : list A) :
  (length (filter P l) <= length l)%nat.
Proof.
  induction l as [|x l IH]; [done|]. rewrite filter_cons. case_decide; simpl; lia.
Qed.

Lemma clearTimeout_length t s :
  (length (timers (clearTimeout t s)) <= length (timers s))%nat.
Proof. destruct t; simpl; [apply length_filter_le|done]. Qed.

Lemma one_timeout_step e s :
  wf s -> (length (timers s) <= 1)%nat -> (length (timers (step e s)) <= 1)%nat.
Proof.
  intros Hwf Hone.
  assert (Hopen : forall s0, timers s0 = timers s -> timers (onopen s0) = timers s).
  { intros s0 H0. unfold Signaling.onopen.
    destruct (flushQueue_timers (dispatch true s0)) as [-> _]. done. }
  assert (Hclose : forall sid,
    (length (timers (onclose (set_ready sid CLOSED s))) <= 1)%nat).
  { intros sid. unfold onclose.
    destruct (isExplicitDisconnect (dispatch false (set_ready sid CLOSED s))); [done|].
    assert (Hwf' : wf (dispatch false (set_ready sid CLOSED s))).
    { by apply SignalingFacts.wf_dispatch, SignalingFacts.wf_set_ready. }
    pose proof (SignalingFacts.clear_current_timeout _ Hwf') as Hnone.
    unfold setTimeout. cbn [timers set_reconnectTimeout set_next_timer set_timers].
    rewrite Hnone. done. }
  destruct e as [pk cb|to type data| |url|sid|sid data|sid|dt|tid]; cbn [Signaling.step].
  - by destruct (connect_fields pk cb s) as (_ & _ & -> & _).
  - by destruct (sendSignal_timers to type data s) as [-> _].
  - destruct (SignalingFacts.disconnect_fields s) as (_ & _ & _ & _ & _ & _ & ->).
    etrans; [apply clearTimeout_length|done].
  - unfold Signaling.setRelayUrl.
    match goal with |- context [set_currentRoom ?r ?x] => set (s1 := set_currentRoom r x) end.
    change (socket s1) with (socket s). destruct (socket s); [|done].
    destruct (SignalingFacts.reconnect_fields valid_url (disconnect s1)) as (_ & _ & ->).
    destruct (SignalingFacts.disconnect_fields s1) as (_ & _ & _ & _ & _ & _ & ->).
    etrans; [apply clearTimeout_length|done].
  - destruct (sockets s !! sid) as [[u [] h]|]; try done.
    destruct h; [|done]. by rewrite Hopen.
  - destruct (sockets s !! sid) as [[u [] []]|]; try done;
      by destruct (SignalingFacts.onmessage_fields JSON_parse data s) as (_ & _ & -> & _).
  - destruct (sockets s !! sid) as [[u [] []]|]; try done; apply Hclose.
  - done.
  - destruct (due tid s); [|done].
    destruct (SignalingFacts.reconnect_fields valid_url (clearTimeout (Some tid) s))
      as (_ & _ & ->).
    etrans; [apply clearTimeout_length|done].
Qed.

Lemma one_timeout_run events s :
  wf s -> (length (timers s) <= 1)%nat -> (length (timers (run events s)) <= 1)%nat.
Proof.
  revert s. induction events as [|e events IH]; intros s Hwf Hone; [done|].
  change (run (e :: events) s) with (run events (step e s)).
  apply IH; [by apply SignalingFacts.wf_step|by apply one_timeout_step].
Qed.

(** X19.  Whatever is called and whatever the sockets do, the service
    listens to at most one socket, the one [this.socket] names, and has at
    most one reconnection attempt pending, the one [this.reconnectTimeout]
    names. *)
Theorem one_socket_one_attempt stored history :
  let s := run history (init stored) in
  (forall sid ws, sockets s !! sid = Some ws -> ws_handlers ws = true -> socket s = Some sid)
  /\ (length (timers s) <= 1)%nat
  /\ (forall p, p ∈ timers s -> reconnectTimeout s = Some p.1).
Proof.
  intros s.
  assert (Hwf : wf s) by apply wf_run, SignalingFacts.wf_init.
  split_and!.
  - apply (wf_live _ Hwf).
  - apply one_timeout_run; [apply SignalingFacts.wf_init|simpl; lia].
  - apply (wf_timers _ Hwf).
Qed.

(** *** what every frame carries *)

Lemma labelled_same s s' :
  currentRoom s' = currentRoom s -> signalQueue s' = signalQueue s -> wire s' = wire s ->
  labelled s -> labelled s'.
Proof. unfold labelled. by intros -> -> ->. Qed.

Lemma labelled_connect pk cb s : labelled s -> labelled (connect pk cb s).
Proof.
  destruct (connect_fields pk cb s) as (Hw & Hq & _ & _ & _ & _ & Hr & _).
  by apply labelled_same.
Qed.

Lemma labelled_reconnect s : labelled s -> labelled (reconnect s).
Proof.
  unfold Signaling.reconnect. destruct (myPublicKey s) as [[|c k]|]; try done.
  destruct (onSignalCallback s); [apply labelled_connect|done].
Qed.

Lemma labelled_enqueue m s : stamped m -> labelled s -> labelled (enqueue m s).
Proof.
  intros Hm (Hr & Hq & Hw). split_and!; [done| |done].
  cbn [enqueue signalQueue set_signalQueue]. apply Forall_app. split; [done|by constructor].
Qed.

Lemma labelled_sendSignal to type data s : labelled s -> labelled (sendSignal to type data s).
Proof.
  intros Hs. unfold Signaling.sendSignal.
  destruct (myPublicKey s) as [[|c k]|]; try done.
  set (m := Build_SignalMessage type (String c k) to data (currentRoom s)).
  assert (Hm : stamped m) by (split; [done|apply Hs]).
  assert (Hq : labelled (match onSignalCallback (enqueue m s) with
                         | Some cb => connect (String c k) cb (enqueue m s)
                         | None => enqueue m s
                         end)).
  { destruct (onSignalCallback (enqueue m s)).
    - by apply labelled_connect, labelled_enqueue.
    - by apply labelled_enqueue. }
  destruct (socket s) as [sid|]; [|done].
  destruct (ready_of s sid) eqn:Hr; try done.
  - by apply labelled_enqueue.
  - unfold ws_send. rewrite Hr. destruct Hs as (? & ? & Hw).
    split_and!; [done|done|]. cbn [wire set_wire]. apply Forall_app.
    split; [done|by constructor].
Qed.

Lemma labelled_send_all messages s :
  labelled s ->
  labelled (foldl (fun s msg => sendSignal (sm_to msg) (sm_type msg) (sm_data msg) s) s messages).
Proof.
  revert s. induction messages as [|m ms IH]; intros s Hs; [done|].
  cbn [foldl]. by apply IH, labelled_sendSignal.
Qed.

Lemma labelled_flushQueue s : labelled s -> labelled (flushQueue s).
Proof.
  intros Hs. unfold Signaling.flushQueue. destruct (signalQueue s) as [|m ms] eqn:Hq; [done|].
  apply (labelled_send_all (m :: ms)). destruct Hs as (? & ? & ?).
  split_and!; [done|constructor|done].
Qed.

Lemma labelled_disconnect s : labelled s -> labelled (disconnect s).
Proof.
  intros (Hr & _ & Hw).
  destruct s as [[sid|] cb key [tid|] ex q url room ss ts nt n w d disp st];
    split_and!; first [done|constructor].
Qed.

Lemma or_else_nonempty x fallback :
  fallback <> EmptyString -> or_else x fallback <> EmptyString.
Proof. by destruct x as [[]|]. Qed.

Lemma labelled_step e s : labelled s -> labelled (step e s).
Proof.
  intros Hs.
  assert (Hready : forall sid r, labelled (set_ready sid r s)) by (intros; exact Hs).
  destruct e as [pk cb|to type data| |url|sid|sid data|sid|dt|tid]; cbn [Signaling.step].
  - by apply labelled_connect.
  - by apply labelled_sendSignal.
  - by apply labelled_disconnect.
  - unfold Signaling.setRelayUrl.
    match goal with |- context [set_currentRoom ?r ?x] => set (s1 := set_currentRoom r x) end.
    assert (H1 : labelled s1).
    { destruct Hs as (_ & ? & ?). split_and!; [|done|done].
      cbn [s1 currentRoom set_currentRoom]. destruct (room_param url); [|done].
      by apply or_else_nonempty. }
    change (socket s1) with (socket s). destruct (socket s); [|done].
    by apply labelled_reconnect, labelled_disconnect.
  - destruct (sockets s !! sid) as [[u [] h]|]; try done.
    destruct h; [|apply Hready]. unfold Signaling.onopen.
    apply labelled_flushQueue. exact (Hready sid OPEN).
  - assert (Hm : labelled (onmessage data s)).
    { unfold Signaling.onmessage. destruct (try_catch _ _) as [[msg|]|]; try done.
      by destruct (onSignalCallback s). }
    destruct (sockets s !! sid) as [[u [] []]|]; done.
  - assert (Hc : labelled (onclose (set_ready sid CLOSED s))).
    { unfold onclose. destruct (isExplicitDisconnect _); [apply Hready|].
      unfold setTimeout. set (s1 := dispatch false (set_ready sid CLOSED s)).
      destruct (reconnectTimeout s1); exact Hs. }
    destruct (sockets s !! sid) as [[u [] []]|]; first [done|apply Hc|apply Hready].
  - exact Hs.
  - destruct (due tid s); [|done]. apply labelled_reconnect. exact Hs.
Qed.

Lemma labelled_run events s : labelled s -> labelled (run events s).
Proof.
  revert s. induction events as [|e events IH]; intros s Hs; [done|].
  change (run (e :: events) s) with (run events (step e s)). by apply IH, labelled_step.
Qed.

(** X20.  Every frame the service hands to a socket, and every frame it
    holds in its queue, names a sender and a room: neither [from] nor
    [room] is ever the empty string. *)
Theorem frames_name_sender_and_room stored history m :
  let s := run history (init stored) in
  m ∈ signalQueue s \/ m ∈ (wire s).*2 ->
  sm_from m <> EmptyString /\ sm_room m <> EmptyString.
Proof.
  intros s Hm.
  assert (Hs : labelled s).
  { apply labelled_run. split_and!; [done|constructor|constructor]. }
  destruct Hs as (_ & Hq & Hw). destruct Hm as [Hm|Hm].
  - exact (proj1 (Forall_forall _ _) Hq _ Hm).
  - apply list_elem_of_fmap in Hm as (f & -> & Hf).
    exact (proj1 (Forall_forall _ _) Hw _ Hf).
Qed.

(** *** reconnection, end to end *)

Lemma connect_socket pk cb s :
  valid_url (relayUrl s) = true ->
  let s' := connect pk cb s in
  socket s' = Some (length (sockets s))
  /\ sockets s' !! length (sockets s) = Some (Build_WebSocket (relayUrl s) CONNECTING true)
  /\ length (sockets s') = S (length (sockets s)).
Proof.
  intros Hurl. unfold Signaling.connect.
  set (s0 := set_isExplicitDisconnect false _).
  destruct (SignalingFacts.release_fields s0)
    as (_ & _ & _ & _ & _ & _ & _ & Hu & _).
  rewrite Hu. change (relayUrl s0) with (relayUrl s). rewrite Hurl.
  cbn [socket sockets set_socket set_sockets].
  pose proof (SignalingFacts.length_release s0) as Hlen.
  change (sockets s0) with (sockets s) in Hlen.
  split_and!.
  - by rewrite Hlen.
  - rewrite <- Hlen. by rewrite list_lookup_middle.
  - rewrite length_app, Hlen. simpl. lia.
Qed.

Lemma connect_relayUrl pk cb s : relayUrl (connect pk cb s) = relayUrl s.
Proof.
  unfold Signaling.connect.
  set (s0 := set_isExplicitDisconnect false _).
  destruct (SignalingFacts.release_fields s0) as (_ & _ & _ & _ & _ & _ & _ & Hu & _).
  destruct (valid_url _); cbn [relayUrl set_socket set_sockets]; exact Hu.
Qed.

(** X21.  When the socket the service listens to closes without
    [disconnect] having been called, the service tries again after
    [reconnect_delay] and not before: until then the timer does not fire,
    and from then on it opens a fresh socket to the relay address and
    leaves no attempt pending. *)
Theorem lost_connection_is_retried stored history sid url r c k :
  let s := run history (init stored) in
  sockets s !! sid = Some (Build_WebSocket url r true) -> r <> CLOSED ->
  isExplicitDisconnect s = false ->
  myPublicKey s = Some (String c k) ->
  valid_url (relayUrl s) = true ->
  let closed := step (SocketClose sid) s in
  timers closed = [(next_timer s, (now s + reconnect_delay)%nat)]
  /\ forall dt,
       let fired := step (TimerFire (next_timer s)) (step (Tick dt) closed) in
       if decide (dt < reconnect_delay)%nat
       then fired = step (Tick dt) closed
       else socket fired = Some (length (sockets s))
            /\ sockets fired !! length (sockets s)
               = Some (Build_WebSocket (relayUrl s) CONNECTING true)
            /\ timers fired = [].
Proof.
  intros s Hws Hr Hex Hkey Hurl closed.
  assert (Hwf : wf s) by apply wf_run, SignalingFacts.wf_init.
  assert (Hcb : is_Some (onSignalCallback s)).
  { apply (wf_identity _ Hwf). intros Hnil. by rewrite Hnil in Hws. }
  destruct Hcb as [cb Hcb].
  assert (Hwf' : wf (dispatch false (set_ready sid CLOSED s))).
  { by apply SignalingFacts.wf_dispatch, SignalingFacts.wf_set_ready. }
  pose proof (SignalingFacts.clear_current_timeout _ Hwf') as Hnone.
  assert (Hclosed : closed =
    setTimeout reconnect_delay
      (clearTimeout (reconnectTimeout s) (dispatch false (set_ready sid CLOSED s)))).
  { unfold closed. cbn [Signaling.step]. rewrite Hws. unfold onclose.
    change (isExplicitDisconnect (dispatch false (set_ready sid CLOSED s)))
      with (isExplicitDisconnect s). rewrite Hex. by destruct r. }
  change (reconnectTimeout (dispatch false (set_ready sid CLOSED s)))
    with (reconnectTimeout s) in Hnone.
  assert (Ht : timers closed = [(next_timer s, (now s + reconnect_delay)%nat)]).
  { rewrite Hclosed. unfold setTimeout.
    cbn [timers set_reconnectTimeout set_next_timer set_timers]. rewrite Hnone.
    by destruct (reconnectTimeout s). }
  assert (Hfields : myPublicKey closed = Some (String c k) /\ onSignalCallback closed = Some cb
                    /\ relayUrl closed = relayUrl s /\ now closed = now s
                    /\ length (sockets closed) = length (sockets s)).
  { rewrite Hclosed. unfold setTimeout.
    destruct (reconnectTimeout s); cbn; rewrite ?length_alter; by split_and!. }
  destruct Hfields as (Hk' & Hcb' & Hu' & Hn' & Hl').
  split; [exact Ht|]. intros dt fired. unfold fired. cbn [Signaling.step].
  set (ticked := set_now (now closed + dt)%nat closed).
  assert (Hdue : due (next_timer s) ticked = bool_decide (reconnect_delay <= dt)%nat).
  { unfold due. change (timers ticked) with (timers closed). rewrite Ht.
    cbn [existsb fst snd]. change (now ticked) with (now closed + dt)%nat.
    rewrite Hn', Nat.eqb_refl, orb_false_r. cbn [andb].
    destruct (Nat.leb_spec (now s + reconnect_delay) (now s + dt)) as [Hle|Hlt].
    - rewrite bool_decide_eq_true_2; [done|lia].
    - rewrite bool_decide_eq_false_2; [done|lia]. }
  rewrite Hdue. destruct (decide (dt < reconnect_delay)%nat) as [Hdt|Hdt].
  - rewrite bool_decide_eq_false_2; [done|lia].
  - rewrite bool_decide_eq_true_2 by lia.
    unfold Signaling.reconnect.
    change (myPublicKey (clearTimeout (Some (next_timer s)) ticked)) with (myPublicKey closed).
    change (onSignalCallback (clearTimeout (Some (next_timer s)) ticked))
      with (onSignalCallback closed).
    rewrite Hk', Hcb'.
    set (cleared := clearTimeout (Some (next_timer s)) ticked).
    assert (Hcu : valid_url (relayUrl cleared) = true).
    { change (relayUrl cleared) with (relayUrl closed). by rewrite Hu'. }
    destruct (connect_socket (String c k) cb cleared Hcu) as (Hs1 & Hs2 & _).
    change (sockets cleared) with (sockets closed) in Hs1, Hs2.
    change (relayUrl cleared) with (relayUrl closed) in Hs2.
    rewrite Hl' in Hs1, Hs2. rewrite Hu' in Hs2.
    split_and!; [done|done|].
    destruct (connect_fields (String c k) cb cleared) as (_ & _ & -> & _).
    unfold cleared. cbn [clearTimeout timers set_timers].
    change (timers ticked) with (timers closed). rewrite Ht.
    rewrite filter_cons_False; [done|]. cbn. by intros H.
Qed.

(** X22.  [disconnect] is final until the service is asked to connect
    again: through any events that are not a call of [connect],
    [sendSignal] or [setRelayUrl] there is no current socket, no socket the
    service still listens to, and no reconnection attempt, pending or
    firing. *)
Theorem disconnect_is_final stored history later tid :
  forallb (fun e => negb (starts_connection e)) later = true ->
  let s := run later (disconnect (run history (init stored))) in
  socket s = None
  /\ (forall sid ws, sockets s !! sid = Some ws -> ws_handlers ws = false)
  /\ timers s = [] /\ step (TimerFire tid) s = s.
Proof.
  intros Hlater.
  set (s0 := disconnect (run history (init stored))).
  assert (Hwf0 : wf s0) by apply SignalingFacts.wf_disconnect, wf_run, SignalingFacts.wf_init.
  assert (H0 : timers s0 = [] /\ socket s0 = None /\
               forall sid ws, sockets s0 !! sid = Some ws -> ws_handlers ws = false).
  { destruct (SignalingFacts.disconnect_fields (run history (init stored)))
      as (_ & _ & Hs & _ & _ & _ & Ht).
    split_and!; [|done|].
    - unfold s0. rewrite Ht. apply SignalingFacts.clear_current_timeout, wf_run,
        SignalingFacts.wf_init.
    - intros sid ws Hws. destruct (ws_handlers ws) eqn:Hh; [|done].
      pose proof (wf_live _ Hwf0 _ _ Hws Hh) as Hcur. unfold s0 in Hcur. congruence. }
  clearbody s0. clear Hwf0. revert s0 H0.
  induction later as [|e later IH]; intros s0 H0.
  - destruct H0 as (Ht & Hs & Hd). cbn. split_and!; try done.
    unfold due. by rewrite Ht.
  - cbn [forallb] in Hlater. apply andb_prop in Hlater as [He Hlater].
    change (run (e :: later) s0) with (run later (step e s0)).
    apply IH; [done|].
    apply (SignalingFacts.stopped_step valid_url room_param JSON_parse e s0); [|done].
    by destruct e.
Qed.

(** X23.  Sending after [disconnect] connects again: with an identity and
    a handler on record and a relay address the browser accepts,
    [sendSignal] on a disconnected service queues the frame, opens a new
    socket and re-enables automatic reconnection. *)
Theorem send_after_disconnect_reconnects stored history to type data c k cb :
  let s := run history (init stored) in
  myPublicKey s = Some (String c k) -> onSignalCallback s = Some cb ->
  valid_url (relayUrl s) = true ->
  let s' := sendSignal to type data (disconnect s) in
  signalQueue s' = [Build_SignalMessage type (String c k) to data (currentRoom s)]
  /\ socket s' = Some (length (sockets s))
  /\ sockets s' !! length (sockets s) = Some (Build_WebSocket (relayUrl s) CONNECTING true)
  /\ isExplicitDisconnect s' = false.
Proof.
  intros s Hk Hcb Hurl s'.
  set (d := disconnect s).
  assert (Hd : myPublicKey d = Some (String c k) /\ onSignalCallback d = Some cb
               /\ socket d = None /\ signalQueue d = [] /\ relayUrl d = relayUrl s
               /\ currentRoom d = currentRoom s /\ length (sockets d) = length (sockets s)).
  { unfold d. clearbody s.
    destruct s as [[sid|] cb0 key [t|] ex q u room ss ts nt n w dl disp st];
      cbn in *; rewrite ?length_alter; by split_and!. }
  destruct Hd as (Hk' & Hcb' & Hs' & Hq' & Hu' & Hr' & Hl').
  assert (Hsend : s' = connect (String c k) cb
            (enqueue (Build_SignalMessage type (String c k) to data (currentRoom s)) d)).
  { unfold s', Signaling.sendSignal. fold d. rewrite Hk', Hs', Hr'.
    change (onSignalCallback (enqueue ?m d)) with (onSignalCallback d). by rewrite Hcb'. }
  set (m := Build_SignalMessage type (String c k) to data (currentRoom s)) in *.
  assert (Hcu : valid_url (relayUrl (enqueue m d)) = true).
  { change (relayUrl (enqueue m d)) with (relayUrl d). by rewrite Hu'. }
  destruct (connect_socket (String c k) cb (enqueue m d) Hcu) as (Hs1 & Hs2 & _).
  destruct (connect_fields (String c k) cb (enqueue m d))
    as (_ & Hq1 & _ & _ & _ & _ & _ & _ & _ & Hex).
  change (sockets (enqueue m d)) with (sockets d) in Hs1, Hs2.
  change (relayUrl (enqueue m d)) with (relayUrl d) in Hs2.
  rewrite Hl' in Hs1, Hs2. rewrite Hu' in Hs2.
  rewrite Hsend. split_and!; [|done|done|done].
  rewrite Hq1. cbn [enqueue signalQueue set_signalQueue]. by rewrite Hq'.
Qed.

(** X24.  Changing the relay address while a socket exists moves the
    service to the new address: the old socket is detached and closed, the
    new current socket is a fresh one to the new address, and frames sent
    from then on carry the room the address names, or [main] when it names
    none.  Without a socket the address is only recorded. *)
Theorem setRelayUrl_moves_connection stored history url c k :
  let s := run history (init stored) in
  myPublicKey s = Some (String c k) ->
  valid_url url = true ->
  let s' := setRelayUrl url s in
  relayUrl s' = url
  /\ currentRoom s' = match room_param url with
                      | Normal room => or_else room "main"
                      | Throw _ => "main"
                      end
  /\ match socket s with
     | Some old =>
         socket s' = Some (length (sockets s))
         /\ sockets s' !! length (sockets s) = Some (Build_WebSocket url CONNECTING true)
         /\ (forall ws, sockets s' !! old = Some ws ->
               ws_handlers ws = false /\ readyState ws <> OPEN /\ readyState ws <> CONNECTING)
     | None => socket s' = None /\ sockets s' = sockets s
     end.
Proof.
  intros s Hk Hurl s'.
  assert (Hwf : wf s) by apply wf_run, SignalingFacts.wf_init.
  unfold s', Signaling.setRelayUrl.
  match goal with |- context [set_currentRoom ?r ?x] => set (s1 := set_currentRoom r x) end.
  change (socket s1) with (socket s).
  destruct (socket s) as [old|] eqn:Hold; [|by split_and!].
  assert (Hcb : is_Some (onSignalCallback s)).
  { apply (wf_identity _ Hwf). intros Hnil.
    pose proof (wf_socket _ Hwf _ Hold) as Hlt. rewrite Hnil in Hlt. simpl in Hlt. lia. }
  destruct Hcb as [cb Hcb].
  set (d := disconnect s1).
  assert (Hd : myPublicKey d = Some (String c k) /\ onSignalCallback d = Some cb
               /\ socket d = None /\ relayUrl d = url
               /\ currentRoom d = currentRoom s1 /\ length (sockets d) = length (sockets s)
               /\ sockets d !! old = (fun ws => ws_close (ws_detach ws)) <$> sockets s !! old).
  { unfold d, s1. clearbody s. clear Hwf.
    destruct s as [sk cb0 key [t|] ex q u room ss ts nt n w dl disp st];
      cbn in *; subst; cbn; rewrite ?length_alter, ?list_lookup_alter_eq; by split_and!. }
  destruct Hd as (Hk' & Hcb' & Hs' & Hu' & Hr' & Hl' & Ho').
  assert (Hre : reconnect d = connect (String c k) cb d).
  { unfold Signaling.reconnect. by rewrite Hk', Hcb'. }
  rewrite Hre.
  assert (Hcu : valid_url (relayUrl d) = true) by by rewrite Hu'.
  destruct (connect_socket (String c k) cb d Hcu) as (Hs1 & Hs2 & _).
  destruct (connect_fields (String c k) cb d) as (_ & _ & _ & _ & _ & _ & Hroom & _).
  rewrite Hl' in Hs1, Hs2. rewrite Hu' in Hs2.
  assert (Hurl' : relayUrl (connect (String c k) cb d) = url).
  { by rewrite connect_relayUrl. }
  split_and!; [done|by rewrite Hroom, Hr'|done|done|].
  intros ws Hws.
  assert (Hkeep : sockets (connect (String c k) cb d) !! old = sockets d !! old).
  { unfold Signaling.connect.
    match goal with |- context [release_socket ?x] => set (s0 := x) end.
    assert (Hrel : release_socket s0 = s0).
    { unfold release_socket. change (socket s0) with (socket d). by rewrite Hs'. }
    rewrite Hrel. change (relayUrl s0) with (relayUrl d). rewrite Hcu.
    cbn [sockets set_socket set_sockets]. change (sockets s0) with (sockets d).
    apply lookup_app_l. rewrite Hl'. by apply (wf_socket _ Hwf). }
  rewrite Hkeep, Ho' in Hws.
  destruct (sockets s !! old) as [ws0|]; [|done]. injection Hws as <-.
  unfold ws_close, ws_detach. cbn. by destruct (readyState ws0).
Qed.

End Browser.

Lemma lost_connection_is_retried_witness :
  let s := example_run [Connect "me" 0; SocketOpen 0] (init None) in
  let closed := example_step (SocketClose 0) s in
  timers closed = [(next_timer s, (now s + reconnect_delay)%nat)]
  /\ forall dt,
       let fired := example_step (TimerFire (next_timer s)) (example_step (Tick dt) closed) in
       if decide (dt < reconnect_delay)%nat
       then fired = example_step (Tick dt) closed
       else socket fired = Some (length (sockets s))
            /\ sockets fired !! length (sockets s)
               = Some (Build_WebSocket (relayUrl s) CONNECTING true)
            /\ timers fired = [].
Proof.
  apply (lost_connection_is_retried any_url no_room parse_example None
           [Connect "me" 0; SocketOpen 0] 0 "ws://localhost:8080" OPEN "m" "e");
    first [reflexivity | discriminate].
Defined.

Lemma disconnect_is_final_witness :
  let s := example_run [SocketClose 0; Tick 5000; SocketMessage 0 "hello"]
             (disconnect (example_run [Connect "me" 0; SocketOpen 0] (init None))) in
  socket s = None
  /\ (forall sid ws, sockets s !! sid = Some ws -> ws_handlers ws = false)
  /\ timers s = [] /\ example_step (TimerFire 0) s = s.
Proof.
  apply (disconnect_is_final any_url no_room parse_example None
           [Connect "me" 0; SocketOpen 0] [SocketClose 0; Tick 5000; SocketMessage 0 "hello"] 0).
  reflexivity.
Defined.

Lemma send_after_disconnect_reconnects_witness :
  let s := example_run [Connect "me" 0; SocketOpen 0; Disconnect] (init None) in
  let s' := Signaling.sendSignal any_url "peer" offer JNull (disconnect s) in
  signalQueue s' = [Build_SignalMessage offer "me" "peer" JNull (currentRoom s)]
  /\ socket s' = Some (length (sockets s))
  /\ sockets s' !! length (sockets s) = Some (Build_WebSocket (relayUrl s) CONNECTING true)
  /\ isExplicitDisconnect s' = false.
Proof.
  apply (send_after_disconnect_reconnects any_url no_room parse_example None
           [Connect "me" 0; SocketOpen 0; Disconnect] "peer" offer JNull "m" "e" 0%nat);
    reflexivity.
Defined.

Lemma setRelayUrl_moves_connection_witness :
  let s := example_run [Connect "me" 0; SocketOpen 0] (init None) in
  let s' := Signaling.setRelayUrl any_url no_room "ws://elsewhere" s in
  relayUrl s' = "ws://elsewhere"
  /\ currentRoom s' = match no_room "ws://elsewhere" with
                      | Normal room => or_else room "main"
                      | Throw _ => "main"
                      end
  /\ match socket s with
     | Some old =>
         socket s' = Some (length (sockets s))
         /\ sockets s' !! length (sockets s)
            = Some (Build_WebSocket "ws://elsewhere" CONNECTING true)
         /\ (forall ws, sockets s' !! old = Some ws ->
               ws_handlers ws = false /\ readyState ws <> OPEN /\ readyState ws <> CONNECTING)
     | None => socket s' = None /\ sockets s' = sockets s
     end.
Proof.
  apply (setRelayUrl_moves_connection any_url no_room parse_example None
           [Connect "me" 0; SocketOpen 0] "ws://elsewhere" "m" "e"); reflexivity.
Defined.

Lemma frames_name_sender_and_room_witness :
  sm_from (Build_SignalMessage offer "me" "a" JNull "main") <> EmptyString /\
  sm_room (Build_SignalMessage offer "me" "a" JNull "main") <> EmptyString.
Proof.
  apply (frames_name_sender_and_room any_url no_room parse_example None
           [Connect "me" 0; SendSignal "a" offer JNull]).
  left. vm_compute. left.
Defined.

End SignalingMore.

(** * More on the peer connection manager *)

Module SessionFacts.
Import JS WebRTC SessionTerms.
Local Open Scope list_scope.
Local Open Scope nat_scope.

Lemma pcs_pc_release pc s i :
  pcs (pc_release pc s) !! i
  = if decide (i = pc) then released <$> pcs s !! i else pcs s !! i.
Proof.
  unfold pc_release, pc_close. cbn [pcs set_pcs].
  rewrite list_lookup_alter_eq.
  destruct (pcs s !! pc) as [[k h c]|] eqn:Hpc; cbn [fmap option_fmap option_map pc_detach
    pc_closed pc_peer pc_handlers].
  - destruct c; cbn [pcs set_pcs set_channels].
    + destruct (decide (i = pc)) as [->|Hne].
      * by rewrite list_lookup_alter_eq, Hpc.
      * by rewrite list_lookup_alter_ne.
    + destruct (decide (i = pc)) as [->|Hne].
      * by rewrite !list_lookup_alter_eq, Hpc.
      * by rewrite !list_lookup_alter_ne.
  - cbn [pcs set_pcs]. destruct (decide (i = pc)) as [->|Hne].
    + by rewrite list_lookup_alter_eq, Hpc.
    + by rewrite list_lookup_alter_ne.
Qed.

Lemma pcs_release_all (entries : list (string * nat)) s i :
  pcs (foldl (fun s e => pc_release e.2 s) s entries) !! i
  = if decide (i ∈ entries.*2) then released <$> pcs s !! i else pcs s !! i.
Proof.
  revert s. induction entries as [|[k v] entries IH]; intros s.
  - cbn. rewrite decide_False; [done|]. by intros ?%elem_of_nil.
  - cbn [foldl fmap list_fmap snd]. rewrite IH.
    fold (@fmap list _ _ _ (@snd string nat) entries).
    rewrite pcs_pc_release.
    destruct (decide (i = v)) as [->|Hne].
    + rewrite (decide_True (P := v ∈ v :: entries.*2)) by left.
      case_decide; [|done]. by destruct (pcs s !! v) as [[]|].
    + destruct (decide (i ∈ entries.*2)) as [Hin|Hin].
      * rewrite decide_True; [done|by right].
      * rewrite decide_False; [done|]. by intros [?|?]%elem_of_cons.
Qed.

Lemma cleanup_pcs s pc :
  pcs (cleanup s) !! pc
  = if decide (pc ∈ (connections s).*2) then released <$> pcs s !! pc else pcs s !! pc.
Proof.
  unfold cleanup. cbn [pcs call set_signaling set_statusCallbacks set_connections
                         set_dataChannels].
  rewrite pcs_release_all. done.
Qed.

(** *** what is released stays silent *)

Lemma silent_dc_release c : silent (dc_release c).
Proof. split; [done|]. unfold dc_release. cbn. destruct (dc_state c); auto. Qed.

Lemma silent_dc_abort pc c : silent c -> silent (dc_abort pc c).
Proof. intros [Hp Hs]. unfold dc_abort. case_decide; [|done]. split; [done|]. by right. Qed.

Lemma silent_release_all (entries : list (string * nat)) (l : list DataChannel) i c :
  l !! i = Some c -> silent c ->
  exists c', foldl (fun cs e => alter dc_release e.2 cs) l entries !! i = Some c' /\ silent c'.
Proof.
  revert l c. induction entries as [|[k v] entries IH]; intros l c Hl Hc; [by eauto|].
  cbn [foldl snd]. destruct (decide (i = v)) as [->|Hne].
  - apply (IH _ (dc_release c)); [|apply silent_dc_release].
    by rewrite list_lookup_alter_eq, Hl.
  - apply (IH _ c); [|done]. by rewrite list_lookup_alter_ne.
Qed.

Lemma registered_release_all (entries : list (string * nat)) (l : list DataChannel) i c k :
  (k, i) ∈ entries -> l !! i = Some c ->
  exists c', foldl (fun cs e => alter dc_release e.2 cs) l entries !! i = Some c' /\ silent c'.
Proof.
  revert l c. induction entries as [|[k0 v] entries IH]; intros l c Hin Hl.
  - by apply elem_of_nil in Hin.
  - cbn [foldl snd]. apply elem_of_cons in Hin as [[= <- <-]|Hin].
    + apply (silent_release_all _ _ _ (dc_release c)); [|apply silent_dc_release].
      by rewrite list_lookup_alter_eq, Hl.
    + destruct (decide (i = v)) as [->|Hne].
      * apply (IH _ (dc_release c)); [done|]. by rewrite list_lookup_alter_eq, Hl.
      * apply (IH _ c); [done|]. by rewrite list_lookup_alter_ne.
Qed.

Lemma silent_pc_release pc s i c :
  channels s !! i = Some c -> silent c ->
  exists c', channels (pc_release pc s) !! i = Some c' /\ silent c'.
Proof.
  intros Hi Hc. unfold pc_release, pc_close. cbn [pcs set_pcs].
  destruct (alter pc_detach pc (pcs s) !! pc) as [p|]; [|by eauto].
  destruct (pc_closed p); [by eauto|].
  cbn [channels set_channels set_pcs]. rewrite list_lookup_fmap, Hi.
  eexists. split; [done|]. by apply silent_dc_abort.
Qed.

Lemma silent_pc_release_all (entries : list (string * nat)) s i c :
  channels s !! i = Some c -> silent c ->
  exists c', channels (foldl (fun s e => pc_release e.2 s) s entries) !! i = Some c'
             /\ silent c'.
Proof.
  revert s c. induction entries as [|[k v] entries IH]; intros s c Hi Hc; [by eauto|].
  cbn [foldl snd]. destruct (silent_pc_release v s i c Hi Hc) as (c' & Hi' & Hc').
  by apply (IH _ c').
Qed.

Lemma silent_cleanup s i c :
  channels s !! i = Some c -> silent c \/ i ∈ (dataChannels s).*2 ->
  exists c', channels (cleanup s) !! i = Some c' /\ silent c'.
Proof.
  intros Hi Hc. unfold cleanup.
  cbn [channels call set_signaling set_statusCallbacks set_connections set_dataChannels].
  assert (H1 : exists c1,
    foldl (fun cs e => alter dc_release e.2 cs) (channels s) (dataChannels s) !! i = Some c1
    /\ silent c1).
  { destruct Hc as [Hc|Hin].
    - by apply (silent_release_all _ _ _ c).
    - apply list_elem_of_fmap in Hin as ([k v] & -> & Hin).
      by apply (registered_release_all _ _ _ c k). }
  destruct H1 as (c1 & H1 & Hc1).
  by apply (silent_pc_release_all _ _ _ c1).
Qed.

Lemma silent_step e s i c :
  channels s !! i = Some c -> silent c ->
  exists c', channels (step e s) !! i = Some c' /\ silent c'.
Proof.
  intros Hi Hc.
  assert (Hlt : i < length (channels s)) by by eapply lookup_lt_Some.
  assert (Hsame : forall s', channels s' = channels s ->
            exists c', channels s' !! i = Some c' /\ silent c').
  { intros s' ->. eauto. }
  assert (Hclean : exists c', channels (cleanup s) !! i = Some c' /\ silent c').
  { apply (silent_cleanup s i c); auto. }
  destruct e; cbn [step].
  - exact Hclean.
  - exact Hclean.
  - unfold connectToPeer. destruct (is_open peerKey s); [by eauto|].
    cbn. rewrite list_lookup_alter_ne by lia. rewrite lookup_app_l by done. eauto.
  - apply Hsame. unfold sendMessage. destruct (map_get _ _); [|done].
    destruct (channel_state _ _); try done. by destruct outcome.
  - by apply Hsame.
  - apply Hsame. unfold handleSignal.
    destruct (map_get _ (connections s)); by destruct (Signaling.sm_type signal).
  - apply Hsame. unfold resume. destruct (pending s !! n) as [[]|]; by destruct result.
  - apply Hsame. destruct (pcs s !! pc) as [[k [] cl]|]; try done.
    unfold onicecandidate. by destruct candidate.
  - apply Hsame. destruct (pcs s !! pc) as [[k [] cl]|]; try done.
    unfold notify. by destruct (map_get _ _).
  - destruct (pcs s !! pc) as [[k [] cl]|]; try by eauto.
    cbn. rewrite list_lookup_alter_ne by lia. rewrite lookup_app_l by done. eauto.
  - destruct (decide (ch = i)) as [->|Hne].
    + rewrite Hi. destruct c as [o l st p]. destruct Hc as [Hp [Hs|Hs]]; cbn in Hp, Hs;
        subst; eauto.
    + assert (Hkeep : forall st, channels (set_channel_state ch st s) !! i = Some c).
      { intros st. cbn. by rewrite list_lookup_alter_ne. }
      destruct (channels s !! ch) as [[o l [] [k|]]|]; try by eauto.
      all: unfold notify; cbn [set_statuses channels];
        destruct (map_get _ _); cbn [channels set_statuses]; rewrite Hkeep; eauto.
  - destruct (decide (ch = i)) as [->|Hne].
    + rewrite Hi. destruct c as [o l st p]. destruct Hc as [Hp [Hs|Hs]]; cbn in Hp, Hs;
        subst; [|by eauto].
      cbn. rewrite list_lookup_alter_eq, Hi. cbn. eexists. split; [done|]. split; [done|].
      by right.
    + assert (Hkeep : forall st, channels (set_channel_state ch st s) !! i = Some c).
      { intros st. cbn. by rewrite list_lookup_alter_ne. }
      destruct (channels s !! ch) as [[o l [] [k|]]|]; try by eauto.
      all: try (rewrite Hkeep; by eauto).
      all: unfold channel_onclose, notify; cbn [set_statuses set_dataChannels channels];
        destruct (map_get _ _); cbn [channels set_statuses set_dataChannels];
        rewrite Hkeep; eauto.
  - apply Hsame. destruct (channels s !! ch) as [[o l [] [k|]]|]; try done.
    unfold channel_onmessage. by destruct (onMessageCallback s).
Qed.

Lemma silent_run events s i c :
  channels s !! i = Some c -> silent c ->
  exists c', channels (run events s) !! i = Some c' /\ silent c'.
Proof.
  revert s c. induction events as [|e events IH]; intros s c Hi Hc; [by eauto|].
  destruct (silent_step e s i c Hi Hc) as (c' & Hi' & Hc').
  change (run (e :: events) s) with (run events (step e s)). by apply (IH _ c').
Qed.

Lemma released_step e s i p :
  pcs s !! i = Some (released p) -> pcs (step e s) !! i = Some (released p).
Proof.
  intros Hi.
  assert (Hsame : forall s', pcs s' = pcs s -> pcs s' !! i = Some (released p)).
  { by intros s' ->. }
  assert (Hclean : pcs (cleanup s) !! i = Some (released p)).
  { rewrite cleanup_pcs, Hi. by case_decide. }
  assert (Hcreate : forall k, pcs (createPeerConnection k s).1 !! i = Some (released p)).
  { intros k. cbn. by apply lookup_app_l_Some. }
  destruct e; cbn [step].
  - exact Hclean.
  - exact Hclean.
  - unfold connectToPeer. destruct (is_open peerKey s); [done|]. apply Hcreate.
  - apply Hsame. unfold sendMessage. destruct (map_get _ _); [|done].
    destruct (channel_state _ _); try done. by destruct outcome.
  - by apply Hsame.
  - unfold handleSignal. destruct (map_get _ (connections s)).
    + apply Hsame. by destruct (Signaling.sm_type signal).
    + rewrite <- (Hcreate (Signaling.sm_from signal)).
      by destruct (Signaling.sm_type signal).
  - apply Hsame. unfold resume. destruct (pending s !! n) as [[]|]; by destruct result.
  - apply Hsame. destruct (pcs s !! pc) as [[k [] cl]|]; try done.
    unfold onicecandidate. by destruct candidate.
  - apply Hsame. destruct (pcs s !! pc) as [[k [] cl]|]; try done.
    unfold notify. by destruct (map_get _ _).
  - apply Hsame. by destruct (pcs s !! pc) as [[k [] cl]|].
  - apply Hsame. destruct (channels s !! ch) as [[o l [] [k|]]|]; try done;
      unfold notify; cbn; by destruct (map_get _ _).
  - apply Hsame. destruct (channels s !! ch) as [[o l [] [k|]]|]; try done;
      unfold channel_onclose, notify; cbn; by destruct (map_get _ _).
  - apply Hsame. destruct (channels s !! ch) as [[o l [] [k|]]|]; try done.
    unfold channel_onmessage. by destruct (onMessageCallback s).
Qed.

Lemma released_run events s i p :
  pcs s !! i = Some (released p) -> pcs (run events s) !! i = Some (released p).
Proof.
  revert s. induction events as [|e events IH]; intros s Hi; [done|].
  change (run (e :: events) s) with (run events (step e s)). by apply IH, released_step.
Qed.

(** *** what [pc.close()] does to the channels of the connection *)

Lemma closed_release_all (entries : list (string * nat)) (l : list DataChannel) i c :
  l !! i = Some c ->
  exists c', foldl (fun cs e => alter dc_release e.2 cs) l entries !! i = Some c'
             /\ dc_owner c' = dc_owner c
             /\ (dc_state c = ch_closed -> dc_state c' = ch_closed).
Proof.
  revert l c. induction entries as [|[k v] entries IH]; intros l c Hl; [by eauto|].
  cbn [foldl snd]. destruct (decide (i = v)) as [->|Hne].
  - destruct (IH (alter dc_release v l) (dc_release c)) as (c' & Hc' & Ho & Hs).
    { by rewrite list_lookup_alter_eq, Hl. }
    exists c'. split_and!; [done|done|]. intros Hcl. apply Hs. unfold dc_release. cbn.
    by rewrite Hcl.
  - apply IH. by rewrite list_lookup_alter_ne.
Qed.

Lemma closed_pc_release v s i c :
  channels s !! i = Some c ->
  exists c', channels (pc_release v s) !! i = Some c'
             /\ dc_owner c' = dc_owner c
             /\ (dc_state c = ch_closed -> dc_state c' = ch_closed)
             /\ (dc_owner c = v ->
                 (exists p, pcs s !! v = Some p /\ pc_closed p = false) ->
                 dc_state c' = ch_closed).
Proof.
  intros Hi. unfold pc_release, pc_close. cbn [pcs set_pcs].
  rewrite list_lookup_alter_eq.
  destruct (pcs s !! v) as [[k h cl]|] eqn:Hv; cbn [fmap option_fmap option_map pc_detach
    pc_closed pc_peer pc_handlers].
  - destruct cl; cbn [channels set_channels set_pcs].
    + exists c. split_and!; try done. by intros _ (p & [= <-] & ?).
    + rewrite list_lookup_fmap, Hi. cbn. eexists. split; [done|].
      unfold dc_abort. case_decide; cbn; split_and!; done.
  - exists c. cbn [channels set_pcs]. split_and!; try done. by intros _ (p & ? & _).
Qed.

Lemma pcs_pc_release_other v s pc :
  pc <> v -> pcs (pc_release v s) !! pc = pcs s !! pc.
Proof. intros Hne. rewrite pcs_pc_release. by rewrite decide_False. Qed.

Lemma closed_pc_release_all (entries : list (string * nat)) s i c :
  channels s !! i = Some c ->
  exists c', channels (foldl (fun s e => pc_release e.2 s) s entries) !! i = Some c'
             /\ dc_owner c' = dc_owner c
             /\ (dc_state c = ch_closed -> dc_state c' = ch_closed).
Proof.
  revert s c. induction entries as [|[k v] entries IH]; intros s c Hi; [by eauto|].
  cbn [foldl snd]. destruct (closed_pc_release v s i c Hi) as (c1 & H1 & Ho1 & Hs1 & _).
  destruct (IH _ c1 H1) as (c' & Hc' & Ho & Hs).
  exists c'. split_and!; [done|congruence|auto].
Qed.

Lemma aborted_pc_release_all (entries : list (string * nat)) s i c k pc :
  (k, pc) ∈ entries ->
  channels s !! i = Some c -> dc_owner c = pc ->
  dc_state c = ch_closed \/ (exists p, pcs s !! pc = Some p /\ pc_closed p = false) ->
  exists c', channels (foldl (fun s e => pc_release e.2 s) s entries) !! i = Some c'
             /\ dc_state c' = ch_closed.
Proof.
  revert s c. induction entries as [|[k0 v] entries IH]; intros s c Hin Hi Ho Hst.
  - by apply elem_of_nil in Hin.
  - cbn [foldl snd].
    destruct (closed_pc_release v s i c Hi) as (c1 & H1 & Ho1 & Hs1 & Hab).
    destruct Hst as [Hcl|Hopen].
    + destruct (closed_pc_release_all entries _ i c1 H1) as (c' & Hc' & _ & Hs).
      exists c'. split; [done|]. auto.
    + destruct (decide (pc = v)) as [->|Hne].
      * destruct (closed_pc_release_all entries _ i c1 H1) as (c' & Hc' & _ & Hs).
        exists c'. split; [done|]. apply Hs. by apply Hab.
      * apply elem_of_cons in Hin as [[= _ ?]|Hin]; [done|].
        apply (IH _ c1); [done|done|congruence|].
        right. by rewrite pcs_pc_release_other.
Qed.

Lemma aborted_cleanup s k pc p i c :
  (k, pc) ∈ connections s -> pcs s !! pc = Some p -> pc_closed p = false ->
  channels s !! i = Some c -> dc_owner c = pc ->
  exists c', channels (cleanup s) !! i = Some c' /\ dc_state c' = ch_closed.
Proof.
  intros Hin Hpc Hp Hi Ho. unfold cleanup.
  cbn [channels call set_signaling set_statusCallbacks set_connections set_dataChannels].
  destruct (closed_release_all (dataChannels s) (channels s) i c Hi) as (c1 & H1 & Ho1 & _).
  apply (aborted_pc_release_all _ _ i c1 k pc); [done|done|congruence|].
  right. by exists p.
Qed.

Lemma closed_channel_step e s i c :
  channels s !! i = Some c -> dc_state c = ch_closed ->
  exists c', channels (step e s) !! i = Some c' /\ dc_state c' = ch_closed.
Proof.
  intros Hi Hc.
  assert (Hlt : i < length (channels s)) by by eapply lookup_lt_Some.
  assert (Hsame : forall s', channels s' = channels s ->
            exists c', channels s' !! i = Some c' /\ dc_state c' = ch_closed).
  { intros s' ->. eauto. }
  assert (Hclean : exists c', channels (cleanup s) !! i = Some c' /\ dc_state c' = ch_closed).
  { unfold cleanup.
    cbn [channels call set_signaling set_statusCallbacks set_connections set_dataChannels].
    destruct (closed_release_all (dataChannels s) (channels s) i c Hi) as (c1 & H1 & _ & Hs1).
    destruct (closed_pc_release_all (connections s)
                (set_channels (foldl (fun cs e => alter dc_release e.2 cs) (channels s)
                                 (dataChannels s)) s) i c1 H1) as (c' & Hc' & _ & Hs).
    exists c'. split; [done|]. auto. }
  destruct e; cbn [step].
  - exact Hclean.
  - exact Hclean.
  - unfold connectToPeer. destruct (is_open peerKey s); [by eauto|].
    cbn. rewrite list_lookup_alter_ne by lia. rewrite lookup_app_l by done. eauto.
  - apply Hsame. unfold sendMessage. destruct (map_get _ _); [|done].
    destruct (channel_state _ _); try done. by destruct outcome.
  - by apply Hsame.
  - apply Hsame. unfold handleSignal.
    destruct (map_get _ (connections s)); by destruct (Signaling.sm_type signal).
  - apply Hsame. unfold resume. destruct (pending s !! n) as [[]|]; by destruct result.
  - apply Hsame. destruct (pcs s !! pc) as [[k [] cl]|]; try done.
    unfold onicecandidate. by destruct candidate.
  - apply Hsame. destruct (pcs s !! pc) as [[k [] cl]|]; try done.
    unfold notify. by destruct (map_get _ _).
  - destruct (pcs s !! pc) as [[k [] cl]|]; try by eauto.
    cbn. rewrite list_lookup_alter_ne by lia. rewrite lookup_app_l by done. eauto.
  - destruct (decide (ch = i)) as [->|Hne].
    + rewrite Hi. destruct c as [o l st p]. cbn in Hc. subst. eauto.
    + assert (Hkeep : forall st, channels (set_channel_state ch st s) !! i = Some c).
      { intros st. cbn. by rewrite list_lookup_alter_ne. }
      destruct (channels s !! ch) as [[o l [] [k|]]|]; try by eauto.
      all: unfold notify; cbn [set_statuses channels];
        destruct (map_get _ _); cbn [channels set_statuses]; rewrite Hkeep; eauto.
  - destruct (decide (ch = i)) as [->|Hne].
    + rewrite Hi. destruct c as [o l st p]. cbn in Hc. subst. eauto.
    + assert (Hkeep : forall st, channels (set_channel_state ch st s) !! i = Some c).
      { intros st. cbn. by rewrite list_lookup_alter_ne. }
      destruct (channels s !! ch) as [[o l [] [k|]]|]; try by eauto.
      all: try (rewrite Hkeep; by eauto).
      all: unfold channel_onclose, notify; cbn [set_statuses set_dataChannels channels];
        destruct (map_get _ _); cbn [channels set_statuses set_dataChannels];
        rewrite Hkeep; eauto.
  - apply Hsame. destruct (channels s !! ch) as [[o l [] [k|]]|]; try done.
    unfold channel_onmessage. by destruct (onMessageCallback s).
Qed.

Lemma closed_channel_run events s i c :
  channels s !! i = Some c -> dc_state c = ch_closed ->
  exists c', channels (run events s) !! i = Some c' /\ dc_state c' = ch_closed.
Proof.
  revert s c. induction events as [|e events IH]; intros s c Hi Hc; [by eauto|].
  destruct (closed_channel_step e s i c Hi Hc) as (c' & Hi' & Hc').
  change (run (e :: events) s) with (run events (step e s)). by apply (IH _ c').
Qed.

(** X25.  What [cleanup] releases never calls back.  A channel and a
    negotiation object that are registered when [cleanup] runs are without
    handlers from then on, the channel closing or closed and the negotiation
    object closed, through whatever calls and events follow: a message or an
    [open] event of such a channel, and a candidate, a state change or an
    incoming channel of such a negotiation object, change nothing.  Every
    channel of a registered negotiation object that was not closed yet,
    registered itself or not, is closed from then on, so that a message or
    an [open] event of it changes nothing either.  Right after [cleanup],
    [sendMessage] fails for every peer. *)
Theorem cleanup_silences_registered s later :
  let s' := run later (cleanup s) in
  (forall k ch c, (k, ch) ∈ dataChannels s -> channels s !! ch = Some c ->
     (exists c', channels s' !! ch = Some c' /\ dc_peer c' = None
                 /\ (dc_state c' = ch_closing \/ dc_state c' = ch_closed))
     /\ (forall data, step (ChannelMessage ch data) s' = s')
     /\ step (ChannelOpen ch) s' = s')
  /\ (forall k pc p, (k, pc) ∈ connections s -> pcs s !! pc = Some p ->
        pcs s' !! pc = Some (Build_PeerConnection (pc_peer p) false true)
        /\ (forall candidate, step (IceCandidate pc candidate) s' = s')
        /\ (forall ice, step (IceStateChange pc ice) s' = s')
        /\ (forall label st, step (RemoteChannel pc label st) s' = s'))
  /\ (forall k pc p ch c,
        (k, pc) ∈ connections s -> pcs s !! pc = Some p -> pc_closed p = false ->
        channels s !! ch = Some c -> dc_owner c = pc ->
        (exists c', channels s' !! ch = Some c' /\ dc_state c' = ch_closed)
        /\ (forall data, step (ChannelMessage ch data) s' = s')
        /\ step (ChannelOpen ch) s' = s')
  /\ (forall peerKey message outcome,
        sendMessage peerKey message outcome (cleanup s) = (Normal false, cleanup s)).
Proof.
  intros s'. split_and!.
  - intros k ch c Hin Hch.
    assert (Hreg : ch ∈ (dataChannels s).*2).
    { apply list_elem_of_fmap. by exists (k, ch). }
    destruct (silent_cleanup s ch c Hch (or_intror Hreg)) as (c1 & H1 & Hc1).
    destruct (silent_run later _ ch c1 H1 Hc1) as (c' & Hc' & Hp & Hs).
    fold s' in Hc'. split_and!.
    + by exists c'.
    + intros data. cbn [step]. rewrite Hc'. destruct c' as [o l st p]. cbn in Hp. subst p.
      by destruct st.
    + cbn [step]. rewrite Hc'. destruct c' as [o l st p]. cbn in Hp, Hs. subst p.
      by destruct Hs as [->| ->].
  - intros k pc p Hin Hpc.
    assert (Hreg : pc ∈ (connections s).*2).
    { apply list_elem_of_fmap. by exists (k, pc). }
    assert (H1 : pcs (cleanup s) !! pc = Some (released p)).
    { rewrite cleanup_pcs, decide_True, Hpc by done. done. }
    pose proof (released_run later _ _ _ H1) as Hp'. fold s' in Hp'.
    split_and!; [done|..]; intros; cbn [step]; by rewrite Hp'.
  - intros k pc p ch c Hin Hpc Hp Hch Ho.
    destruct (aborted_cleanup s k pc p ch c Hin Hpc Hp Hch Ho) as (c1 & H1 & Hc1).
    destruct (closed_channel_run later _ ch c1 H1 Hc1) as (c' & Hc' & Hs).
    fold s' in Hc'.
    split_and!.
    + by exists c'.
    + intros data. cbn [step]. rewrite Hc'. destruct c' as [o l st q]. cbn in Hs. by subst st.
    + cbn [step]. rewrite Hc'. destruct c' as [o l st q]. cbn in Hs. by subst st.
  - done.
Qed.

Lemma elem_of_map_set {V} k (v : V) m k' v' :
  (k', v') ∈ map_set k v m -> (k' = k /\ v' = v) \/ (k', v') ∈ m.
Proof.
  induction m as [|[k0 v0] m IH]; cbn [map_set].
  - intros [= -> ->]%list_elem_of_singleton. by left.
  - case_decide as Hk.
    + intros [[= -> ->]|Hin]%elem_of_cons; [by left|]. right. by right.
    + intros [[= -> ->]|Hin]%elem_of_cons; [right; left|].
      destruct (IH Hin) as [?|?]; [by left|]. right. by right.
Qed.

Lemma elem_of_map_set_other {V} k (v : V) m k' v' :
  NoDup m.*1 ->
  (k', v') ∈ map_set k v m -> (k' = k /\ v' = v) \/ ((k', v') ∈ m /\ k' <> k).
Proof.
  induction m as [|[k0 v0] m IH]; cbn [map_set fmap list_fmap fst].
  - intros _ [= -> ->]%list_elem_of_singleton. by left.
  - fold (@fmap list _ _ _ (@fst string V) m). intros [Hk0 Hm]%NoDup_cons.
    case_decide as Hk.
    + subst k0. intros [[= -> ->]|Hin]%elem_of_cons; [by left|]. right.
      split; [by right|]. intros ->. apply Hk0, list_elem_of_fmap. by exists (k, v').
    + intros [[= -> ->]|Hin]%elem_of_cons.
      * right. split; [left|]. by intros ->.
      * destruct (IH Hm Hin) as [?|[? ?]]; [by left|]. right. split; [by right|done].
Qed.

Lemma map_get_elem {V} k (v : V) m : map_get k m = Some v -> (k, v) ∈ m.
Proof.
  induction m as [|[k0 v0] m IH]; cbn [map_get]; [done|].
  case_decide as Hk.
  - intros [= ->]. subst. left.
  - intros H. right. auto.
Qed.

Lemma map_get_delete {V} k (m : list (string * V)) :
  NoDup m.*1 -> map_get k (map_delete k m) = None.
Proof.
  induction m as [|[k0 v0] m IH]; cbn [map_get map_delete fmap list_fmap fst]; [done|].
  fold (@fmap list _ _ _ (@fst string V) m).
  intros [Hk0 Hm]%NoDup_cons. case_decide as Hk.
  - subst. destruct (map_get k0 m) as [v|] eqn:Hg; [|done].
    apply map_get_elem in Hg. destruct Hk0. apply list_elem_of_fmap. by exists (k0, v).
  - cbn [map_get]. rewrite decide_False by done. by apply IH.
Qed.

Lemma registered_live_create peerKey s :
  registered_live s -> registered_live (createPeerConnection peerKey s).1.
Proof.
  intros Hs k pc Hin. cbn in Hin |- *.
  apply elem_of_map_set in Hin as [[-> ->]|Hin].
  - by rewrite list_lookup_middle.
  - apply lookup_app_l_Some. by apply Hs.
Qed.

Lemma registered_live_same s s' :
  connections s' = connections s -> pcs s' = pcs s ->
  registered_live s -> registered_live s'.
Proof. unfold registered_live. by intros -> ->. Qed.

Lemma registered_live_step e s : registered_live s -> registered_live (step e s).
Proof.
  intros Hs.
  assert (Hnil : forall s', connections s' = [] -> registered_live s').
  { intros s' Hnil k pc Hin. rewrite Hnil in Hin. by apply elem_of_nil in Hin. }
  destruct e; cbn [step].
  - by apply Hnil.
  - by apply Hnil.
  - unfold connectToPeer. destruct (is_open peerKey s); [done|].
    apply (registered_live_same (createPeerConnection peerKey s).1); [done|done|].
    by apply registered_live_create.
  - unfold sendMessage. destruct (map_get _ _); [|done].
    destruct (channel_state _ _); try done. by destruct outcome.
  - done.
  - unfold handleSignal. destruct (map_get _ (connections s)).
    + by destruct (Signaling.sm_type signal).
    + apply (registered_live_same (createPeerConnection (Signaling.sm_from signal) s).1);
        [by destruct (Signaling.sm_type signal)..|].
      by apply registered_live_create.
  - unfold resume. destruct (pending s !! n) as [[]|]; destruct result; done.
  - destruct (pcs s !! pc) as [[k [] c]|]; try done.
    unfold onicecandidate. by destruct candidate.
  - destruct (pcs s !! pc) as [[k [] c]|]; try done.
    unfold notify. by destruct (map_get _ _).
  - destruct (pcs s !! pc) as [[k [] c]|]; done.
  - destruct (channels s !! ch) as [[o l [] [k|]]|]; try done;
      unfold notify; cbn; by destruct (map_get _ _).
  - destruct (channels s !! ch) as [[o l [] [k|]]|]; try done;
      unfold channel_onclose, notify; cbn; by destruct (map_get _ _).
  - destruct (channels s !! ch) as [[o l [] [k|]]|]; try done.
    unfold channel_onmessage. by destruct (onMessageCallback s).
Qed.

Lemma registered_live_run events : registered_live (run events init_state).
Proof.
  induction events as [|e events IH] using rev_ind.
  - by intros k pc ?%elem_of_nil.
  - unfold run. rewrite foldl_app. by apply registered_live_step.
Qed.

(** X26.  A negotiation object that [connectToPeer] replaces is never
    released: when a peer that already has one is connected to again, the
    earlier object is dropped from the map with its handlers installed and
    unclosed, and a later [cleanup] closes the new object only. *)
Theorem replaced_connection_outlives_cleanup events peerKey old :
  let s := run events init_state in
  map_get peerKey (connections s) = Some old ->
  is_open peerKey s = false ->
  let s' := cleanup (connectToPeer peerKey s) in
  pcs s' !! old = Some (Build_PeerConnection peerKey true false)
  /\ pcs s' !! length (pcs s) = Some (Build_PeerConnection peerKey false true).
Proof.
  intros s Hold Hopen s'.
  pose proof (registered_live_run events) as Hlive. fold s in Hlive.
  destruct (WebRTCFacts.keys_unique_run events) as [Hkeys _]. fold s in Hkeys.
  pose proof (Hlive _ _ (map_get_elem _ _ _ Hold)) as Hpc.
  destruct (WebRTCFacts.connectToPeer_fields peerKey s Hopen) as (Hc & _ & Hp & _).
  unfold s'. rewrite !cleanup_pcs, Hc, Hp. split.
  - rewrite decide_False.
    + by apply lookup_app_l_Some.
    + intros ([k v] & Hv & Hin)%list_elem_of_fmap. cbn in Hv. subst v.
      apply elem_of_map_set_other in Hin; [|done].
      destruct Hin as [[_ Hnew]|[Hin Hne]].
      * apply lookup_lt_Some in Hpc. lia.
      * apply Hlive in Hin. rewrite Hpc in Hin. by injection Hin.
  - rewrite decide_True.
    + by rewrite list_lookup_middle.
    + apply list_elem_of_fmap. exists (peerKey, length (pcs s)). split; [done|].
      apply map_get_elem, WebRTCFacts.map_get_set_eq.
Qed.

(** X27.  When a channel that was set up for a peer closes, the peer is
    left without a registered channel, whichever channel the map held for
    it: the close of a channel that had been replaced unregisters its
    replacement, and [sendMessage] to the peer fails from then on. *)
Theorem channel_close_unregisters_peer events ch owner label st peerKey :
  let s := run events init_state in
  channels s !! ch = Some (Build_DataChannel owner label st (Some peerKey)) ->
  st <> ch_closed ->
  let s' := step (ChannelClose ch) s in
  map_get peerKey (dataChannels s') = None
  /\ forall message outcome, sendMessage peerKey message outcome s' = (Normal false, s').
Proof.
  intros s Hch Hst s'.
  destruct (WebRTCFacts.keys_unique_run events) as [_ Hkeys]. fold s in Hkeys.
  assert (Hgone : map_get peerKey (dataChannels s') = None).
  { unfold s'. cbn [step]. rewrite Hch.
    assert (Hdel : dataChannels (channel_onclose peerKey (set_channel_state ch ch_closed s))
                   = map_delete peerKey (dataChannels s)).
    { unfold channel_onclose, notify. cbn. by destruct (map_get _ _). }
    destruct st; try done; rewrite Hdel; by apply map_get_delete. }
  split; [done|]. intros message outcome. unfold sendMessage. by rewrite Hgone.
Qed.

Lemma cleanup_silences_registered_witness :
  (exists c', channels (run [ConnectToPeer "k"; ChannelOpen 1]
                          (cleanup (run [ConnectToPeer "k"; ChannelOpen 0] init_state))) !! 0
              = Some c' /\ dc_peer c' = None
              /\ (dc_state c' = ch_closing \/ dc_state c' = ch_closed))
  /\ pcs (run [ConnectToPeer "k"; ChannelOpen 1]
            (cleanup (run [ConnectToPeer "k"; ChannelOpen 0] init_state))) !! 0
     = Some (Build_PeerConnection "k" false true).
Proof.
  destruct (cleanup_silences_registered (run [ConnectToPeer "k"; ChannelOpen 0] init_state)
              [ConnectToPeer "k"; ChannelOpen 1]) as (Hch & Hpc & _).
  split.
  - apply (Hch "k" 0 (Build_DataChannel 0 "chat" ch_open (Some "k"))); [left|reflexivity].
  - apply (Hpc "k" 0 (Build_PeerConnection "k" true false)); [left|reflexivity].
Defined.

Lemma replaced_connection_outlives_cleanup_witness :
  let s := run [ConnectToPeer "k"] init_state in
  let s' := cleanup (connectToPeer "k" s) in
  pcs s' !! 0 = Some (Build_PeerConnection "k" true false)
  /\ pcs s' !! length (pcs s) = Some (Build_PeerConnection "k" false true).
Proof.
  apply (replaced_connection_outlives_cleanup [ConnectToPeer "k"] "k" 0); reflexivity.
Defined.

Lemma channel_close_unregisters_peer_witness :
  let s := run [ConnectToPeer "k"; ConnectToPeer "k"; ChannelOpen 1] init_state in
  let s' := step (ChannelClose 0) s in
  map_get "k" (dataChannels s') = None
  /\ forall message outcome, sendMessage "k" message outcome s' = (Normal false, s').
Proof.
  apply (channel_close_unregisters_peer
           [ConnectToPeer "k"; ConnectToPeer "k"; ChannelOpen 1] 0 0 "chat" ch_connecting "k");
    [reflexivity|discriminate].
Defined.

End SessionFacts.
